(** * NodeModal: path formatting, row normalisation, value coercion and
    copy-on-write update of a JSON document

    Shallow embedding of [src/features/modals/NodeModal/index.tsx]:
    [normalizeNodeData], [jsonPathToString], [updateJsonAtPath] and the
    computation of [newValue] in [handleSave], together with the parts of the
    JavaScript platform those four functions call ([String.prototype.trim],
    [Number], [isNaN], [JSON.parse], [JSON.stringify], template-literal
    conversion and the ordering of own property keys). *)

From Stdlib Require Import ZArith List String Ascii Bool Lia Sorted.
From stdpp Require Import base list.
Import ListNotations.

Local Open Scope Z_scope.

(* ===================================================================== *)
(** * JavaScript strings *)
(* ===================================================================== *)

(** A JavaScript string is a sequence of UTF-16 code units, each a 16-bit
    integer. *)
Definition jstring := list Z.

(** [js] reads an ASCII literal of the development as a JavaScript string,
    one code unit per character. *)
Definition js (s : string) : jstring :=
  map (fun a => Z.of_N (N_of_ascii a)) (list_ascii_of_string s).

(** The same with an apostrophe standing for a double quote, for literals
    of JSON text. *)
Definition jq (s : string) : jstring :=
  map (fun c => if c =? 39 then 34 else c) (js s).

Definition jstring_eqb (a b : jstring) : bool :=
  if decide (a = b) then true else false.

(** [s.startsWith(p)] *)
Fixpoint startsWith (s p : jstring) : bool :=
  match p, s with
  | [], _ => true
  | _ :: _, [] => false
  | c :: p', d :: s' => (c =? d) && startsWith s' p'
  end.

(** [s.endsWith(p)] *)
Definition endsWith (s p : jstring) : bool := startsWith (rev s) (rev p).

(** WhiteSpace and LineTerminator code units of ECMAScript: the ones that
    [trim] and the string-to-number conversion strip. *)
Definition is_js_space (c : Z) : bool :=
  (c =? 9) || (c =? 10) || (c =? 11) || (c =? 12) || (c =? 13) || (c =? 32)
  || (c =? 160) || (c =? 5760) || ((8192 <=? c) && (c <=? 8202))
  || (c =? 8232) || (c =? 8233) || (c =? 8239) || (c =? 8287)
  || (c =? 12288) || (c =? 65279).

Fixpoint trimStart (s : jstring) : jstring :=
  match s with
  | c :: s' => if is_js_space c then trimStart s' else s
  | [] => []
  end.

(** [s.trim()] *)
Definition trim (s : jstring) : jstring := rev (trimStart (rev (trimStart s))).

Definition is_digit (c : Z) : bool := (48 <=? c) && (c <=? 57).

(** Decimal digits of a non-negative integer, most significant first. The fuel
    bounds the number of digits. *)
Fixpoint digits_fuel (fuel : nat) (n : Z) (acc : jstring) : jstring :=
  match fuel with
  | O => acc
  | S fuel' =>
      let acc' := (48 + n mod 10) :: acc in
      if n <? 10 then acc' else digits_fuel fuel' (n / 10) acc'
  end.

Definition digits_of (n : Z) : jstring :=
  digits_fuel (S (Z.to_nat (Z.log2 n))) n [].

(** Number::toString of an integer (sign, then digits). *)
Definition int_to_string (n : Z) : jstring :=
  if n <? 0 then 45 :: digits_of (- n) else digits_of n.

(** Value of a sequence of digits in base [b] ([hexval] gives each digit). *)
Definition hexval (c : Z) : option Z :=
  if is_digit c then Some (c - 48)
  else if (97 <=? c) && (c <=? 102) then Some (c - 87)
  else if (65 <=? c) && (c <=? 70) then Some (c - 55)
  else None.

Fixpoint value_in_base (b : Z) (acc : Z) (s : jstring) : option Z :=
  match s with
  | [] => Some acc
  | c :: s' =>
      match hexval c with
      | Some d => if d <? b then value_in_base b (acc * b + d) s' else None
      | None => None
      end
  end.

Fixpoint span_digits (s : jstring) : jstring * jstring :=
  match s with
  | c :: s' =>
      if is_digit c then let (d, r) := span_digits s' in (c :: d, r)
      else ([], s)
  | [] => ([], [])
  end.

Definition digits_value (d : jstring) : Z :=
  fold_left (fun acc c => acc * 10 + (c - 48)) d 0.

(* ===================================================================== *)
(** * JavaScript numbers *)
(* ===================================================================== *)

(** A Number is an IEEE 754 binary64 value. A finite one is
    [(-1)^neg * m * 2^e] with [0 <= m < 2^53] and [-1074 <= e <= 971], where
    [m >= 2^52] unless [e = -1074] (subnormals and the two zeros). *)
Inductive Number : Type :=
  | NaN
  | Inf (neg : bool)
  | Fin (neg : bool) (m : Z) (e : Z).

Definition Number_eq_dec (a b : Number) : {a = b} + {a <> b}.
Proof. repeat decide equality. Defined.

#[global] Instance Number_eq_decision : EqDecision Number := Number_eq_dec.

(** Round-to-nearest, ties-to-even, of the rational [p / q] ([0 <= p],
    [0 < q]) carrying sign [neg]. *)
Definition round64 (neg : bool) (p q : Z) : Number :=
  if p =? 0 then Fin neg 0 (-1074)
  else
    let e0 := Z.log2 p - Z.log2 q - 52 in
    (* p / (q * 2^e0) lies in [2^51, 2^53) *)
    let below :=
      if e0 <? 0 then p * 2 ^ (- e0) <? q * 2 ^ 52
      else p <? q * 2 ^ (52 + e0) in
    let e := Z.max (if below then e0 - 1 else e0) (-1074) in
    let num := if e <? 0 then p * 2 ^ (- e) else p in
    let den := if e <? 0 then q else q * 2 ^ e in
    let m0 := num / den in
    let r := num mod den in
    let m := if (den <? 2 * r) || ((den =? 2 * r) && Z.odd m0)
             then m0 + 1 else m0 in
    let '(m, e) := if m =? 2 ^ 53 then (2 ^ 52, e + 1) else (m, e) in
    if 971 <? e then Inf neg else Fin neg m e.

Definition num_of_Z (z : Z) : Number := round64 (z <? 0) (Z.abs z) 1.

(** The Number value of the decimal [mant * 10^ex]. *)
Definition num_of_decimal (neg : bool) (mant ex : Z) : Number :=
  if ex <? 0 then round64 neg mant (10 ^ (- ex))
  else round64 neg (mant * 10 ^ ex) 1.

Definition isNaN (n : Number) : bool :=
  match n with NaN => true | _ => false end.

Definition isFinite (n : Number) : bool :=
  match n with Fin _ _ _ => true | _ => false end.

(** ** Number::toString *)

(** [decimal_exponent p q] is the [n] with [10^(n-1) <= p/q < 10^n]. *)
Fixpoint count_up (fuel : nat) (p q : Z) (n : Z) : Z :=
  match fuel with
  | O => n
  | S fuel' => if p <? q then n else count_up fuel' p (q * 10) (n + 1)
  end.

Fixpoint count_down (fuel : nat) (p q : Z) (n : Z) : Z :=
  match fuel with
  | O => n
  | S fuel' => if q <=? p then n else count_down fuel' (p * 10) q (n - 1)
  end.

Definition decimal_exponent (p q : Z) : Z :=
  if q <=? p then count_up 400 p q 0 else count_down 400 (p * 10) q 0.

(** The [k]-digit decimal [s * 10^(n-k)] nearest to [x = p/q] that converts
    back to [x], if there is one. *)
Definition shortest_at (x : Number) (p q : Z) (n k : Z) : option (Z * Z) :=
  let t := n - k in
  let num := if t <? 0 then p * 10 ^ (- t) else p in
  let den := if t <? 0 then q else q * 10 ^ t in
  let lo := num / den in
  let r := num mod den in
  let hi := lo + 1 in
  let ok c := if decide (num_of_decimal false c t = x) then true else false in
  let pick c := if c =? 10 ^ k then Some (n + 1, 10 ^ (k - 1)) else Some (n, c) in
  match ok lo, ok hi with
  | true, true =>
      if (2 * r <? den) || ((2 * r =? den) && Z.even lo) then pick lo else pick hi
  | true, false => pick lo
  | false, true => pick hi
  | false, false => None
  end.

Fixpoint shortest_from (fuel : nat) (x : Number) (p q : Z) (n k : Z)
  : Z * Z * Z :=
  match fuel with
  | O => (n, k, 0)
  | S fuel' =>
      match shortest_at x p q n k with
      | Some (n', s) => (n', k, s)
      | None => shortest_from fuel' x p q n (k + 1)
      end
  end.

Definition zeros (n : Z) : jstring := repeat 48 (Z.to_nat n).

Definition Number_toString (x : Number) : jstring :=
  match x with
  | NaN => js "NaN"
  | Inf neg => (if neg then js "-" else []) ++ js "Infinity"
  | Fin neg m e =>
      if m =? 0 then js "0"
      else
        let p := if e <? 0 then m else m * 2 ^ e in
        let q := if e <? 0 then 2 ^ (- e) else 1 in
        let '(n, k, s) :=
          shortest_from 17 (Fin false m e) p q (decimal_exponent p q) 1 in
        let ds := digits_of s in
        let body :=
          if (k <=? n) && (n <=? 21) then ds ++ zeros (n - k)
          else if (0 <? n) && (n <=? 21) then
            take (Z.to_nat n) ds ++ js "." ++ drop (Z.to_nat n) ds
          else if (-6 <? n) && (n <=? 0) then js "0." ++ zeros (- n) ++ ds
          else
            let ex := n - 1 in
            let sgn := if ex <? 0 then js "-" else js "+" in
            let mant :=
              if k =? 1 then ds else take 1 ds ++ js "." ++ drop 1 ds in
            mant ++ js "e" ++ sgn ++ digits_of (Z.abs ex) in
        (if neg then js "-" else []) ++ body
  end.

(** ** StringToNumber, the conversion behind [Number(text)] *)

(** An optional sign: [-] gives [true]. *)
Definition take_sign (s : jstring) : bool * jstring :=
  match s with
  | c :: r =>
      if c =? 45 then (true, r) else if c =? 43 then (false, r) else (false, s)
  | [] => (false, s)
  end.

(** ExponentPart, optional: [e] or [E], an optional sign, digits. [None] when
    what follows is not a well-formed exponent. *)
Definition parse_exponent (s : jstring) : option Z :=
  match s with
  | [] => Some 0
  | c :: s1 =>
      if (c =? 101) || (c =? 69) then
        let (neg, s2) := take_sign s1 in
        let (d, r) := span_digits s2 in
        match d, r with
        | _ :: _, [] => Some (if neg then - digits_value d else digits_value d)
        | _, _ => None
        end
      else None
  end.

(** StrUnsignedDecimalLiteral other than [Infinity]. *)
Definition parse_unsigned_decimal (neg : bool) (s : jstring) : Number :=
  let (ip, r) := span_digits s in
  let (fp, r) :=
    match r with
    | c :: r' => if c =? 46 then span_digits r' else ([], r)
    | [] => ([], r)
    end in
  match ip, fp with
  | [], [] => NaN
  | _, _ =>
      match parse_exponent r with
      | Some ex =>
          num_of_decimal neg (digits_value (ip ++ fp)) (ex - Z.of_nat (length fp))
      | None => NaN
      end
  end.

Definition parse_radix (b : Z) (s : jstring) : Number :=
  match s with
  | [] => NaN
  | _ => match value_in_base b 0 s with
         | Some v => round64 false v 1
         | None => NaN
         end
  end.

(** The base of a NonDecimalIntegerLiteral prefix: [0x], [0o], [0b] in
    either case. *)
Definition radix_prefix (s : jstring) : option (Z * jstring) :=
  match s with
  | c0 :: x :: r =>
      if c0 =? 48 then
        if (x =? 120) || (x =? 88) then Some (16, r)
        else if (x =? 111) || (x =? 79) then Some (8, r)
        else if (x =? 98) || (x =? 66) then Some (2, r)
        else None
      else None
  | _ => None
  end.

Definition StringToNumber (text : jstring) : Number :=
  let s := trim text in
  match s with
  | [] => Fin false 0 (-1074)
  | _ =>
      match radix_prefix s with
      | Some (b, r) => parse_radix b r
      | None =>
          let (neg, u) := take_sign s in
          if jstring_eqb u (js "Infinity") then Inf neg
          else parse_unsigned_decimal neg u
      end
  end.

(* ===================================================================== *)
(** * JSON values and object properties *)
(* ===================================================================== *)

(** The values [JSON.parse] produces. An Object is the list of its own
    properties in the order JavaScript enumerates them, an Array the list of
    its elements. This is the JSON content of a JavaScript value: what
    [JSON.stringify] prints and what the spreads [[...json]] and
    [{ ...json }] copy. The prototype of an object and a named property of
    an Array are no part of it. *)
#[warnings="-register-all"]
Inductive Json : Type :=
  | JNull
  | JBool (b : bool)
  | JNum (n : Number)
  | JStr (s : jstring)
  | JArr (elems : list Json)
  | JObj (props : list (jstring * Json)).

(** An array index is a property key that is the canonical decimal form of an
    integer in [0, 2^32 - 2]. *)
Definition array_index (k : jstring) : option Z :=
  match k with
  | [] => None
  | c :: r =>
      if forallb is_digit k && (negb (c =? 48) || (length r =? 0)%nat)
         && (digits_value k <? 2 ^ 32 - 1)
      then Some (digits_value k) else None
  end.

Definition proto_key : jstring := js "__proto__".

Section Properties.
Context {A : Type}.

(** Own property lookup. *)
Fixpoint prop_get (k : jstring) (o : list (jstring * A)) : option A :=
  match o with
  | [] => None
  | (k', v) :: o' => if jstring_eqb k' k then Some v else prop_get k o'
  end.

Definition prop_has (k : jstring) (o : list (jstring * A)) : bool :=
  match prop_get k o with Some _ => true | None => false end.

(** Writing an existing own property keeps its place in the order. *)
Fixpoint prop_replace (k : jstring) (v : A) (o : list (jstring * A))
  : list (jstring * A) :=
  match o with
  | [] => []
  | (k', v') :: o' =>
      if jstring_eqb k' k then (k', v) :: o'
      else (k', v') :: prop_replace k v o'
  end.

(** A new array-index key goes among the index keys, in ascending order;
    they come before every other key. *)
Fixpoint prop_insert_index (i : Z) (k : jstring) (v : A)
  (o : list (jstring * A)) : list (jstring * A) :=
  match o with
  | [] => [(k, v)]
  | (k', v') :: o' =>
      match array_index k' with
      | Some j =>
          if j <? i then (k', v') :: prop_insert_index i k v o'
          else (k, v) :: o
      | None => (k, v) :: o
      end
  end.

(** A new key that is not an array index goes last. *)
Definition prop_add (k : jstring) (v : A) (o : list (jstring * A))
  : list (jstring * A) :=
  match array_index k with
  | Some i => prop_insert_index i k v o
  | None => o ++ [(k, v)]
  end.

(** CreateDataProperty, as used by [JSON.parse] and by object spread. *)
Definition prop_define (k : jstring) (v : A) (o : list (jstring * A))
  : list (jstring * A) :=
  if prop_has k o then prop_replace k v o else prop_add k v o.

(** The own properties after the assignment [o[k] = v] on an ordinary
    object whose prototype is [Object.prototype], as every fresh copy
    [{ ...json }] is. An own property is overwritten. Otherwise the key
    [__proto__] reaches the inherited setter, which creates no own property:
    it replaces the prototype when [v] is an object or [null] and does
    nothing else; any other key becomes a new own property. (The prototype
    is not held in the list. [updateJsonAtPath] assigns once to each copy;
    the loop of [normalizeNodeData] assigns many times to one object, and
    [assign] below follows its prototype.) *)
Definition prop_set (k : jstring) (v : A) (o : list (jstring * A))
  : list (jstring * A) :=
  if prop_has k o then prop_replace k v o
  else if jstring_eqb k proto_key then o
  else prop_add k v o.
End Properties.

(* ===================================================================== *)
(** * JSON.parse *)
(* ===================================================================== *)

Definition is_json_ws (c : Z) : bool :=
  (c =? 9) || (c =? 10) || (c =? 13) || (c =? 32).

Fixpoint skip_ws (s : jstring) : jstring :=
  match s with
  | c :: s' => if is_json_ws c then skip_ws s' else s
  | [] => []
  end.

(** The character an escape letter stands for ([\u] apart). *)
Definition unescape (e : Z) : option Z :=
  if e =? 34 then Some 34
  else if e =? 92 then Some 92
  else if e =? 47 then Some 47
  else if e =? 98 then Some 8
  else if e =? 102 then Some 12
  else if e =? 110 then Some 10
  else if e =? 114 then Some 13
  else if e =? 116 then Some 9
  else None.

Definition cons_char (c : Z) (rest : option (jstring * jstring))
  : option (jstring * jstring) :=
  match rest with
  | Some (cs, r) => Some (c :: cs, r)
  | None => None
  end.

(** The characters of a string literal after its opening quote, up to and
    including the closing quote. *)
Fixpoint parse_string_chars (s : jstring) : option (jstring * jstring) :=
  match s with
  | [] => None
  | c :: r =>
      if c =? 34 then Some ([], r)
      else if c =? 92 then
        match r with
        | [] => None
        | e :: r1 =>
            if e =? 117 then
              match r1 with
              | a :: b :: c :: d :: r2 =>
                  match value_in_base 16 0 [a; b; c; d] with
                  | Some u => cons_char u (parse_string_chars r2)
                  | None => None
                  end
              | _ => None
              end
            else
              match unescape e with
              | Some u => cons_char u (parse_string_chars r1)
              | None => None
              end
        end
      else if c <? 32 then None
      else cons_char c (parse_string_chars r)
  end.

(** [-], optional. *)
Definition take_minus (s : jstring) : bool * jstring :=
  match s with
  | c :: r => if c =? 45 then (true, r) else (false, s)
  | [] => (false, s)
  end.

(** The fraction of a JSON number, optional: [.] and at least one digit. *)
Definition parse_fraction (s : jstring) : option (jstring * jstring) :=
  match s with
  | c :: r =>
      if c =? 46 then
        let (fp, r') := span_digits r in
        match fp with [] => None | _ => Some (fp, r') end
      else Some ([], s)
  | [] => Some ([], s)
  end.

(** The exponent of a JSON number, optional: [e] or [E], an optional sign
    and at least one digit. *)
Definition parse_json_exponent (s : jstring) : option (Z * jstring) :=
  match s with
  | c :: r =>
      if (c =? 101) || (c =? 69) then
        let (eneg, r') := take_sign r in
        let (ed, r'') := span_digits r' in
        match ed with
        | [] => None
        | _ => Some (if eneg then - digits_value ed else digits_value ed, r'')
        end
      else Some (0, s)
  | [] => Some (0, s)
  end.

(** The integer part has no leading zero. *)
Definition leading_zero (ip : jstring) : bool :=
  match ip with
  | c :: _ :: _ => c =? 48
  | _ => false
  end.

(** A JSON number: [-]? int frac? exp?. *)
Definition parse_json_number (s : jstring) : option (Number * jstring) :=
  let (neg, s1) := take_minus s in
  let (ip, r1) := span_digits s1 in
  match ip with
  | [] => None
  | _ =>
      if leading_zero ip then None
      else
        match parse_fraction r1 with
        | None => None
        | Some (fp, r2) =>
            match parse_json_exponent r2 with
            | None => None
            | Some (ex, r3) =>
                Some (num_of_decimal neg (digits_value (ip ++ fp))
                        (ex - Z.of_nat (length fp)), r3)
            end
        end
  end.

Definition expect (lit : jstring) (v : Json) (s : jstring)
  : option (Json * jstring) :=
  if startsWith s lit then Some (v, drop (length lit) s) else None.

(** The next character, after white space, is [c]: what follows it. *)
Definition after_char (c : Z) (s : jstring) : option jstring :=
  match skip_ws s with
  | d :: r => if d =? c then Some r else None
  | [] => None
  end.

(** One JSON value with the white space before it. [parse_elements] reads
    the rest of an array after [[] or [,]; [parse_members] the rest of an
    object after [{] or [,]. The fuel bounds the depth of the calls; twice the
    length of the text is enough. *)
Fixpoint parse_value (fuel : nat) (s : jstring) {struct fuel}
  : option (Json * jstring) :=
  match fuel with
  | O => None
  | S f =>
      match skip_ws s with
      | [] => None
      | c :: r =>
          if c =? 110 then expect (js "null") JNull (c :: r)
          else if c =? 116 then expect (js "true") (JBool true) (c :: r)
          else if c =? 102 then expect (js "false") (JBool false) (c :: r)
          else if c =? 34 then
            match parse_string_chars r with
            | Some (str, r') => Some (JStr str, r')
            | None => None
            end
          else if c =? 91 then
            match after_char 93 r with
            | Some r' => Some (JArr [], r')
            | None => parse_elements f [] r
            end
          else if c =? 123 then
            match after_char 125 r with
            | Some r' => Some (JObj [], r')
            | None => parse_members f [] r
            end
          else
            match parse_json_number (c :: r) with
            | Some (n, r') => Some (JNum n, r')
            | None => None
            end
      end
  end
with parse_elements (fuel : nat) (acc : list Json) (s : jstring) {struct fuel}
  : option (Json * jstring) :=
  match fuel with
  | O => None
  | S f =>
      match parse_value f s with
      | Some (v, r) =>
          match after_char 44 r with
          | Some r' => parse_elements f (acc ++ [v]) r'
          | None =>
              match after_char 93 r with
              | Some r' => Some (JArr (acc ++ [v]), r')
              | None => None
              end
          end
      | None => None
      end
  end
with parse_members (fuel : nat) (acc : list (jstring * Json)) (s : jstring)
  {struct fuel} : option (Json * jstring) :=
  match fuel with
  | O => None
  | S f =>
      match after_char 34 s with
      | Some r0 =>
          match parse_string_chars r0 with
          | Some (k, r1) =>
              match after_char 58 r1 with
              | Some r2 =>
                  match parse_value f r2 with
                  | Some (v, r3) =>
                      match after_char 44 r3 with
                      | Some r' => parse_members f (prop_define k v acc) r'
                      | None =>
                          match after_char 125 r3 with
                          | Some r' => Some (JObj (prop_define k v acc), r')
                          | None => None
                          end
                      end
                  | None => None
                  end
              | None => None
              end
          | None => None
          end
      | None => None
      end
  end.

(** [JSON.parse(text)]: [None] stands for the SyntaxError it throws. *)
Definition JSON_parse (text : jstring) : option Json :=
  match parse_value (2 * length text + 2) text with
  | Some (v, r) => match skip_ws r with [] => Some v | _ => None end
  | None => None
  end.

(* ===================================================================== *)
(** * JSON.stringify *)
(* ===================================================================== *)

Definition hex_digit (d : Z) : Z := if d <? 10 then 48 + d else 87 + d.

(** [\uXXXX] with lower-case hexadecimal digits. *)
Definition unicode_escape (c : Z) : jstring :=
  js "\u" ++ [hex_digit (c / 4096 mod 16); hex_digit (c / 256 mod 16);
              hex_digit (c / 16 mod 16); hex_digit (c mod 16)].

Definition is_high_surrogate (c : Z) : bool := (55296 <=? c) && (c <=? 56319).
Definition is_low_surrogate (c : Z) : bool := (56320 <=? c) && (c <=? 57343).

Fixpoint quote_chars (s : jstring) : jstring :=
  match s with
  | [] => []
  | c :: r =>
      if c =? 8 then js "\b" ++ quote_chars r
      else if c =? 9 then js "\t" ++ quote_chars r
      else if c =? 10 then js "\n" ++ quote_chars r
      else if c =? 12 then js "\f" ++ quote_chars r
      else if c =? 13 then js "\r" ++ quote_chars r
      else if c =? 34 then [92; 34] ++ quote_chars r
      else if c =? 92 then [92; 92] ++ quote_chars r
      else if c <? 32 then unicode_escape c ++ quote_chars r
      else if is_high_surrogate c then
        match r with
        | d :: r' =>
            if is_low_surrogate d then c :: d :: quote_chars r'
            else unicode_escape c ++ quote_chars r
        | [] => unicode_escape c
        end
      else if is_low_surrogate c then unicode_escape c ++ quote_chars r
      else c :: quote_chars r
  end.

(** QuoteJSONString *)
Definition quote_json (s : jstring) : jstring := [34] ++ quote_chars s ++ [34].

(** [parts.join(sep)] on strings. *)
Fixpoint join (sep : jstring) (parts : list jstring) : jstring :=
  match parts with
  | [] => []
  | [p] => p
  | p :: ps => p ++ sep ++ join sep ps
  end.

Definition newline : jstring := [10].
Definition gap2 : jstring := [32; 32].

(** SerializeJSONProperty with a gap of two spaces; [indent] is the current
    indentation. *)
Fixpoint serialize (indent : jstring) (v : Json) : jstring :=
  match v with
  | JNull => js "null"
  | JBool true => js "true"
  | JBool false => js "false"
  | JNum n => if isFinite n then Number_toString n else js "null"
  | JStr s => quote_json s
  | JArr [] => js "[]"
  | JArr elems =>
      let inner := indent ++ gap2 in
      js "[" ++ newline ++ inner
        ++ join (js "," ++ newline ++ inner) (map (serialize inner) elems)
        ++ newline ++ indent ++ js "]"
  | JObj [] => js "{}"
  | JObj props =>
      let inner := indent ++ gap2 in
      js "{" ++ newline ++ inner
        ++ join (js "," ++ newline ++ inner)
             (map (fun p => quote_json (fst p) ++ js ": " ++ serialize inner (snd p))
                props)
        ++ newline ++ indent ++ js "}"
  end.

(** [JSON.stringify(value, null, 2)] *)
Definition JSON_stringify2 (v : Json) : jstring := serialize [] v.

(* ===================================================================== *)
(** * normalizeNodeData *)
(* ===================================================================== *)

(** Modelled from the spec: the row type [NodeData["text"]] of
    [types/graph], which is not among the sources. A DisplayRow has an
    optional key, a primitive value and a type tag. *)
Inductive RowType : Type :=
  | TArray | TObject | TString | TNumber | TBoolean | TNull.

Inductive Prim : Type :=
  | PNull
  | PBool (b : bool)
  | PNum (n : Number)
  | PStr (s : jstring).

Record NodeRow : Type := mkRow {
  key : option jstring;
  value : Prim;
  type : RowType
}.

(** The template literal [`${value}`]. *)
Definition template (v : Prim) : jstring :=
  match v with
  | PNull => js "null"
  | PBool true => js "true"
  | PBool false => js "false"
  | PNum n => Number_toString n
  | PStr s => s
  end.

Definition json_of_prim (v : Prim) : Json :=
  match v with
  | PNull => JNull
  | PBool b => JBool b
  | PNum n => JNum n
  | PStr s => JStr s
  end.

(** Truthiness of [row.key]: an absent key and the empty string are falsy. *)
Definition key_truthy (k : option jstring) : bool :=
  match k with
  | Some (_ :: _) => true
  | _ => false
  end.

Definition is_container (t : RowType) : bool :=
  match t with TArray | TObject => true | _ => false end.

(** The object [obj] of line 17 while the loop runs: its own properties,
    and whether its prototype has been removed. It starts as [{}], with
    [Object.prototype] as prototype. *)
Record RowObject : Type := mkObject {
  own : list (jstring * Json);
  proto_null : bool
}.

Definition is_null (v : Json) : bool :=
  match v with JNull => true | _ => false end.

(** [obj[k] = v] for a primitive [v], as row values are. While the prototype
    is [Object.prototype] the own properties change as [prop_set] says: an
    assignment to [__proto__] without own property of that name reaches the
    inherited setter, which creates no property; it ignores a primitive
    other than [null], and on [null] it removes the prototype. Without
    prototype no setter is inherited, and every key, [__proto__] too, is
    created or overwritten as an own property. *)
Definition assign (k : jstring) (v : Json) (obj : RowObject) : RowObject :=
  if proto_null obj then mkObject (prop_define k v (own obj)) true
  else
    mkObject (prop_set k v (own obj))
      (negb (prop_has k (own obj)) && jstring_eqb k proto_key && is_null v).

(** The body of the [forEach] callback: one row folded into [obj]. *)
Definition add_row (obj : RowObject) (row : NodeRow) : RowObject :=
  if negb (is_container (type row)) then
    match key row with
    | Some k => if key_truthy (key row)
                then assign k (json_of_prim (value row)) obj else obj
    | None => obj
    end
  else obj.

(** The own properties of [obj] after the loop. *)
Definition rows_object (nodeRows : list NodeRow) : list (jstring * Json) :=
  own (fold_left add_row nodeRows (mkObject [] false)).

Definition normalizeNodeData (nodeRows : list NodeRow) : jstring :=
  match nodeRows with
  | [] => js "{}"
  | row0 :: _ =>
      if (length nodeRows =? 1)%nat && negb (key_truthy (key row0))
      then template (value row0)
      else JSON_stringify2 (JObj (rows_object nodeRows))
  end.

(* ===================================================================== *)
(** * jsonPathToString *)
(* ===================================================================== *)

(** A segment of a [JSONPath]: a number or a string. The numbers of a path
    are array indices; [SIdx i] stands for the Number [i], and its text and
    property key are the decimal digits [int_to_string i]. This is what
    Number::toString prints below [2^53] in absolute value
    ([Number_toString_integer]), so for every array index; for a larger [i]
    the code prints other digits, and from [10^21] on an exponent (the
    segments of [Raw] below). *)
Inductive Segment : Type :=
  | SIdx (i : Z)
  | SKey (k : jstring).

Definition dquote : jstring := [34].

(** [typeof seg === "number" ? seg : `"${seg}"`], as [join] then prints it. *)
Definition segment_text (seg : Segment) : jstring :=
  match seg with
  | SIdx i => int_to_string i
  | SKey k => dquote ++ k ++ dquote
  end.

Definition jsonPathToString (path : option (list Segment)) : jstring :=
  match path with
  | None | Some [] => js "$"
  | Some p =>
      let segments := map segment_text p in
      js "$[" ++ join (js "][") segments ++ js "]"
  end.

(* ===================================================================== *)
(** * updateJsonAtPath *)
(* ===================================================================== *)

(** ToPropertyKey of a segment. *)
Definition prop_key (seg : Segment) : jstring :=
  match seg with
  | SIdx i => int_to_string i
  | SKey k => k
  end.

(** The two comparisons of the guard on a Number: [x >= 0] and
    [x < result.length]. Both are false on [NaN]; the negative zero is a
    zero. *)
Definition Number_ge_zero (x : Number) : bool :=
  match x with
  | NaN => false
  | Inf neg => negb neg
  | Fin neg m e => negb neg || (m =? 0)
  end.

Definition Number_lt_length (x : Number) (len : nat) : bool :=
  match x with
  | NaN => false
  | Inf neg => neg
  | Fin neg m e =>
      if neg then negb (m =? 0) || (0 <? Z.of_nat len)
      else if e <? 0 then m <? Z.of_nat len * 2 ^ (- e)
      else m * 2 ^ e <? Z.of_nat len
  end.

(** The guard [index >= 0 && index < result.length] of lines 48 and 58,
    where [index] is [first]: a number is compared as it is, a string by
    its numeric value. *)
Definition guard (first : Segment) (len : nat) : bool :=
  match first with
  | SIdx i => (0 <=? i) && (i <? Z.of_nat len)
  | SKey k =>
      Number_ge_zero (StringToNumber k)
      && Number_lt_length (StringToNumber k) len
  end.

(** The element of an Array of length [len] that [result[first] = ...]
    writes under the guard. The write goes to the property key of [first];
    it reaches an element when that key is an array index, which under the
    guard is below the length. A string that passes the guard without being
    an array index (["01"], ["1.0"], the empty string) makes the write
    create a named property on the copy: it is no element, [JSON.stringify]
    never prints it and the next spread drops it, so the elements are
    unchanged; the JSON values of this development hold the elements of an
    Array and nothing else. *)
Definition guarded_index (first : Segment) (len : nat) : option nat :=
  if guard first len then
    match first with
    | SIdx i => Some (Z.to_nat i)
    | SKey k =>
        match array_index k with
        | Some i => Some (Z.to_nat i)
        | None => None
        end
    end
  else None.

(** The own properties that [{ ...json }] copies when [json] is not an Array:
    those of an Object, the characters of a String under their indices, and
    none for [null], a Boolean, a Number or [undefined] ([None]). *)
Definition spread (json : option Json) : list (jstring * Json) :=
  match json with
  | Some (JObj props) => props
  | Some (JStr s) => imap (fun i c => (digits_of (Z.of_nat i), JStr [c])) s
  | _ => []
  end.

(** [json] is [None] for [undefined], the value of [result[first]] when the
    copy has no such own property. (What an Object inherits under a name, a
    method of [Object.prototype] or the prototype itself, is neither an Array
    nor has own enumerable properties, so the call treats it like
    [undefined].) The test [result && typeof result === "object"] of the
    descending case is always true, [result] being the fresh copy. *)
Fixpoint updateJsonAtPath (json : option Json) (path : list Segment)
  (newValue : Json) : Json :=
  match path with
  | [] => newValue
  | first :: rest =>
      match json with
      | Some (JArr elems) =>
          (* result = [...json] *)
          match guarded_index first (length elems) with
          | Some index =>
              match rest with
              | [] => JArr (<[index := newValue]> elems)
              | _ =>
                  JArr (<[index :=
                            updateJsonAtPath (elems !! index) rest newValue]>
                          elems)
              end
          | None => JArr elems
          end
      | _ =>
          (* result = { ...json } *)
          let result := spread json in
          match rest with
          | [] => JObj (prop_set (prop_key first) newValue result)
          | _ =>
              JObj (prop_set (prop_key first)
                      (updateJsonAtPath (prop_get (prop_key first) result)
                         rest newValue)
                      result)
          end
      end
  end.

(** [Array.isArray(json)] *)
Definition is_array (json : option Json) : bool :=
  match json with Some (JArr _) => true | _ => false end.

(** [get(D, P)] of the round-trip property, in the words of the
    specification: the value at a valid location, where every integer segment
    is an in-bounds index of a sequence and every string segment is a key of
    a mapping. The program has no such function. *)
Fixpoint get (D : Json) (P : list Segment) : option Json :=
  match P with
  | [] => Some D
  | seg :: P' =>
      match D, seg with
      | JArr elems, SIdx i =>
          if 0 <=? i then
            match elems !! Z.to_nat i with
            | Some child => get child P'
            | None => None
            end
          else None
      | JObj props, SKey k =>
          match prop_get k props with
          | Some child => get child P'
          | None => None
          end
      | _, _ => None
      end
  end.

(* ===================================================================== *)
(** * The value coercion of handleSave *)
(* ===================================================================== *)

(** What the computation of [newValue] ends with: a value, or the SyntaxError
    of the [JSON.parse] call of line 111, which leaves the inner [catch]
    block and is caught by the outer one (line 143). *)
Inductive outcome : Type :=
  | Value (v : Json)
  | Throws.

(** The ladder of the inner [catch] block, on the trimmed text. *)
Definition fallback (trimmed : jstring) : outcome :=
  if startsWith trimmed dquote && endsWith trimmed dquote then
    match JSON_parse trimmed with
    | Some v => Value v
    | None => Throws
    end
  else if jstring_eqb trimmed (js "null") then Value JNull
  else if jstring_eqb trimmed (js "true") then Value (JBool true)
  else if jstring_eqb trimmed (js "false") then Value (JBool false)
  else if negb (isNaN (StringToNumber trimmed)) && negb (jstring_eqb trimmed [])
  then Value (JNum (StringToNumber trimmed))
  else Value (JStr trimmed).

(** Lines 104-124 of [handleSave]: the value of [newValue]. *)
Definition coerce (editedContent : jstring) : outcome :=
  match JSON_parse editedContent with
  | Some v => Value v
  | None => fallback (trim editedContent)
  end.

(* ===================================================================== *)
(** * handleSave *)
(* ===================================================================== *)

(** The state [handleSave] acts on: the text of the JSON store ([getJson],
    [setJson]), the contents of the file editor, the toasts shown so far and
    the editing flag. The message of a caught error is the engine's and is
    not modelled. *)
Inductive toast : Type :=
  | ErrorMissingPath
  | ErrorInvalidJson
  | SuccessUpdated.

Record AppState : Type := mkState {
  json : jstring;
  contents : jstring;
  hasChanges : bool;
  toasts : list toast;
  isEditing : bool
}.

Definition toast_error (t : toast) (st : AppState) : AppState :=
  mkState (json st) (contents st) (hasChanges st) (toasts st ++ [t])
    (isEditing st).

Definition handleSave (path : option (list Segment)) (editedContent : jstring)
  (st : AppState) : AppState :=
  match path with
  | None => toast_error ErrorMissingPath st
  | Some p =>
      match coerce editedContent with
      | Throws => toast_error ErrorInvalidJson st
      | Value newValue =>
          match JSON_parse (json st) with
          | None => toast_error ErrorInvalidJson st
          | Some currentJson =>
              let updatedJson := updateJsonAtPath (Some currentJson) p newValue in
              let updatedJsonString := JSON_stringify2 updatedJson in
              mkState updatedJsonString updatedJsonString true
                (toasts st ++ [SuccessUpdated]) false
          end
      end
  end.

(* ===================================================================== *)
(** * The editing state of the modal *)
(* ===================================================================== *)

(** The two pieces of component state, [isEditing] and [editedContent], and
    what acts on them while the modal is open on a node: the effect of
    lines 77-82, [handleEdit], [handleCancel], and the [onChange] of the text
    area, which exists only while editing (line 179). [nodeData] is [None]
    when no node is selected. *)
Record Editor : Type := mkEditor {
  editing : bool;
  editedContent : jstring
}.

Definition on_open (nodeData : option (list NodeRow)) (m : Editor) : Editor :=
  match nodeData with
  | Some text => mkEditor false (normalizeNodeData text)
  | None => m
  end.

Definition handleEdit (m : Editor) : Editor := mkEditor true (editedContent m).

Definition handleCancel (nodeData : option (list NodeRow)) (m : Editor)
  : Editor :=
  mkEditor false
    match nodeData with
    | Some text => normalizeNodeData text
    | None => editedContent m
    end.

Definition onChange (text : jstring) (m : Editor) : Editor :=
  mkEditor (editing m) text.

Inductive ui_event : Type :=
  | ClickEdit
  | Typing (text : jstring)
  | ClickCancel.

Definition ui_step (nodeData : option (list NodeRow)) (m : Editor)
  (e : ui_event) : Editor :=
  match e with
  | ClickEdit => handleEdit m
  | Typing text => if editing m then onChange text m else m
  | ClickCancel => handleCancel nodeData m
  end.

(** The text on display (lines 179-199): the text area while editing, the
    normalised rows otherwise. *)
Definition shown (nodeData : option (list NodeRow)) (m : Editor) : jstring :=
  if editing m then editedContent m
  else normalizeNodeData (default [] nodeData).

(* ===================================================================== *)
(** * updateJsonAtPath on a store of shared containers *)
(* ===================================================================== *)

(** Arrays and Objects are mutable and have identity. Here a value is a
    primitive or a reference to a cell of the store; the spread copies
    references, and an assignment overwrites one cell. A new cell is
    allocated at the end of the store. *)
Module Store.

Abbreviation loc := nat.

Inductive val : Type :=
  | VUndef
  | VNull
  | VBool (b : bool)
  | VNum (n : Number)
  | VStr (s : jstring)
  | VRef (l : loc).

Inductive cell : Type :=
  | CArr (elems : list val)
  | CObj (props : list (jstring * val)).

Abbreviation heap := (list cell).

Definition alloc (c : cell) (h : heap) : loc * heap := (length h, h ++ [c]).

(** [Array.isArray(v)], with the elements. *)
Definition as_array (h : heap) (v : val) : option (list val) :=
  match v with
  | VRef l => match h !! l with
              | Some (CArr elems) => Some elems
              | _ => None
              end
  | _ => None
  end.

(** The own properties [{ ...v }] copies. *)
Definition spread (h : heap) (v : val) : list (jstring * val) :=
  match v with
  | VRef l => match h !! l with
              | Some (CObj props) => props
              | _ => []
              end
  | VStr s => imap (fun i c => (digits_of (Z.of_nat i), VStr [c])) s
  | _ => []
  end.

(** [result[index]] and [result[key]] on the cell at [l]. *)
Definition read_elem (l : loc) (index : nat) (h : heap) : val :=
  match h !! l with
  | Some (CArr elems) => default VUndef (elems !! index)
  | _ => VUndef
  end.

Definition read_prop (l : loc) (k : jstring) (h : heap) : val :=
  match h !! l with
  | Some (CObj props) => default VUndef (prop_get k props)
  | _ => VUndef
  end.

(** [result[index] = x] and [result[key] = x]: the cell at [l] is
    overwritten in place. *)
Definition write_elem (l : loc) (index : nat) (x : val) (h : heap) : heap :=
  match h !! l with
  | Some (CArr elems) => <[l := CArr (<[index := x]> elems)]> h
  | _ => h
  end.

Definition write_prop (l : loc) (k : jstring) (x : val) (h : heap) : heap :=
  match h !! l with
  | Some (CObj props) => <[l := CObj (prop_set k x props)]> h
  | _ => h
  end.

(** [updateJsonAtPath], statement by statement, threading the store. *)
Fixpoint updateJsonAtPath (json : val) (path : list Segment) (newValue : val)
  (h : heap) : val * heap :=
  match path with
  | [] => (newValue, h)
  | first :: rest =>
      match as_array h json with
      | Some elems =>
          let (result, h1) := alloc (CArr elems) h in
          match guarded_index first (length elems) with
          | Some index =>
              match rest with
              | [] => (VRef result, write_elem result index newValue h1)
              | _ =>
                  let (child, h2) :=
                    updateJsonAtPath (read_elem result index h1) rest
                      newValue h1 in
                  (VRef result, write_elem result index child h2)
              end
          | None => (VRef result, h1)
          end
      | None =>
          let (result, h1) := alloc (CObj (spread h json)) h in
          match rest with
          | [] =>
              (VRef result, write_prop result (prop_key first) newValue h1)
          | _ =>
              let (child, h2) :=
                updateJsonAtPath (read_prop result (prop_key first) h1) rest
                  newValue h1 in
              (VRef result, write_prop result (prop_key first) child h2)
          end
      end
  end.

(** The value found from [v] along [Q]: a primitive, or the reference of
    the container there. *)
Fixpoint lookup_path (h : heap) (v : val) (Q : list Segment) : option val :=
  match Q with
  | [] => Some v
  | q :: Q' =>
      match v with
      | VRef l =>
          match h !! l with
          | Some (CArr elems) =>
              match array_index (prop_key q) with
              | Some i =>
                  match elems !! Z.to_nat i with
                  | Some child => lookup_path h child Q'
                  | None => None
                  end
              | None => None
              end
          | Some (CObj props) =>
              match prop_get (prop_key q) props with
              | Some child => lookup_path h child Q'
              | None => None
              end
          | None => None
          end
      | _ => None
      end
  end.

(** [Q] leaves the chain from the root to the target of [P]: after a common
    part the two paths name different properties. *)
Fixpoint off_chain (P Q : list Segment) : Prop :=
  match P, Q with
  | p :: P', q :: Q' =>
      if decide (prop_key p = prop_key q) then off_chain P' Q' else True
  | _, _ => False
  end.

(** The JSON value a store value stands for. *)
Fixpoint repr (h : heap) (J : Json) (v : val) {struct J} : Prop :=
  match J with
  | JNull => v = VNull
  | JBool b => v = VBool b
  | JNum n => v = VNum n
  | JStr s => v = VStr s
  | JArr elems =>
      exists l vs, v = VRef l /\ h !! l = Some (CArr vs) /\
        (fix all (js : list Json) (vs : list val) {struct js} : Prop :=
           match js, vs with
           | [], [] => True
           | j :: js', x :: vs' => repr h j x /\ all js' vs'
           | _, _ => False
           end) elems vs
  | JObj props =>
      exists l ps, v = VRef l /\ h !! l = Some (CObj ps) /\
        (fix all (js : list (jstring * Json)) (ps : list (jstring * val))
           {struct js} : Prop :=
           match js, ps with
           | [], [] => True
           | (k, j) :: js', (k', x) :: ps' =>
               k = k' /\ repr h j x /\ all js' ps'
           | _, _ => False
           end) props ps
  end.

End Store.

(* ===================================================================== *)
(** * Vocabulary of the statements *)
(* ===================================================================== *)

(** ** Paths and documents *)

(** One bracketed group per segment, in path order. *)
Definition bracket (seg : Segment) : jstring :=
  js "[" ++ segment_text seg ++ js "]".

Definition brackets (p : list Segment) : jstring := concat (map bracket p).

(** The documents of the scenarios: [{"a": [1, 2]}] and
    [{"items": [1, 2, 3]}]. *)
Definition doc_a12 : Json :=
  JObj [(js "a", JArr [JNum (num_of_Z 1); JNum (num_of_Z 2)])].

Definition doc_items : Json :=
  JObj [(js "items", JArr [JNum (num_of_Z 1); JNum (num_of_Z 2); JNum (num_of_Z 3)])].

(** ** Rows *)

(** A row that the [forEach] callback folds into the object. *)
Definition kept (row : NodeRow) : bool :=
  negb (is_container (type row)) && key_truthy (key row).

(** The value of the last kept row whose key is [k]. *)
Definition last_value (k : jstring) (nodeRows : list NodeRow) (init : option Json)
  : option Json :=
  fold_left
    (fun acc row =>
       if kept row && (if decide (key row = Some k) then true else false)
       then Some (json_of_prim (value row)) else acc)
    nodeRows init.

(** The row with an empty-string key turned into a row without key. *)
Definition absent_if_empty (row : NodeRow) : NodeRow :=
  match key row with
  | Some [] => mkRow None (value row) (type row)
  | _ => row
  end.

(** The rows of the document [{"__proto__": "x", "a": 1}]. *)
Definition rows_proto : list NodeRow :=
  [mkRow (Some (js "__proto__")) (PStr (js "x")) TString;
   mkRow (Some (js "a")) (PNum (num_of_Z 1)) TNumber].

(** The keys of the kept rows in the order of their first occurrence. *)
Definition add_key (ks : list jstring) (row : NodeRow) : list jstring :=
  match key row with
  | Some k =>
      if kept row && negb (if decide (k ∈ ks) then true else false)
      then ks ++ [k] else ks
  | None => ks
  end.

Definition first_keys (nodeRows : list NodeRow) : list jstring :=
  fold_left add_key nodeRows [].

(** No kept row has the key [__proto__] or an array index as key. *)
Definition plain_keys (nodeRows : list NodeRow) : Prop :=
  forall row k,
    row ∈ nodeRows -> kept row = true -> key row = Some k ->
    k <> proto_key /\ array_index k = None.

(** ** Edited text *)

(** The trimmed text starts and ends with a double quote. *)
Definition quoted (trimmed : jstring) : bool :=
  startsWith trimmed dquote && endsWith trimmed dquote.

(** The trimmed text is one of the three literals the ladder tests. *)
Definition is_literal (trimmed : jstring) : bool :=
  jstring_eqb trimmed (js "null") || jstring_eqb trimmed (js "true")
  || jstring_eqb trimmed (js "false").

(** A no-break space, which [trim] strips and JSON does not accept. *)
Definition nbsp : jstring := [160].

(** ** Stores *)

(** A store with the document [{"items": [1, 2, 3], "other": {}}] at
    location 1. *)
Definition store_items : list Store.cell :=
  [Store.CArr [Store.VNum (num_of_Z 1); Store.VNum (num_of_Z 2);
               Store.VNum (num_of_Z 3)];
   Store.CObj [(js "items", Store.VRef 0); (js "other", Store.VRef 2)];
   Store.CObj []].

(** Induction on JSON values, with the elements of an Array and the values
    of an Object as premises. *)
Section JsonInduction.
Variable P : Json -> Prop.
Hypothesis HNull : P JNull.
Hypothesis HBool : forall b, P (JBool b).
Hypothesis HNum : forall n, P (JNum n).
Hypothesis HStr : forall s, P (JStr s).
Hypothesis HArr : forall elems, Forall P elems -> P (JArr elems).
Hypothesis HObj : forall props, Forall (fun p => P (snd p)) props -> P (JObj props).

Fixpoint Json_nested_ind (j : Json) : P j :=
  match j with
  | JNull => HNull
  | JBool b => HBool b
  | JNum n => HNum n
  | JStr s => HStr s
  | JArr elems =>
      HArr elems
        ((fix go (l : list Json) : Forall P l :=
            match l with
            | [] => @List.Forall_nil _ P
            | e :: l' => @List.Forall_cons _ P e l' (Json_nested_ind e) (go l')
            end) elems)
  | JObj props =>
      HObj props
        ((fix go (l : list (jstring * Json)) : Forall (fun p => P (snd p)) l :=
            match l with
            | [] => @List.Forall_nil _ _
            | p :: l' =>
                @List.Forall_cons _ (fun p => P (snd p)) p l'
                  (Json_nested_ind (snd p)) (go l')
            end) props)
  end.
End JsonInduction.

(** Two property lists with the same keys in the same order and related
    values. *)
Definition aligned {A B : Type} (S : A -> B -> Prop)
  : list (jstring * A) -> list (jstring * B) -> Prop :=
  Forall2 (fun p q => fst p = fst q /\ S (snd p) (snd q)).

(** [undefined] stands for no JSON value. *)
Definition repr_opt (h : list Store.cell) (oJ : option Json) (v : Store.val)
  : Prop :=
  match oJ with
  | Some J => Store.repr h J v
  | None => v = Store.VUndef
  end.

(** What [Store.updateJsonAtPath] returns in a store [h]: the new value for
    the empty path, the reference of the fresh copy otherwise. *)
Definition update_result (path : list Segment) (v : Store.val)
  (h : list Store.cell) : Store.val :=
  match path with
  | [] => v
  | _ :: _ => Store.VRef (length h)
  end.

(** The document [{"a": [1, 2], "b": {"c": true}}]. *)
Definition doc_ab : Json :=
  JObj [(js "a", JArr [JNum (num_of_Z 1); JNum (num_of_Z 2)]);
        (js "b", JObj [(js "c", JBool true)])].

(** A value that is neither an Array nor an Object. *)
Definition is_primitive (v : Json) : bool :=
  match v with
  | JArr _ | JObj _ => false
  | _ => true
  end.

(** The document of [store_items]. *)
Definition doc_items_other : Json :=
  JObj [(js "items", JArr [JNum (num_of_Z 1); JNum (num_of_Z 2);
                            JNum (num_of_Z 3)]);
        (js "other", JObj [])].

(** Every element is a UTF-16 code unit. *)
Definition code_units (s : jstring) : Prop :=
  Forall (fun c => 0 <= c < 65536) s.

(** What may follow a value in printed JSON: nothing, a line feed or a
    comma. *)
Definition tail_ok (rest : jstring) : Prop :=
  match rest with
  | [] => True
  | c :: _ => c = 10 \/ c = 44
  end.

(** A Number that prints as a JSON number which reads back as the same
    Number. (Of the finite Numbers only the negative zero does not.) *)
Definition num_ok (n : Number) : Prop :=
  parse_json_number (Number_toString n) = Some (n, []) /\ isFinite n = true.

(** The order of own property keys: array indices first, ascending, then
    the other keys, each once. *)
Definition key_before (k1 k2 : jstring) : Prop :=
  match array_index k1, array_index k2 with
  | Some i, Some j => i < j
  | Some _, None => True
  | None, Some _ => False
  | None, None => k1 <> k2
  end.

Definition own_order {A : Type} (o : list (jstring * A)) : Prop :=
  StronglySorted key_before (map fst o).

(** A JSON value as [JSON.parse] builds them: code units in strings and
    keys, keys in the order of own property keys, Numbers that print back. *)
Fixpoint wf_json (v : Json) : Prop :=
  match v with
  | JNull | JBool _ => True
  | JNum n => num_ok n
  | JStr s => code_units s
  | JArr elems =>
      (fix all (l : list Json) : Prop :=
         match l with
         | [] => True
         | e :: l' => wf_json e /\ all l'
         end) elems
  | JObj props =>
      own_order props
      /\ (fix all (l : list (jstring * Json)) : Prop :=
            match l with
            | [] => True
            | p :: l' => (code_units (fst p) /\ wf_json (snd p)) /\ all l'
            end) props
  end.

(** For every amount of fuel from some amount on, the printed value, with
    [rest] behind it, parses to the value and leaves [rest]. *)
Definition parses_back (indent : jstring) (v : Json) : Prop :=
  forall rest,
    tail_ok rest ->
    exists f0, forall f,
        (f0 <= f)%nat ->
        parse_value f (serialize indent v ++ rest) = Some (v, rest).

(** A path segment whose string is made of code units, as every JS string
    is. *)
Definition seg_ok (seg : Segment) : Prop :=
  match seg with
  | SIdx _ => True
  | SKey k => code_units k
  end.

(** [undefined] or a well-formed value. *)
Definition wf_opt (json : option Json) : Prop :=
  match json with
  | Some v => wf_json v
  | None => True
  end.

(** A row as the graph builds them from a parsed document: a key made of
    code units and a value that prints back. *)
Definition row_ok (r : NodeRow) : Prop :=
  match key r with
  | Some k => code_units k
  | None => True
  end
  /\ wf_json (json_of_prim (value r)).

(** The store holding the printed [doc_ab], the modal in editing mode. *)
Definition st_ab : AppState :=
  mkState (JSON_stringify2 doc_ab) (JSON_stringify2 doc_ab) false [] true.

(** The rows of a node with a scalar field and a nested one. *)
Definition rows_a_b : list NodeRow :=
  [mkRow (Some (js "a")) (PNum (num_of_Z 1)) TNumber;
   mkRow (Some (js "b")) PNull TObject].

(** A segment whose string holds no double quote. *)
Definition plain_seg (seg : Segment) : Prop :=
  match seg with
  | SIdx _ => True
  | SKey k => 34 ∉ k
  end.

(** ** Number segments as the code receives them *)

(** A path segment of the code is a Number or a string. [SIdx i] stands for
    the Number [i]; [raw] gives the segment it stands for. *)
Inductive RawSegment : Type :=
  | RNum (x : Number)
  | RStr (k : jstring).



(** [jsonPathToString] on raw segments: [join] prints a Number by
    Number::toString. *)
Module Raw.
Definition segment_text (seg : RawSegment) : jstring :=
  match seg with
  | RNum x => Number_toString x
  | RStr k => dquote ++ k ++ dquote
  end.

Definition jsonPathToString (path : option (list RawSegment)) : jstring :=
  match path with
  | None | Some [] => js "$"
  | Some p =>
      let segments := map segment_text p in
      js "$[" ++ join (js "][") segments ++ js "]"
  end.
End Raw.

(* ===================================================================== *)
(** * Properties of own-property lists *)
(* ===================================================================== *)

Lemma jstring_eqb_true (a b : jstring) : jstring_eqb a b = true <-> a = b.
Proof. unfold jstring_eqb. destruct (decide (a = b)); split; congruence. Qed.

Lemma jstring_eqb_false (a b : jstring) : jstring_eqb a b = false <-> a <> b.
Proof. unfold jstring_eqb. destruct (decide (a = b)); split; congruence. Qed.

Lemma jstring_eqb_refl (a : jstring) : jstring_eqb a a = true.
Proof. by apply jstring_eqb_true. Qed.

Section PropertyLemmas.
Context {A : Type}.
Implicit Types (o : list (jstring * A)) (k : jstring) (v : A).

Lemma prop_replace_id k v o : prop_get k o = Some v -> prop_replace k v o = o.
Proof.
  induction o as [|[k' v'] o IH]; simpl; [done|].
  destruct (jstring_eqb k' k); [by intros [= ->]|].
  intros H. by rewrite IH.
Qed.

Lemma prop_set_id k v o : prop_get k o = Some v -> prop_set k v o = o.
Proof.
  intros H. unfold prop_set, prop_has. rewrite H. by apply prop_replace_id.
Qed.

Lemma prop_get_replace_eq k v o :
  prop_has k o = true -> prop_get k (prop_replace k v o) = Some v.
Proof.
  unfold prop_has. induction o as [|[k' v'] o IH]; simpl; [done|].
  destruct (jstring_eqb k' k) eqn:E; simpl; rewrite E; auto.
Qed.

Lemma prop_get_replace_ne k k2 v o :
  k <> k2 -> prop_get k2 (prop_replace k v o) = prop_get k2 o.
Proof.
  intros Hne. induction o as [|[k' v'] o IH]; simpl; [done|].
  destruct (jstring_eqb k' k) eqn:E; simpl.
  - apply jstring_eqb_true in E as ->.
    apply jstring_eqb_false in Hne. by rewrite Hne.
  - destruct (jstring_eqb k' k2); auto.
Qed.

Lemma prop_get_insert_index_eq i k v o :
  prop_get k (prop_insert_index i k v o) = Some v \/
  prop_has k o = true.
Proof.
  unfold prop_has.
  induction o as [|[k' v'] o IH]; simpl.
  - rewrite jstring_eqb_refl. by left.
  - destruct (array_index k') as [j|]; [destruct (j <? i)|];
      simpl; rewrite ?jstring_eqb_refl; auto.
    destruct (jstring_eqb k' k); auto.
Qed.

Lemma prop_get_insert_index_ne i k k2 v o :
  k <> k2 -> prop_get k2 (prop_insert_index i k v o) = prop_get k2 o.
Proof.
  intros Hne. apply jstring_eqb_false in Hne.
  induction o as [|[k' v'] o IH]; simpl.
  - by rewrite Hne.
  - destruct (array_index k') as [j|]; [destruct (j <? i)|];
      simpl; rewrite ?Hne; auto.
    by rewrite IH.
Qed.

Lemma prop_get_app k o o' :
  prop_get k (o ++ o') =
  match prop_get k o with Some v => Some v | None => prop_get k o' end.
Proof.
  induction o as [|[k' v'] o IH]; simpl; [done|].
  by destruct (jstring_eqb k' k).
Qed.

Lemma prop_get_add_eq k v o :
  prop_has k o = false -> prop_get k (prop_add k v o) = Some v.
Proof.
  unfold prop_add. intros H.
  destruct (array_index k) as [i|].
  - destruct (prop_get_insert_index_eq i k v o); [done|congruence].
  - rewrite prop_get_app. unfold prop_has in H.
    destruct (prop_get k o); [done|]. simpl. by rewrite jstring_eqb_refl.
Qed.

Lemma prop_get_add_ne k k2 v o :
  k <> k2 -> prop_get k2 (prop_add k v o) = prop_get k2 o.
Proof.
  unfold prop_add. intros H.
  destruct (array_index k) as [i|].
  - by apply prop_get_insert_index_ne.
  - rewrite prop_get_app. destruct (prop_get k2 o); [done|]. simpl.
    apply jstring_eqb_false in H. by rewrite H.
Qed.

(** Reading back what an assignment wrote: the value, unless the key is
    [__proto__] and no own property has that name. *)
Lemma prop_get_set_eq k v o :
  k <> proto_key \/ prop_has k o = true ->
  prop_get k (prop_set k v o) = Some v.
Proof.
  unfold prop_set. intros H.
  destruct (prop_has k o) eqn:E.
  - by apply prop_get_replace_eq.
  - destruct H as [H|H]; [|done].
    apply jstring_eqb_false in H. rewrite H. by apply prop_get_add_eq.
Qed.

Lemma prop_get_set_proto v o :
  prop_has proto_key o = false -> prop_set proto_key v o = o.
Proof.
  unfold prop_set. intros ->. by rewrite jstring_eqb_refl.
Qed.

Lemma prop_get_set_ne k k2 v o :
  k <> k2 -> prop_get k2 (prop_set k v o) = prop_get k2 o.
Proof.
  unfold prop_set. intros H.
  destruct (prop_has k o).
  - by apply prop_get_replace_ne.
  - destruct (jstring_eqb k proto_key); [done|]. by apply prop_get_add_ne.
Qed.
End PropertyLemmas.

(* ===================================================================== *)
(** * updateJsonAtPath: equations *)
(* ===================================================================== *)

Lemma update_nil json newValue : updateJsonAtPath json [] newValue = newValue.
Proof. by destruct json. Qed.

(** On an Array the two cases of [rest] read alike. *)
Lemma update_cons_array elems first rest newValue :
  updateJsonAtPath (Some (JArr elems)) (first :: rest) newValue =
  match guarded_index first (length elems) with
  | Some index =>
      JArr (<[index := updateJsonAtPath (elems !! index) rest newValue]> elems)
  | None => JArr elems
  end.
Proof.
  simpl. destruct (guarded_index first (length elems)); [|done].
  by destruct rest.
Qed.

Lemma update_cons_object json first rest newValue :
  is_array json = false ->
  updateJsonAtPath json (first :: rest) newValue =
  JObj (prop_set (prop_key first)
          (updateJsonAtPath (prop_get (prop_key first) (spread json)) rest
             newValue)
          (spread json)).
Proof.
  intros H. destruct json as [[]|]; try discriminate H; by destruct rest.
Qed.

Lemma guarded_index_in_range (i : Z) (len : nat) :
  0 <= i < Z.of_nat len -> guarded_index (SIdx i) len = Some (Z.to_nat i).
Proof.
  intros [H0 H1]. unfold guarded_index, guard.
  apply Z.leb_le in H0. apply Z.ltb_lt in H1. by rewrite H0, H1.
Qed.


Lemma guarded_index_guard (first : Segment) (len : nat) :
  guard first len = false -> guarded_index first len = None.
Proof. intros H. unfold guarded_index. by rewrite H. Qed.

Lemma digits_value_nonneg (d : jstring) (acc : Z) :
  forallb is_digit d = true -> 0 <= acc ->
  0 <= fold_left (fun a c => a * 10 + (c - 48)) d acc.
Proof.
  revert acc. induction d as [|c d IH]; simpl; intros acc H Hacc; [done|].
  apply andb_true_iff in H as [Hc Hd]. apply IH; [done|].
  unfold is_digit in Hc. lia.
Qed.

Lemma array_index_nonneg (k : jstring) (i : Z) :
  array_index k = Some i -> 0 <= i.
Proof.
  unfold array_index. destruct k as [|c r]; [done|].
  destruct (forallb is_digit (c :: r)) eqn:E; [|done].
  destruct (_ && _); [|done]. intros [= <-].
  by apply digits_value_nonneg.
Qed.

(** ** The guard on a string that is an array index *)

Lemma is_digit_not_space (c : Z) : is_digit c = true -> is_js_space c = false.
Proof. unfold is_digit, is_js_space. lia. Qed.

Lemma trimStart_digits (s : jstring) :
  forallb is_digit s = true -> trimStart s = s.
Proof.
  destruct s as [|c s]; [done|]. simpl. intros [Hc _]%andb_true_iff.
  by rewrite (is_digit_not_space _ Hc).
Qed.

Lemma trim_digits (s : jstring) : forallb is_digit s = true -> trim s = s.
Proof.
  intros H. unfold trim. rewrite (trimStart_digits s H).
  rewrite trimStart_digits; [apply rev_involutive|].
  apply forallb_forall. intros c Hc%in_rev.
  rewrite forallb_forall in H. by apply H.
Qed.

Lemma radix_prefix_digits (s : jstring) :
  forallb is_digit s = true -> radix_prefix s = None.
Proof.
  destruct s as [|c0 [|x r]]; [done..|]. simpl.
  intros [_ [Hx _]%andb_true_iff]%andb_true_iff.
  destruct (c0 =? 48); [|done].
  assert (E : (x =? 120) || (x =? 88) = false
              /\ (x =? 111) || (x =? 79) = false
              /\ (x =? 98) || (x =? 66) = false)
    by (unfold is_digit in Hx; lia).
  destruct E as (-> & -> & ->). done.
Qed.

Lemma take_sign_digit (c : Z) (s : jstring) :
  is_digit c = true -> take_sign (c :: s) = (false, c :: s).
Proof.
  intros H. unfold take_sign.
  assert (E : (c =? 45) = false /\ (c =? 43) = false)
    by (unfold is_digit in H; lia).
  destruct E as [-> ->]. done.
Qed.

Lemma span_digits_all (s : jstring) :
  forallb is_digit s = true -> span_digits s = (s, []).
Proof.
  induction s as [|c s IH]; [done|]. simpl.
  intros [Hc Hs]%andb_true_iff. by rewrite Hc, (IH Hs).
Qed.

(** The numeric value of a string of decimal digits. *)
Lemma StringToNumber_digits (s : jstring) :
  s <> [] -> forallb is_digit s = true ->
  StringToNumber s = round64 false (digits_value s) 1.
Proof.
  intros Hne Hd. unfold StringToNumber. rewrite (trim_digits s Hd).
  destruct s as [|c r] eqn:Es; [done|]. rewrite <- Es in *.
  rewrite (radix_prefix_digits s Hd).
  assert (Hc : is_digit c = true).
  { rewrite Es in Hd. simpl in Hd. by apply andb_true_iff in Hd as [? _]. }
  rewrite Es at 1. rewrite (take_sign_digit c r Hc). rewrite <- Es.
  assert (jstring_eqb s (js "Infinity") = false) as ->.
  { apply jstring_eqb_false. intros E. rewrite E in Hd. discriminate Hd. }
  unfold parse_unsigned_decimal. rewrite (span_digits_all s Hd).
  rewrite Es at 1. cbn [parse_exponent length]. rewrite app_nil_r.
  unfold num_of_decimal. change (0 - Z.of_nat 0 <? 0) with false. cbv iota.
  change (0 - Z.of_nat 0) with 0. by rewrite Z.pow_0_r, Z.mul_1_r.
Qed.

(** An integer below [2^53] is a Number. *)
Lemma round64_small (neg : bool) (p : Z) :
  0 < p < 2 ^ 53 ->
  round64 neg p 1 = Fin neg (p * 2 ^ (52 - Z.log2 p)) (Z.log2 p - 52).
Proof.
  intros [Hp0 Hp1].
  destruct (Z.log2_spec p Hp0) as [Hlo Hhi].
  pose proof (Z.log2_nonneg p) as Hl0.
  assert (Hl : Z.log2 p < 53).
  { apply Z.log2_lt_pow2; done. }
  set (l := Z.log2 p) in *.
  assert (Hm : 2 ^ 52 <= p * 2 ^ (52 - l) < 2 ^ 53).
  { assert (E52 : 2 ^ 52 = 2 ^ l * 2 ^ (52 - l)).
    { rewrite <- Z.pow_add_r by lia. f_equal. lia. }
    assert (E53 : 2 ^ 53 = 2 ^ Z.succ l * 2 ^ (52 - l)).
    { rewrite <- Z.pow_add_r by lia. f_equal. lia. }
    assert (0 < 2 ^ (52 - l)) by (apply Z.pow_pos_nonneg; lia).
    rewrite E52, E53. split; [apply Z.mul_le_mono_nonneg_r; lia|].
    apply Z.mul_lt_mono_pos_r; lia. }
  unfold round64. replace (p =? 0) with false by lia.
  change (Z.log2 1) with 0. fold l.
  replace (l - 0 - 52) with (l - 52) by lia.
  destruct (Z.eq_dec l 52) as [E|E].
  - rewrite E in *. change (52 - 52) with 0 in *.
    rewrite Z.pow_0_r, Z.mul_1_r in *.
    change (0 <? 0) with false. cbv iota.
    change (52 + 0) with 52. rewrite Z.mul_1_l.
    replace (p <? 2 ^ 52) with false by lia.
    change (Z.max 0 (-1074)) with 0. change (0 <? 0) with false. cbv iota.
    rewrite Z.pow_0_r. change (1 * 1) with 1.
    rewrite Z.div_1_r, Z.mod_1_r.
    change (1 <? 2 * 0) with false. change (1 =? 2 * 0) with false.
    cbn [orb andb]. replace (p =? 2 ^ 53) with false by lia.
    change (971 <? 0) with false. by rewrite Z.mul_1_r.
  - replace (l - 52 <? 0) with true by lia. cbv iota.
    replace (- (l - 52)) with (52 - l) by lia. rewrite Z.mul_1_l.
    replace (p * 2 ^ (52 - l) <? 2 ^ 52) with false by lia.
    replace (Z.max (l - 52) (-1074)) with (l - 52) by lia.
    replace (l - 52 <? 0) with true by lia. cbv iota.
    replace (- (l - 52)) with (52 - l) by lia.
    rewrite Z.div_1_r, Z.mod_1_r.
    change (1 <? 2 * 0) with false. change (1 =? 2 * 0) with false.
    cbn [orb andb]. replace (p * 2 ^ (52 - l) =? 2 ^ 53) with false by lia.
    replace (971 <? l - 52) with false by lia. done.
Qed.

Lemma array_index_inv (k : jstring) (i : Z) :
  array_index k = Some i ->
  k <> [] /\ forallb is_digit k = true /\ digits_value k = i
  /\ 0 <= i < 2 ^ 32 - 1.
Proof.
  intros H. pose proof (array_index_nonneg _ _ H) as H0.
  unfold array_index in H. destruct k as [|c r]; [done|].
  destruct (forallb is_digit (c :: r)) eqn:Hd; [|done].
  destruct (negb (c =? 48) || (length r =? 0)%nat); [|done].
  simpl in H. destruct (_ <? _) eqn:E; [|done].
  apply Z.ltb_lt in E. injection H as <-. done.
Qed.

(** On an array index the guard is the comparison of the index with the
    length. *)
Lemma guard_array_index (k : jstring) (i : Z) (len : nat) :
  array_index k = Some i -> guard (SKey k) len = (i <? Z.of_nat len).
Proof.
  intros (Hne & Hd & Hv & H0 & H1)%array_index_inv.
  unfold guard. rewrite (StringToNumber_digits k Hne Hd), Hv.
  destruct (Z.eq_dec i 0) as [->|Hi].
  - change (round64 false 0 1) with (Fin false 0 (-1074)).
    cbn [Number_ge_zero Number_lt_length negb orb andb].
    change (-1074 <? 0) with true. cbv iota.
    assert (0 < 2 ^ (- -1074)) by (apply Z.pow_pos_nonneg; lia).
    destruct (Z.ltb_spec 0 (Z.of_nat len)), (Z.ltb_spec 0 (Z.of_nat len * 2 ^ (- -1074)));
      try done; nia.
  - rewrite round64_small by lia.
    cbn [Number_ge_zero Number_lt_length negb orb andb].
    assert (Hl : Z.log2 i < 32).
    { apply Z.log2_lt_pow2; lia. }
    replace (Z.log2 i - 52 <? 0) with true by lia.
    replace (- (Z.log2 i - 52)) with (52 - Z.log2 i) by lia.
    assert (0 < 2 ^ (52 - Z.log2 i)) by (apply Z.pow_pos_nonneg; lia).
    destruct (Z.ltb_spec i (Z.of_nat len)),
      (Z.ltb_spec (i * 2 ^ (52 - Z.log2 i))
         (Z.of_nat len * 2 ^ (52 - Z.log2 i))); try done; nia.
Qed.

(** Strings that pass the guard by their numeric value without being an
    array index: the write they cause reaches no element. *)
Example guard_passes_without_index :
  guard (SKey (js "01")) 2 = true /\ guarded_index (SKey (js "01")) 2 = None
  /\ guard (SKey (js "1.0")) 2 = true
  /\ guarded_index (SKey (js "1.0")) 2 = None
  /\ guard (SKey []) 2 = true /\ guarded_index (SKey []) 2 = None.
Proof. repeat split; vm_compute; reflexivity. Qed.

(** The guarded element, by cases: an integer in range, or a string that is
    an array index in range. *)
Lemma guarded_index_spec (first : Segment) (len : nat) :
  guarded_index first len =
  match first with
  | SIdx i =>
      if (0 <=? i) && (i <? Z.of_nat len) then Some (Z.to_nat i) else None
  | SKey k =>
      match array_index k with
      | Some i => if i <? Z.of_nat len then Some (Z.to_nat i) else None
      | None => None
      end
  end.
Proof.
  unfold guarded_index. destruct first as [i|k]; [done|].
  destruct (array_index k) as [i|] eqn:E.
  - by rewrite (guard_array_index k i len E).
  - by destruct (guard (SKey k) len).
Qed.

Lemma guarded_index_lt (first : Segment) (len index : nat) :
  guarded_index first len = Some index -> (index < len)%nat.
Proof.
  rewrite guarded_index_spec. destruct first as [i|k].
  - destruct (0 <=? i) eqn:H0; [|done]. destruct (i <? Z.of_nat len) eqn:H1; [|done].
    intros [= <-]. apply Z.leb_le in H0. apply Z.ltb_lt in H1. lia.
  - destruct (array_index k) as [i|] eqn:E; [|done].
    destruct (i <? Z.of_nat len) eqn:H1; [|done].
    intros [= <-]. apply Z.ltb_lt in H1.
    apply array_index_nonneg in E. lia.
Qed.

(** An update below a valid location is an update of the value there. *)
Lemma update_app (P1 P2 : list Segment) :
  forall (D X newValue : Json),
    get D P1 = Some X ->
    updateJsonAtPath (Some D) (P1 ++ P2) newValue =
    updateJsonAtPath (Some D) P1 (updateJsonAtPath (Some X) P2 newValue).
Proof.
  induction P1 as [|seg P1 IH]; intros D X newValue H.
  - simpl in H. injection H as ->. by rewrite update_nil.
  - rewrite <- app_comm_cons.
    destruct D, seg; simpl in H; try discriminate H.
    + destruct (0 <=? i) eqn:H0; [|discriminate H].
      destruct (elems !! Z.to_nat i) as [child|] eqn:L; [|discriminate H].
      rewrite !update_cons_array.
      apply Z.leb_le in H0. apply lookup_lt_Some in L as Hlt.
      rewrite guarded_index_in_range by lia.
      rewrite L. by rewrite (IH _ _ _ H).
    + destruct (prop_get k props) as [child|] eqn:L; [|discriminate H].
      rewrite !update_cons_object by done. simpl. rewrite L.
      by rewrite (IH _ _ _ H).
Qed.

Lemma update_get_id (P : list Segment) :
  forall (D v : Json), get D P = Some v -> updateJsonAtPath (Some D) P v = D.
Proof.
  induction P as [|seg P IH]; intros D v H.
  - simpl in H. by injection H as ->.
  - destruct D, seg; simpl in H; try discriminate H.
    + destruct (0 <=? i) eqn:H0; [|discriminate H].
      destruct (elems !! Z.to_nat i) as [child|] eqn:L; [|discriminate H].
      rewrite update_cons_array.
      apply Z.leb_le in H0. apply lookup_lt_Some in L as Hlt.
      rewrite guarded_index_in_range by lia.
      rewrite L, (IH _ _ H). by rewrite list_insert_id.
    + destruct (prop_get k props) as [child|] eqn:L; [|discriminate H].
      rewrite update_cons_object by done. simpl. rewrite L, (IH _ _ H).
      by rewrite prop_set_id.
Qed.

(** Updating a sequence gives a sequence of the same length. *)
Lemma update_array_length elems first rest newValue :
  exists elems',
    updateJsonAtPath (Some (JArr elems)) (first :: rest) newValue = JArr elems'
    /\ length elems' = length elems.
Proof.
  rewrite update_cons_array.
  destruct (guarded_index first (length elems)); eexists; split; try done.
  by rewrite length_insert.
Qed.


(** C1, as amended. When the container at the current level is a sequence
    and the first segment fails the bounds test of the code (an integer that
    is negative or not below the length, or a string whose numeric value is
    not in that range), nothing is written: the update returns the document
    unchanged. A sequence is never grown, whatever the segment. The
    function is total: no case raises an error. *)
Theorem update_missed_element_is_noop
  (D : Json) (P : list Segment) (elems : list Json)
  (first : Segment) (rest : list Segment) (newValue : Json) :
  get D P = Some (JArr elems) ->
  guard first (length elems) = false ->
  updateJsonAtPath (Some D) (P ++ first :: rest) newValue = D
  /\ (forall seg path v, exists elems',
        updateJsonAtPath (Some (JArr elems)) (seg :: path) v = JArr elems'
        /\ length elems' = length elems).
Proof.
  intros Hget Hmiss. split.
  - rewrite (update_app _ _ _ _ _ Hget).
    rewrite update_cons_array, (guarded_index_guard _ _ Hmiss).
    by apply update_get_id.
  - intros. apply update_array_length.
Qed.

Lemma update_missed_element_is_noop_witness :
  get doc_a12 [SKey (js "a")] = Some (JArr [JNum (num_of_Z 1); JNum (num_of_Z 2)])
  /\ guard (SIdx 5) 2 = false
  /\ guard (SKey (js "5")) 2 = false
  /\ guard (SKey (js "-1")) 2 = false
  /\ guard (SKey (js "x")) 2 = false
  /\ updateJsonAtPath (Some doc_a12) [SKey (js "a"); SIdx 5] (JNum (num_of_Z 7))
     = doc_a12.
Proof.
  split; [reflexivity|]. do 4 (split; [vm_compute; reflexivity|]).
  apply (update_missed_element_is_noop doc_a12 [SKey (js "a")]
           [JNum (num_of_Z 1); JNum (num_of_Z 2)] (SIdx 5) [] (JNum (num_of_Z 7))).
  - reflexivity.
  - reflexivity.
Defined.

(** C1 fails where a mapping or a scalar is found. An integer segment on a
    mapping adds a key; a scalar at the target is replaced by a new mapping;
    a scalar on the way down is replaced by a new intermediate mapping. *)
Lemma update_mismatch_changes_document :
  (updateJsonAtPath (Some (JObj [(js "a", JNum (num_of_Z 1))])) [SIdx 0]
     (JNum (num_of_Z 7))
   = JObj [(js "0", JNum (num_of_Z 7)); (js "a", JNum (num_of_Z 1))]
   /\ JObj [(js "0", JNum (num_of_Z 7)); (js "a", JNum (num_of_Z 1))]
      <> JObj [(js "a", JNum (num_of_Z 1))])
  /\ (updateJsonAtPath (Some (JNum (num_of_Z 5))) [SKey (js "a")]
        (JNum (num_of_Z 7))
      = JObj [(js "a", JNum (num_of_Z 7))]
      /\ JObj [(js "a", JNum (num_of_Z 7))] <> JNum (num_of_Z 5))
  /\ (updateJsonAtPath (Some (JObj [(js "a", JNum (num_of_Z 5))]))
        [SKey (js "a"); SKey (js "b")] (JNum (num_of_Z 7))
      = JObj [(js "a", JObj [(js "b", JNum (num_of_Z 7))])]
      /\ JObj [(js "a", JObj [(js "b", JNum (num_of_Z 7))])]
         <> JObj [(js "a", JNum (num_of_Z 5))]).
Proof.
  repeat split; try reflexivity; discriminate.
Qed.

(** C4. Writing back the value found at a valid location gives the document
    again; with the empty path the new value is returned itself. *)
Theorem update_round_trip (D : Json) (P : list Segment) (v : Json) :
  get D P = Some v ->
  updateJsonAtPath (Some D) P v = D
  /\ (forall V, updateJsonAtPath (Some D) [] V = V)
  /\ updateJsonAtPath (Some (JObj [(js "x", JNum (num_of_Z 1))])) []
       (JNum (num_of_Z 42)) = JNum (num_of_Z 42).
Proof.
  intros H. split; [by apply update_get_id|]. split; [|reflexivity].
  intros V. apply update_nil.
Qed.


Lemma update_round_trip_witness :
  get doc_items [SKey (js "items"); SIdx 1] = Some (JNum (num_of_Z 2))
  /\ updateJsonAtPath (Some doc_items) [SKey (js "items"); SIdx 1]
       (JNum (num_of_Z 2)) = doc_items.
Proof.
  split; [reflexivity|].
  apply (update_round_trip doc_items [SKey (js "items"); SIdx 1] (JNum (num_of_Z 2))).
  reflexivity.
Defined.

(* ===================================================================== *)
(** * jsonPathToString *)
(* ===================================================================== *)


Lemma join_brackets (seg : Segment) (p : list Segment) :
  js "[" ++ join (js "][") (map segment_text (seg :: p)) ++ js "]"
  = brackets (seg :: p).
Proof.
  revert seg. induction p as [|seg' p IH]; intros seg.
  - unfold brackets, bracket. simpl. by rewrite app_nil_r.
  - change (join (js "][") (map segment_text (seg :: seg' :: p)))
      with (segment_text seg ++ js "][" ++ join (js "][") (map segment_text (seg' :: p))).
    change (brackets (seg :: seg' :: p))
      with (bracket seg ++ brackets (seg' :: p)).
    rewrite <- IH. unfold bracket.
    change (js "][") with (js "]" ++ js "[").
    by rewrite <- !app_assoc.
Qed.

Lemma jsonPathToString_brackets (p : list Segment) :
  jsonPathToString (Some p) = js "$" ++ brackets p.
Proof.
  destruct p as [|seg p]; [done|].
  unfold jsonPathToString. rewrite <- join_brackets.
  change (js "$[") with (js "$" ++ js "["). by rewrite <- !app_assoc.
Qed.

Lemma brackets_app (p q : list Segment) :
  brackets (p ++ q) = brackets p ++ brackets q.
Proof. unfold brackets. by rewrite map_app, concat_app. Qed.

(** ** Decimal digits *)

Lemma digits_fuel_acc (fuel : nat) :
  forall n acc, digits_fuel fuel n acc = digits_fuel fuel n [] ++ acc.
Proof.
  induction fuel as [|fuel IH]; intros n acc; simpl; [done|].
  destruct (n <? 10); [done|].
  rewrite IH, (IH _ [_]). by rewrite <- app_assoc.
Qed.

Lemma digits_fuel_all_digits (fuel : nat) :
  forall n acc, 0 <= n -> forallb is_digit acc = true ->
    forallb is_digit (digits_fuel fuel n acc) = true.
Proof.
  induction fuel as [|fuel IH]; intros n acc Hn Hacc; simpl; [done|].
  assert (Hd : is_digit (48 + n mod 10) = true).
  { unfold is_digit. pose proof (Z.mod_pos_bound n 10). lia. }
  destruct (n <? 10); simpl; [by rewrite Hd|].
  apply IH; [apply Z.div_pos; lia|]. simpl. by rewrite Hd.
Qed.

Lemma digits_value_snoc (d : jstring) (c : Z) :
  digits_value (d ++ [c]) = digits_value d * 10 + (c - 48).
Proof. unfold digits_value. by rewrite fold_left_app. Qed.

Lemma digits_fuel_value (fuel : nat) :
  forall n, 0 <= n < 10 ^ Z.of_nat fuel ->
    digits_value (digits_fuel fuel n []) = n.
Proof.
  induction fuel as [|fuel IH]; intros n Hn.
  - simpl in *. assert (n = 0) as -> by lia. done.
  - simpl. destruct (n <? 10) eqn:E.
    + apply Z.ltb_lt in E. unfold digits_value. simpl.
      rewrite Z.mod_small by lia. lia.
    + apply Z.ltb_ge in E. rewrite digits_fuel_acc, digits_value_snoc.
      rewrite IH.
      * pose proof (Z.div_mod n 10). lia.
      * rewrite Nat2Z.inj_succ, Z.pow_succ_r in Hn by lia.
        split; [apply Z.div_pos; lia|].
        apply Z.div_lt_upper_bound; lia.
Qed.

Lemma digits_of_all_digits (n : Z) :
  0 <= n -> forallb is_digit (digits_of n) = true.
Proof. intros H. by apply digits_fuel_all_digits. Qed.

Lemma digits_of_value (n : Z) : 0 <= n -> digits_value (digits_of n) = n.
Proof.
  intros H. apply digits_fuel_value. split; [done|].
  rewrite Nat2Z.inj_succ, Z2Nat.id by apply Z.log2_nonneg.
  destruct (Z.eq_dec n 0) as [->|Hne]; [done|].
  assert (n < 2 ^ Z.succ (Z.log2 n)) by (apply Z.log2_spec; lia).
  assert (2 ^ Z.succ (Z.log2 n) <= 10 ^ Z.succ (Z.log2 n)).
  { apply Z.pow_le_mono_l. lia. }
  lia.
Qed.

(** C10. A string segment is rendered without any escaping: in the output
    its group is a bracket, a double quote, the segment verbatim, a double
    quote and a bracket, whatever characters the segment holds. *)
Theorem jsonPathToString_no_escaping (pre post : list Segment) (s : jstring) :
  segment_text (SKey s) = dquote ++ s ++ dquote
  /\ jsonPathToString (Some (pre ++ SKey s :: post))
     = js "$" ++ brackets pre
         ++ (js "[" ++ dquote ++ s ++ dquote ++ js "]") ++ brackets post
  /\ jsonPathToString (Some [SKey (jq "a'b]"); SIdx 1]) = jq "$['a'b]'][1]".
Proof.
  split; [done|]. split; [|reflexivity].
  rewrite jsonPathToString_brackets, brackets_app.
  change (brackets (SKey s :: post)) with (bracket (SKey s) ++ brackets post).
  unfold bracket, segment_text. by rewrite <- !app_assoc.
Qed.

(* ===================================================================== *)
(** * normalizeNodeData *)
(* ===================================================================== *)


Lemma add_row_kept (obj : RowObject) (row : NodeRow) :
  add_row obj row =
  match key row with
  | Some k => if kept row then assign k (json_of_prim (value row)) obj else obj
  | None => obj
  end.
Proof.
  unfold add_row, kept.
  destruct (is_container (type row)), (key row) as [[|c k]|]; done.
Qed.

Lemma normalize_empty : normalizeNodeData [] = js "{}".
Proof. done. Qed.



Lemma last_value_cons (k : jstring) (row : NodeRow) (rows : list NodeRow)
  (init : option Json) :
  last_value k (row :: rows) init
  = last_value k rows
      (if kept row && (if decide (key row = Some k) then true else false)
       then Some (json_of_prim (value row)) else init).
Proof. done. Qed.

Lemma prop_get_define_eq (k : jstring) (v : Json) (o : list (jstring * Json)) :
  prop_get k (prop_define k v o) = Some v.
Proof.
  unfold prop_define. destruct (prop_has k o) eqn:H.
  - by apply prop_get_replace_eq.
  - by apply prop_get_add_eq.
Qed.

Lemma prop_get_define_ne (k k2 : jstring) (v : Json) (o : list (jstring * Json)) :
  k2 <> k -> prop_get k2 (prop_define k v o) = prop_get k2 o.
Proof.
  intros H. unfold prop_define. destruct (prop_has k o).
  - apply prop_get_replace_ne. congruence.
  - apply prop_get_add_ne. congruence.
Qed.

(** What an assignment leaves under the assigned key, when the key is not
    [__proto__], and under every other key. *)
Lemma prop_get_assign_eq (k : jstring) (v : Json) (obj : RowObject) :
  k <> proto_key -> prop_get k (own (assign k v obj)) = Some v.
Proof.
  intros Hk. unfold assign. destruct (proto_null obj); simpl.
  - apply prop_get_define_eq.
  - apply prop_get_set_eq. by left.
Qed.

Lemma prop_get_assign_ne (k k2 : jstring) (v : Json) (obj : RowObject) :
  k2 <> k -> prop_get k2 (own (assign k v obj)) = prop_get k2 (own obj).
Proof.
  intros H. unfold assign. destruct (proto_null obj); simpl.
  - by apply prop_get_define_ne.
  - apply prop_get_set_ne. congruence.
Qed.

(** What the object built from the rows holds under a key other than
    [__proto__]: the value of the last kept row with that key. *)
Lemma fold_add_row_get (k : jstring) (nodeRows : list NodeRow) :
  k <> proto_key ->
  forall obj,
    prop_get k (own (fold_left add_row nodeRows obj))
    = last_value k nodeRows (prop_get k (own obj)).
Proof.
  intros Hk. induction nodeRows as [|row rows IH]; intros obj; [done|].
  rewrite last_value_cons.
  change (fold_left add_row (row :: rows) obj)
    with (fold_left add_row rows (add_row obj row)).
  rewrite IH. f_equal. rewrite add_row_kept.
  destruct (key row) as [k'|] eqn:Ek.
  - destruct (kept row); [|done]. simpl.
    destruct (decide (Some k' = Some k)) as [[= ->]|Hne].
    + by apply prop_get_assign_eq.
    + apply prop_get_assign_ne. congruence.
  - rewrite andb_false_r. done.
Qed.

Lemma rows_object_get (k : jstring) (nodeRows : list NodeRow) :
  k <> proto_key ->
  prop_get k (rows_object nodeRows) = last_value k nodeRows None.
Proof. intros H. unfold rows_object. by rewrite fold_add_row_get. Qed.

(** A property of the object built from the rows was there before or is
    the key and the value of a kept row; this holds of [__proto__] as well,
    which is a property only after a row has removed the prototype. *)
Lemma prop_get_assign_Some (k k' : jstring) (v v' : Json) (obj : RowObject) :
  prop_get k (own (assign k' v' obj)) = Some v ->
  prop_get k (own obj) = Some v \/ (k = k' /\ v = v').
Proof.
  destruct (decide (k = k')) as [->|Hne].
  2:{ rewrite prop_get_assign_ne by done. by left. }
  unfold assign. destruct (proto_null obj); simpl.
  - rewrite prop_get_define_eq. intros [= <-]. by right.
  - unfold prop_set. destruct (prop_has k' (own obj)) eqn:Hh.
    + rewrite prop_get_replace_eq by done. intros [= <-]. by right.
    + destruct (jstring_eqb k' proto_key); [by left|].
      rewrite prop_get_add_eq by done. intros [= <-]. by right.
Qed.

Lemma fold_add_row_from_row (k : jstring) (v : Json) (nodeRows : list NodeRow) :
  forall obj,
    prop_get k (own (fold_left add_row nodeRows obj)) = Some v ->
    prop_get k (own obj) = Some v
    \/ exists row, row ∈ nodeRows /\ kept row = true /\ key row = Some k
                   /\ v = json_of_prim (value row).
Proof.
  induction nodeRows as [|row rows IH]; intros obj H; [by left|].
  simpl in H. apply IH in H as [H|(r & Hr & H)].
  - rewrite add_row_kept in H. destruct (key row) as [k'|] eqn:Ek; [|by left].
    destruct (kept row) eqn:Hk; [|by left].
    apply prop_get_assign_Some in H as [H|[-> ->]]; [by left|].
    right. exists row. split; [by left|done].
  - right. exists r. split; [by right|done].
Qed.

Lemma last_value_empty_key (nodeRows : list NodeRow) :
  forall init, last_value [] nodeRows init = init.
Proof.
  induction nodeRows as [|row rows IH]; intros init; [done|].
  rewrite last_value_cons, IH.
  unfold kept. destruct (key row) as [[|c k]|]; simpl;
    rewrite ?andb_false_r; done.
Qed.

Lemma add_row_absent_if_empty (obj : RowObject) (row : NodeRow) :
  add_row obj (absent_if_empty row) = add_row obj row.
Proof.
  unfold absent_if_empty, add_row.
  destruct row as [[[|c k]|] v t]; simpl; by destruct (is_container t).
Qed.

Lemma rows_object_absent_if_empty (nodeRows : list NodeRow) :
  rows_object (map absent_if_empty nodeRows) = rows_object nodeRows.
Proof.
  unfold rows_object. f_equal. generalize (mkObject [] false).
  induction nodeRows as [|row rows IH]; intros obj; [done|].
  simpl. by rewrite add_row_absent_if_empty, IH.
Qed.

(** C7. The rows of a document with a field [__proto__] beside a field [a]:
    the first row has a key and is neither of type array nor object, yet it
    is missing from the mapping that is printed. *)
Theorem normalize_drops_proto_row :
  Forall (fun row => kept row = true) rows_proto
  /\ rows_object rows_proto = [(js "a", JNum (num_of_Z 1))]
  /\ normalizeNodeData rows_proto
     = js "{" ++ newline ++ jq "  'a': 1" ++ newline ++ js "}".
Proof.
  split; [|split]; [|reflexivity|reflexivity].
  repeat constructor.
Qed.

(** C9. A row whose key is the empty string is treated like a row without
    key. Alone it is rendered as the bare value: a string verbatim, without
    quotes, [null], [true] and [false] as these words, a Number as
    Number::toString prints it; so the value 5 under the empty key gives the
    text [5] and the string [hello] the text [hello]. Turning every empty
    key into an absent one changes no output; and the object that is
    printed never has the empty string as a key: a row with the empty key
    beside a row with the key [a] leaves only [a]. *)
Theorem normalize_empty_key_is_absent
  (nodeRows : list NodeRow) (v : Prim) (t : RowType) :
  normalizeNodeData [mkRow (Some []) v t] = template v
  /\ normalizeNodeData [mkRow (Some []) v t] = normalizeNodeData [mkRow None v t]
  /\ normalizeNodeData (map absent_if_empty nodeRows) = normalizeNodeData nodeRows
  /\ prop_get [] (rows_object nodeRows) = None
  /\ normalizeNodeData [mkRow (Some []) v t]
     = match v with
       | PNull => js "null"
       | PBool b => if b then js "true" else js "false"
       | PNum n => Number_toString n
       | PStr s => s
       end
  /\ normalizeNodeData [mkRow (Some []) (PNum (num_of_Z 5)) TNumber] = js "5"
  /\ normalizeNodeData [mkRow (Some []) (PStr (js "hello")) TString]
     = js "hello"
  /\ normalizeNodeData [mkRow (Some []) (PNum (num_of_Z 5)) TNumber;
                        mkRow (Some (js "a")) (PNum (num_of_Z 1)) TNumber]
     = js "{" ++ newline ++ jq "  'a': 1" ++ newline ++ js "}".
Proof.
  split; [done|]. split; [done|]. split; [|split].
  - destruct nodeRows as [|row rows]; [done|].
    unfold normalizeNodeData.
    change (map absent_if_empty (row :: rows))
      with (absent_if_empty row :: map absent_if_empty rows) at 1.
    cbv iota. rewrite rows_object_absent_if_empty.
    simpl length. rewrite length_map.
    by destruct row as [[[|c k]|] v' t'].
  - rewrite rows_object_get by discriminate. apply last_value_empty_key.
  - split; [by destruct v as [|[]| |]|].
    split; [vm_compute; reflexivity|].
    split; [vm_compute; reflexivity|vm_compute; reflexivity].
Qed.

(* ===================================================================== *)
(** * The value coercion *)
(* ===================================================================== *)


Lemma fallback_quoted (t : jstring) :
  quoted t = true ->
  fallback t = match JSON_parse t with Some v => Value v | None => Throws end.
Proof. unfold fallback, quoted. by intros ->. Qed.

Lemma fallback_bare (t : jstring) :
  quoted t = false -> is_literal t = false ->
  fallback t =
  if negb (isNaN (StringToNumber t)) && negb (jstring_eqb t [])
  then Value (JNum (StringToNumber t)) else Value (JStr t).
Proof.
  unfold fallback, quoted, is_literal. intros -> H.
  apply orb_false_iff in H as [H H3]. apply orb_false_iff in H as [H1 H2].
  by rewrite H1, H2, H3.
Qed.

(** Outside the quoted case the ladder ends with a value. *)
Lemma fallback_unquoted_value (t : jstring) :
  quoted t = false -> exists v, fallback t = Value v.
Proof.
  unfold fallback, quoted. intros ->.
  repeat (match goal with |- context [if ?b then _ else _] => destruct b end;
          eauto).
Qed.

Lemma coerce_parsed (text : jstring) (v : Json) :
  JSON_parse text = Some v -> coerce text = Value v.
Proof. unfold coerce. by intros ->. Qed.

Lemma coerce_unparsed (text : jstring) :
  JSON_parse text = None -> coerce text = fallback (trim text).
Proof. unfold coerce. by intros ->. Qed.

(** C2 fails on a lone double quote: neither [JSON.parse] call accepts it,
    and the second one is not guarded. *)
Lemma coerce_lone_quote_throws :
  JSON_parse dquote = None /\ trim dquote = dquote /\ quoted dquote = true
  /\ coerce dquote = Throws.
Proof. repeat split; reflexivity. Qed.

(** C2, as amended. The coercion ends with a value for every text but one
    kind: the full parse fails and the trimmed text starts and ends with a
    double quote without being valid JSON; then the error of the second
    parse is raised. When no earlier interpretation applies, the result is
    the trimmed text itself, as a String. *)
Theorem coerce_throws_iff (text : jstring) :
  (coerce text = Throws <->
   JSON_parse text = None /\ quoted (trim text) = true
   /\ JSON_parse (trim text) = None)
  /\ ((exists v, coerce text = Value v) \/ coerce text = Throws)
  /\ (JSON_parse text = None ->
      quoted (trim text) = false ->
      is_literal (trim text) = false ->
      isNaN (StringToNumber (trim text)) = true \/ trim text = [] ->
      coerce text = Value (JStr (trim text))).
Proof.
  split; [|split].
  - unfold coerce. destruct (JSON_parse text) as [v|] eqn:Hp.
    + split; [discriminate|]. by intros [? _].
    + destruct (quoted (trim text)) eqn:Hq.
      * rewrite (fallback_quoted _ Hq).
        destruct (JSON_parse (trim text)); split; try done.
        by intros (_ & _ & ?).
      * destruct (fallback_unquoted_value _ Hq) as [v ->].
        split; [discriminate|]. by intros (_ & ? & _).
  - destruct (coerce text); eauto.
  - intros Hp Hq Hl Hn. rewrite (coerce_unparsed _ Hp), (fallback_bare _ Hq Hl).
    destruct Hn as [->| ->]; [done|].
    by rewrite jstring_eqb_refl, andb_false_r.
Qed.

Lemma coerce_throws_iff_witness :
  JSON_parse (js "banana") = None
  /\ quoted (trim (js "banana")) = false
  /\ is_literal (trim (js "banana")) = false
  /\ isNaN (StringToNumber (trim (js "banana"))) = true
  /\ coerce (js "banana") = Value (JStr (js "banana")).
Proof.
  repeat (split; [reflexivity|]).
  apply (proj2 (proj2 (coerce_throws_iff (js "banana"))));
    try reflexivity.
  left. reflexivity.
Defined.

(** C5. A text that is valid JSON is coerced to its parse, whatever the
    ladder would make of it; the ladder runs, on the trimmed text, only when
    the parse fails; with the five examples of the specification, and the
    rungs of the ladder reached behind a no-break space. *)
Theorem coerce_precedence (text : jstring) (v : Json) :
  JSON_parse text = Some v ->
  coerce text = Value v
  /\ (forall text', JSON_parse text' = None ->
        coerce text' = fallback (trim text'))
  /\ coerce (jq "'5'") = Value (JStr (js "5"))
  /\ coerce (js "5") = Value (JNum (num_of_Z 5))
  /\ coerce (js "true") = Value (JBool true)
  /\ coerce (js "banana") = Value (JStr (js "banana"))
  /\ coerce (jq "{'a':1}") = Value (JObj [(js "a", JNum (num_of_Z 1))])
  /\ coerce (nbsp ++ jq "'5'") = Value (JStr (js "5"))
  /\ coerce (nbsp ++ js "null") = Value JNull
  /\ coerce (nbsp ++ js "true") = Value (JBool true)
  /\ coerce (nbsp ++ js "false") = Value (JBool false)
  /\ coerce (nbsp ++ js "5") = Value (JNum (num_of_Z 5))
  /\ coerce (nbsp ++ js "banana") = Value (JStr (js "banana")).
Proof.
  intros H. split; [by apply coerce_parsed|].
  split; [apply coerce_unparsed|].
  repeat split; reflexivity.
Qed.

Lemma coerce_precedence_witness :
  JSON_parse (js "null") = Some JNull /\ coerce (js "null") = Value JNull.
Proof.
  split; [reflexivity|].
  apply (coerce_precedence (js "null") JNull). reflexivity.
Defined.

(** C6 fails on the text [Infinity]: it is no JSON, it passes by the quoted,
    null, true and false tests, its numeric value is not finite, and it is
    coerced to a Number all the same. *)
Lemma fallback_infinity_is_number :
  JSON_parse (js "Infinity") = None
  /\ quoted (js "Infinity") = false /\ is_literal (js "Infinity") = false
  /\ isFinite (StringToNumber (js "Infinity")) = false
  /\ fallback (js "Infinity") = Value (JNum (Inf false))
  /\ coerce (js "Infinity") = Value (JNum (Inf false)).
Proof. repeat split; reflexivity. Qed.

(** C6, as amended. After the quoted, null, true and false tests fail, a
    non-empty trimmed text is coerced to a Number exactly when its numeric
    value is not NaN, and the Number is that value, finite or not; every
    other text is returned verbatim as a String. *)
Theorem fallback_number_iff_not_NaN (t : jstring) :
  quoted t = false ->
  is_literal t = false ->
  ((exists n, fallback t = Value (JNum n)) <->
   t <> [] /\ isNaN (StringToNumber t) = false)
  /\ (t <> [] /\ isNaN (StringToNumber t) = false ->
      fallback t = Value (JNum (StringToNumber t)))
  /\ (t = [] \/ isNaN (StringToNumber t) = true ->
      fallback t = Value (JStr t)).
Proof.
  intros Hq Hl. rewrite (fallback_bare _ Hq Hl).
  destruct (isNaN (StringToNumber t)) eqn:Hn; simpl.
  - split; [|split]; try done.
    + split; [by intros [n [=]]|]. by intros [_ ?].
    + by intros [_ ?].
  - destruct (jstring_eqb t []) eqn:He; simpl.
    + apply jstring_eqb_true in He as ->.
      split; [|split]; try done.
      * split; [by intros [n [=]]|]. by intros [? _].
      * by intros [? _].
    + apply jstring_eqb_false in He.
      split; [|split]; try done.
      * split; [done|]. eauto.
      * by intros [?|?].
Qed.

Lemma fallback_number_iff_not_NaN_witness :
  quoted (js "+5") = false /\ is_literal (js "+5") = false
  /\ JSON_parse (js "+5") = None
  /\ fallback (js "+5") = Value (JNum (num_of_Z 5)).
Proof.
  repeat (split; [reflexivity|]).
  apply (proj1 (proj2 (fallback_number_iff_not_NaN (js "+5") eq_refl eq_refl))).
  split; [discriminate|reflexivity].
Defined.

(* ===================================================================== *)
(** * Array indices are canonical *)
(* ===================================================================== *)

Lemma digits_value_ge_1 (r : jstring) :
  forall acc, forallb is_digit r = true -> 1 <= acc ->
    1 <= fold_left (fun a c => a * 10 + (c - 48)) r acc.
Proof.
  induction r as [|c r IH]; simpl; intros acc H Hacc; [done|].
  apply andb_true_iff in H as [Hc Hr]. apply IH; [done|].
  unfold is_digit in Hc. lia.
Qed.

(** The digits of a number that has no leading zero are printed back. *)
Lemma digits_fuel_canonical (k : jstring) :
  forall fuel,
    (0 < fuel)%nat ->
    k <> [] ->
    forallb is_digit k = true ->
    match k with c :: _ :: _ => c <> 48 | _ => True end ->
    digits_value k < 10 ^ Z.of_nat fuel ->
    digits_fuel fuel (digits_value k) [] = k.
Proof.
  induction k as [|c k' IH] using rev_ind; intros fuel Hf Hne Hd Hlead Hlt;
    [done|].
  rewrite forallb_app in Hd. apply andb_true_iff in Hd as [Hd' Hc].
  simpl in Hc. rewrite andb_true_r in Hc.
  rewrite digits_value_snoc in *.
  assert (Hc' : 0 <= c - 48 < 10) by (unfold is_digit in Hc; lia).
  destruct fuel as [|fuel]; [lia|].
  destruct k' as [|c0 r].
  - simpl. change (digits_value []) with 0.
    replace (0 * 10 + (c - 48)) with (c - 48) by lia.
    destruct (c - 48 <? 10) eqn:E; [|lia].
    rewrite Z.mod_small by lia. f_equal. lia.
  - assert (Hc0 : c0 <> 48).
    { destruct r; simpl in Hlead; done. }
    assert (Hv : 1 <= digits_value (c0 :: r)).
    { unfold digits_value. simpl. simpl in Hd'.
      apply andb_true_iff in Hd' as [H0 Hr].
      apply digits_value_ge_1; [done|]. unfold is_digit in H0. lia. }
    simpl digits_fuel.
    destruct (digits_value (c0 :: r) * 10 + (c - 48) <? 10) eqn:E; [lia|].
    rewrite digits_fuel_acc.
    replace ((digits_value (c0 :: r) * 10 + (c - 48)) / 10)
      with (digits_value (c0 :: r))
      by (apply Z.div_unique with (c - 48); lia).
    replace ((digits_value (c0 :: r) * 10 + (c - 48)) mod 10) with (c - 48)
      by (apply Z.mod_unique with (digits_value (c0 :: r)); lia).
    rewrite Nat2Z.inj_succ, Z.pow_succ_r in Hlt by lia.
    rewrite IH; [f_equal; f_equal; lia| |done|done| |].
    + destruct fuel; [|lia]. simpl in Hlt. lia.
    + destruct r; [done|]. simpl in *. done.
    + lia.
Qed.

Lemma array_index_digits_of (k : jstring) (i : Z) :
  array_index k = Some i -> k = digits_of i.
Proof.
  unfold array_index. destruct k as [|c r] eqn:Ek; [done|]. rewrite <- Ek.
  destruct (forallb is_digit k) eqn:Hd; [|done].
  destruct (negb (c =? 48) || (length r =? 0)%nat) eqn:Hl; [|done].
  simpl. destruct (_ <? _); [|done]. intros [= <-].
  symmetry. unfold digits_of.
  pose proof (digits_value_nonneg k 0 Hd ltac:(lia)) as Hv.
  fold (digits_value k) in Hv.
  apply digits_fuel_canonical; [lia|by subst|done| |].
  - subst k. destruct r; [done|]. simpl in Hl. rewrite orb_false_r in Hl.
    apply negb_true_iff, Z.eqb_neq in Hl. done.
  - rewrite Nat2Z.inj_succ, Z2Nat.id by apply Z.log2_nonneg.
    destruct (Z.eq_dec (digits_value k) 0) as [->|Hnz]; [done|].
    assert (digits_value k < 2 ^ Z.succ (Z.log2 (digits_value k)))
      by (apply Z.log2_spec; lia).
    assert (2 ^ Z.succ (Z.log2 (digits_value k))
            <= 10 ^ Z.succ (Z.log2 (digits_value k))).
    { apply Z.pow_le_mono_l. lia. }
    lia.
Qed.

Lemma array_index_value (k : jstring) (i : Z) :
  array_index k = Some i -> digits_value k = i.
Proof.
  unfold array_index. destruct k as [|c r]; [done|].
  destruct (_ && _); [|done]. by intros [= <-].
Qed.

(** The element a guarded write reaches and the key of the segment. *)
Lemma guarded_index_key (first : Segment) (len index : nat) (k : jstring) (i : Z) :
  guarded_index first len = Some index ->
  array_index k = Some i ->
  prop_key first = k <-> index = Z.to_nat i.
Proof.
  intros Hg Hk. pose proof (array_index_nonneg _ _ Hk) as Hi.
  rewrite guarded_index_spec in Hg.
  destruct first as [j|k']; simpl in *.
  - destruct (0 <=? j) eqn:H0; [|done]. destruct (j <? _); [|done].
    injection Hg as <-. apply Z.leb_le in H0.
    unfold int_to_string. destruct (j <? 0) eqn:E; [lia|].
    split.
    + intros <-. apply array_index_value in Hk.
      rewrite digits_of_value in Hk by done. by subst.
    + intros Hj. apply Z2Nat.inj in Hj; [|done..]. subst j.
      symmetry. by apply array_index_digits_of.
  - destruct (array_index k') as [j|] eqn:Ek'; [|done].
    destruct (j <? _); [|done]. injection Hg as <-.
    pose proof (array_index_nonneg _ _ Ek') as Hj.
    split.
    + intros ->. congruence.
    + intros E. apply Z2Nat.inj in E; [|done..]. subst j.
      apply array_index_digits_of in Ek', Hk. congruence.
Qed.

(* ===================================================================== *)
(** * updateJsonAtPath on the store: no mutation, sharing *)
(* ===================================================================== *)

Lemma store_insert_middle (h new : Store.heap) (c c' : Store.cell) :
  <[length h := c']> (h ++ c :: new) = h ++ c' :: new.
Proof. rewrite insert_app_r_alt by lia. by rewrite Nat.sub_diag. Qed.

Lemma store_write_elem_middle h new es i x :
  Store.write_elem (length h) i x (h ++ Store.CArr es :: new)
  = h ++ Store.CArr (<[i := x]> es) :: new.
Proof.
  unfold Store.write_elem. rewrite list_lookup_middle by done.
  apply store_insert_middle.
Qed.

Lemma store_write_prop_middle h new ps k x :
  Store.write_prop (length h) k x (h ++ Store.CObj ps :: new)
  = h ++ Store.CObj (prop_set k x ps) :: new.
Proof.
  unfold Store.write_prop. rewrite list_lookup_middle by done.
  apply store_insert_middle.
Qed.

Lemma store_read_elem_middle h new es i :
  Store.read_elem (length h) i (h ++ Store.CArr es :: new)
  = default Store.VUndef (es !! i).
Proof. unfold Store.read_elem. by rewrite list_lookup_middle. Qed.

Lemma store_read_prop_middle h new ps k :
  Store.read_prop (length h) k (h ++ Store.CObj ps :: new)
  = default Store.VUndef (prop_get k ps).
Proof. unfold Store.read_prop. by rewrite list_lookup_middle. Qed.

(** The two cases of [rest] read alike, as for the pure function. *)
Lemma store_update_cons_array json es first rest v h :
  Store.as_array h json = Some es ->
  Store.updateJsonAtPath json (first :: rest) v h =
  match guarded_index first (length es) with
  | Some index =>
      let (child, h2) :=
        Store.updateJsonAtPath (default Store.VUndef (es !! index)) rest v
          (h ++ [Store.CArr es]) in
      (Store.VRef (length h), Store.write_elem (length h) index child h2)
  | None => (Store.VRef (length h), h ++ [Store.CArr es])
  end.
Proof.
  intros H. simpl. rewrite H. unfold Store.alloc.
  destruct (guarded_index first (length es)); [|done].
  rewrite store_read_elem_middle. by destruct rest.
Qed.

Lemma store_update_cons_object json first rest v h :
  Store.as_array h json = None ->
  Store.updateJsonAtPath json (first :: rest) v h =
  let (child, h2) :=
    Store.updateJsonAtPath
      (default Store.VUndef (prop_get (prop_key first) (Store.spread h json)))
      rest v (h ++ [Store.CObj (Store.spread h json)]) in
  (Store.VRef (length h), Store.write_prop (length h) (prop_key first) child h2).
Proof.
  intros H. simpl. rewrite H. unfold Store.alloc.
  rewrite store_read_prop_middle. by destruct rest.
Qed.

(** The store after an update is the store before it followed by the new
    cells, and the result of a non-empty path is the first of them. *)
Lemma store_update_shape (path : list Segment) :
  forall json v h,
  exists new,
    Store.updateJsonAtPath json path v h
    = (match path with [] => v | _ :: _ => Store.VRef (length h) end, h ++ new).
Proof.
  induction path as [|first rest IH]; intros json v h.
  - exists []. simpl. by rewrite app_nil_r.
  - destruct (Store.as_array h json) as [es|] eqn:Ha.
    + rewrite (store_update_cons_array _ _ _ _ _ _ Ha).
      destruct (guarded_index first (length es)) as [index|]; [|by eexists].
      destruct (IH (default Store.VUndef (es !! index)) v
                  (h ++ [Store.CArr es])) as [new2 ->].
      rewrite <- app_assoc. simpl. rewrite store_write_elem_middle. by eexists.
    + rewrite (store_update_cons_object _ _ _ _ _ Ha).
      destruct (IH (default Store.VUndef
                      (prop_get (prop_key first) (Store.spread h json))) v
                  (h ++ [Store.CObj (Store.spread h json)])) as [new2 ->].
      rewrite <- app_assoc. simpl. rewrite store_write_prop_middle. by eexists.
Qed.

(** What is found in a store is found in every extension of it. *)
Lemma store_lookup_path_app (h new : Store.heap) (Q : list Segment) :
  forall v x,
    Store.lookup_path h v Q = Some x ->
    Store.lookup_path (h ++ new) v Q = Some x.
Proof.
  induction Q as [|q Q IH]; intros v x H; [done|].
  simpl in *. destruct v as [| | | | |l]; try done.
  destruct (h !! l) as [c|] eqn:Hl; [|done].
  rewrite (lookup_app_l_Some _ _ _ _ Hl).
  destruct c as [es|ps].
  - destruct (array_index (prop_key q)); [|done].
    destruct (es !! Z.to_nat z); [|done]. by apply IH.
  - destruct (prop_get (prop_key q) ps); [|done]. by apply IH.
Qed.

(** Sharing, with the cells allocated for the levels above ([mid]) free to
    change afterwards ([mid']), as the assignment into the copy does. *)
Lemma store_update_shares_gen (P : list Segment) :
  forall d V h0 mid mid' Q x,
    length mid' = length mid ->
    Store.off_chain P Q ->
    Store.lookup_path h0 d Q = Some x ->
    exists new,
      Store.updateJsonAtPath d P V (h0 ++ mid)
      = (Store.VRef (length (h0 ++ mid)), (h0 ++ mid) ++ new)
      /\ Store.lookup_path ((h0 ++ mid') ++ new)
           (Store.VRef (length (h0 ++ mid))) Q = Some x.
Proof.
  induction P as [|first rest IH]; intros d V h0 mid mid' Q x Hlen Hoff Hlook;
    [done|].
  destruct Q as [|q Q']; [done|].
  simpl in Hoff, Hlook.
  destruct d as [| | | | |l]; try done.
  destruct (h0 !! l) as [c|] eqn:Hl; [|done].
  assert (Hl' : (h0 ++ mid) !! l = Some c) by by apply lookup_app_l_Some.
  assert (Hr : forall new c',
             ((h0 ++ mid') ++ c' :: new) !! length (h0 ++ mid) = Some c').
  { intros. apply list_lookup_middle. rewrite !length_app. lia. }
  destruct c as [es|ps].
  - destruct (array_index (prop_key q)) as [i|] eqn:Hi; [|done].
    destruct (es !! Z.to_nat i) as [c|] eqn:Hc; [|done].
    assert (Ha : Store.as_array (h0 ++ mid) (Store.VRef l) = Some es)
      by (simpl; by rewrite Hl').
    rewrite (store_update_cons_array _ _ _ _ _ _ Ha).
    destruct (guarded_index first (length es)) as [index|] eqn:Hg.
    + pose proof (guarded_index_key _ _ _ _ _ Hg Hi) as Hkey.
      destruct (decide (prop_key first = prop_key q)) as [Heq|Hne].
      * apply Hkey in Heq. subst index. rewrite Hc. simpl.
        destruct (IH c V h0 (mid ++ [Store.CArr es])
                    (mid' ++ [Store.CArr
                                (<[Z.to_nat i :=
                                     Store.VRef (length (h0 ++ mid ++ [Store.CArr es]))]> es)])
                    Q' x) as (new2 & E & L); [|done|done|].
        { rewrite !length_app. simpl. lia. }
        rewrite !app_assoc in E. rewrite E.
        rewrite <- (app_assoc (h0 ++ mid)). simpl.
        rewrite store_write_elem_middle.
        eexists. split; [done|].
        simpl. rewrite Hr, Hi.
        rewrite list_lookup_insert_eq by (by eapply lookup_lt_Some).
        revert L. rewrite <- ?app_assoc. simpl. rewrite <- ?app_assoc. done.
      * destruct (store_update_shape rest (default Store.VUndef (es !! index)) V
                    ((h0 ++ mid) ++ [Store.CArr es])) as [new2 ->].
        rewrite <- (app_assoc (h0 ++ mid)). simpl.
        rewrite store_write_elem_middle.
        eexists. split; [done|].
        simpl. rewrite Hr, Hi.
        rewrite list_lookup_insert_ne, Hc by (intros E; apply Hne, Hkey, E).
        rewrite <- app_assoc. by apply store_lookup_path_app.
    + eexists. split; [done|].
      simpl. rewrite Hr, Hi, Hc.
      rewrite <- app_assoc. by apply store_lookup_path_app.
  - destruct (prop_get (prop_key q) ps) as [c|] eqn:Hc; [|done].
    assert (Ha : Store.as_array (h0 ++ mid) (Store.VRef l) = None)
      by (simpl; by rewrite Hl').
    assert (Hs : Store.spread (h0 ++ mid) (Store.VRef l) = ps)
      by (simpl; by rewrite Hl').
    rewrite (store_update_cons_object _ _ _ _ _ Ha), Hs.
    destruct (decide (prop_key first = prop_key q)) as [Heq|Hne].
    + rewrite Heq, Hc. simpl.
      destruct (IH c V h0 (mid ++ [Store.CObj ps])
                  (mid' ++ [Store.CObj
                              (prop_set (prop_key q)
                                 (Store.VRef (length (h0 ++ mid ++ [Store.CObj ps])))
                                 ps)])
                  Q' x) as (new2 & E & L); [|done|done|].
      { rewrite !length_app. simpl. lia. }
      rewrite !app_assoc in E. rewrite E.
      rewrite <- (app_assoc (h0 ++ mid)). simpl.
      rewrite store_write_prop_middle.
      eexists. split; [done|].
      simpl. rewrite Hr.
      rewrite prop_get_set_eq by (right; unfold prop_has; by rewrite Hc).
      revert L. rewrite <- ?app_assoc. simpl. rewrite <- ?app_assoc. done.
    + destruct (store_update_shape rest
                  (default Store.VUndef (prop_get (prop_key first) ps)) V
                  ((h0 ++ mid) ++ [Store.CObj ps])) as [new2 ->].
      rewrite <- (app_assoc (h0 ++ mid)). simpl.
      rewrite store_write_prop_middle.
      eexists. split; [done|].
      simpl. rewrite Hr.
      rewrite prop_get_set_ne, Hc by done.
      rewrite <- app_assoc. by apply store_lookup_path_app.
Qed.

Lemma store_update_extends (json : Store.val) (path : list Segment)
  (v : Store.val) (h : list Store.cell) :
  exists new, (Store.updateJsonAtPath json path v h).2 = h ++ new.
Proof.
  destruct (store_update_shape path json v h) as [new ->]. by exists new.
Qed.


(** C3. Whatever is found in the document along a path that leaves the chain
    from the root to the target is found along the same path in the result,
    and it is the same primitive or the same reference: the container is
    shared, not rebuilt. No cell of the store that existed before the call
    is changed by it: the store afterwards is the store before followed by
    the cells the call allocated. *)
Theorem store_update_shares_and_spares
  (h : list Store.cell) (D V x : Store.val) (P Q : list Segment) :
  Store.off_chain P Q ->
  Store.lookup_path h D Q = Some x ->
  Store.lookup_path (Store.updateJsonAtPath D P V h).2
    (Store.updateJsonAtPath D P V h).1 Q = Some x
  /\ (exists new, (Store.updateJsonAtPath D P V h).2 = h ++ new)
  /\ (forall json path v h0 l c,
        h0 !! l = Some c ->
        (Store.updateJsonAtPath json path v h0).2 !! l = Some c).
Proof.
  intros Hoff Hlook. split; [|split].
  - destruct (store_update_shares_gen P D V h [] [] Q x eq_refl Hoff Hlook)
      as (new & E & L).
    rewrite !app_nil_r in *. by rewrite E.
  - apply store_update_extends.
  - intros json path v h0 l c Hl.
    destruct (store_update_extends json path v h0) as [new ->].
    by apply lookup_app_l_Some.
Qed.

Lemma store_update_shares_and_spares_witness :
  Store.off_chain [SKey (js "items"); SIdx 1] [SKey (js "other")]
  /\ Store.lookup_path store_items (Store.VRef 1) [SKey (js "other")]
     = Some (Store.VRef 2)
  /\ Store.lookup_path
       (Store.updateJsonAtPath (Store.VRef 1) [SKey (js "items"); SIdx 1]
          (Store.VNum (num_of_Z 99)) store_items).2
       (Store.updateJsonAtPath (Store.VRef 1) [SKey (js "items"); SIdx 1]
          (Store.VNum (num_of_Z 99)) store_items).1
       [SKey (js "other")]
     = Some (Store.VRef 2).
Proof.
  split; [vm_compute; exact I|]. split; [reflexivity|].
  apply (store_update_shares_and_spares store_items (Store.VRef 1)
           (Store.VNum (num_of_Z 99)) (Store.VRef 2)
           [SKey (js "items"); SIdx 1] [SKey (js "other")]).
  - vm_compute. exact I.
  - reflexivity.
Defined.

(** The scenario of the specification on the store: the result is a new
    Object whose [items] is a new Array with the element replaced, the Object
    under [other] is the one of the input, and the three cells of the input
    are as they were. *)
Lemma store_update_items_scenario :
  Store.updateJsonAtPath (Store.VRef 1) [SKey (js "items"); SIdx 1]
    (Store.VNum (num_of_Z 99)) store_items
  = (Store.VRef 3,
     store_items ++
     [Store.CObj [(js "items", Store.VRef 4); (js "other", Store.VRef 2)];
      Store.CArr [Store.VNum (num_of_Z 1); Store.VNum (num_of_Z 99);
                  Store.VNum (num_of_Z 3)]]).
Proof. reflexivity. Qed.

(* ===================================================================== *)
(** * The store model computes the pure function *)
(* ===================================================================== *)


Section Aligned.
Context {A B : Type} (S : A -> B -> Prop).
Implicit Types (ps : list (jstring * A)) (qs : list (jstring * B)).

Lemma aligned_get k ps qs :
  aligned S ps qs ->
  match prop_get k ps, prop_get k qs with
  | Some a, Some b => S a b
  | None, None => True
  | _, _ => False
  end.
Proof.
  induction 1 as [|[k1 a] [k2 b] ps qs [Hk Hs] _ IH]; simpl in *; [done|].
  subst k2. by destruct (jstring_eqb k1 k).
Qed.

Lemma aligned_has k ps qs : aligned S ps qs -> prop_has k ps = prop_has k qs.
Proof.
  intros H. apply (aligned_get k) in H. unfold prop_has.
  by destruct (prop_get k ps), (prop_get k qs).
Qed.

Lemma aligned_replace k a b ps qs :
  aligned S ps qs -> S a b ->
  aligned S (prop_replace k a ps) (prop_replace k b qs).
Proof.
  intros H Hab.
  induction H as [|[k1 a1] [k2 b1] ps qs [Hk Hs] H IH]; simpl in *;
    [constructor|].
  subst k2. destruct (jstring_eqb k1 k); by constructor.
Qed.

Lemma aligned_insert_index i k a b ps qs :
  aligned S ps qs -> S a b ->
  aligned S (prop_insert_index i k a ps) (prop_insert_index i k b qs).
Proof.
  intros H Hab.
  induction H as [|[k1 a1] [k2 b1] ps qs [Hk Hs] H IH]; simpl in *.
  - by repeat constructor.
  - subst k2. destruct (array_index k1) as [j|]; [destruct (j <? i)|];
      repeat (constructor; try done).
Qed.

Lemma aligned_set k a b ps qs :
  aligned S ps qs -> S a b ->
  aligned S (prop_set k a ps) (prop_set k b qs).
Proof.
  intros H Hab. unfold prop_set. rewrite <- (aligned_has k _ _ H).
  destruct (prop_has k ps); [by apply aligned_replace|].
  destruct (jstring_eqb k proto_key); [done|].
  unfold prop_add. destruct (array_index k).
  - by apply aligned_insert_index.
  - apply Forall2_app; [done|]. by repeat constructor.
Qed.
End Aligned.

Lemma aligned_impl {A B : Type} (S S' : A -> B -> Prop) ps qs :
  aligned S ps qs -> (forall a b, S a b -> S' a b) -> aligned S' ps qs.
Proof.
  intros H HS. eapply Forall2_impl; [exact H|].
  intros p q [? ?]. split; [done|]. by apply HS.
Qed.

Lemma repr_array (h : list Store.cell) (elems : list Json) (v : Store.val) :
  Store.repr h (JArr elems) v <->
  exists l vs, v = Store.VRef l /\ h !! l = Some (Store.CArr vs)
               /\ Forall2 (Store.repr h) elems vs.
Proof.
  simpl. apply exist_proper; intros l. apply exist_proper; intros vs.
  do 2 (apply and_iff_compat_l).
  revert vs. induction elems as [|e es IH]; intros [|x vs]; split;
    try done; try by inversion 1.
  - intros [H1 H2]. constructor; [done|]. by apply IH.
  - inversion 1; subst. split; [done|]. by apply IH.
Qed.

Lemma repr_object (h : list Store.cell) (props : list (jstring * Json))
  (v : Store.val) :
  Store.repr h (JObj props) v <->
  exists l ps, v = Store.VRef l /\ h !! l = Some (Store.CObj ps)
               /\ aligned (Store.repr h) props ps.
Proof.
  simpl. apply exist_proper; intros l. apply exist_proper; intros qs0.
  do 2 (apply and_iff_compat_l). unfold aligned.
  revert qs0. induction props as [|[k j] ps IH]; intros [|[k' x] qs]; split;
    try done; try by inversion 1.
  - intros (H1 & H2 & H3). constructor; [done|]. by apply IH.
  - inversion 1 as [|? ? ? ? [H1 H2] H3]; subst. simpl in *.
    split; [done|]. split; [done|]. by apply IH.
Qed.

(** A representation stays one in every extension of the store. *)
Lemma repr_app (h new : list Store.cell) (J : Json) :
  forall v, Store.repr h J v -> Store.repr (h ++ new) J v.
Proof.
  induction J as [| | | |elems IH|props IH] using Json_nested_ind;
    intros v; try done.
  - rewrite !repr_array. intros (l & vs & -> & Hl & Hall).
    exists l, vs. split; [done|]. split; [by apply lookup_app_l_Some|].
    clear Hl. induction Hall as [|e x es vs He _ IH']; [constructor|].
    inversion IH; subst. constructor; auto.
  - rewrite !repr_object. intros (l & ps & -> & Hl & Hall).
    exists l, ps. split; [done|]. split; [by apply lookup_app_l_Some|].
    clear Hl. unfold aligned in *.
    induction Hall as [|p q ps' qs [Hk Hp] _ IH']; [constructor|].
    inversion IH; subst. constructor; auto.
Qed.

Lemma repr_opt_app (h new : list Store.cell) (oJ : option Json) (v : Store.val) :
  repr_opt h oJ v -> repr_opt (h ++ new) oJ v.
Proof. destruct oJ; [apply repr_app|done]. Qed.

(** The copies the two models spread are aligned. *)
Lemma repr_spread (h0 mid : list Store.cell) (oJ : option Json) (d : Store.val) :
  repr_opt h0 oJ d ->
  is_array oJ = false ->
  Store.as_array (h0 ++ mid) d = None
  /\ aligned (Store.repr h0) (spread oJ) (Store.spread (h0 ++ mid) d).
Proof.
  intros Hr Ha. destruct oJ as [[| | |s|es|ps]|]; simpl in Hr; subst;
    try (split; [done|constructor]); try done.
  - split; [done|]. simpl. unfold aligned.
    assert (E : forall (f : nat -> Z -> jstring * Json)
                  (g : nat -> Z -> jstring * Store.val),
               (forall i c, fst (f i c) = fst (g i c)
                            /\ Store.repr h0 (snd (f i c)) (snd (g i c))) ->
               Forall2 (fun p q => fst p = fst q /\ Store.repr h0 (snd p) (snd q))
                 (imap f s) (imap g s)).
    { clear Ha. induction s as [|c s IH]; intros f g H; [constructor|].
      rewrite !imap_cons. constructor; [apply H|]. apply IH.
      intros i c'. apply H. }
    apply E. by intros i c.
  - apply repr_object in Hr as (l & qs & -> & Hl & Hall).
    simpl. rewrite (lookup_app_l_Some _ _ _ _ Hl). done.
Qed.


(** Refinement, with the cells of the levels above free to change, as in
    the lemma on sharing. *)
Lemma store_update_refines_gen (P : list Segment) :
  forall oJ d Vj V h0 mid mid',
    length mid' = length mid ->
    repr_opt h0 oJ d ->
    Store.repr h0 Vj V ->
    exists new,
      Store.updateJsonAtPath d P V (h0 ++ mid)
      = (update_result P V (h0 ++ mid), (h0 ++ mid) ++ new)
      /\ Store.repr ((h0 ++ mid') ++ new) (updateJsonAtPath oJ P Vj)
           (update_result P V (h0 ++ mid)).
Proof.
  induction P as [|first rest IH]; intros oJ d Vj V h0 mid mid' Hlen Hr HV.
  - exists []. split; [simpl; by rewrite app_nil_r|].
    rewrite update_nil. simpl. rewrite app_nil_r. by apply repr_app.
  - assert (Hmid : forall new c',
               ((h0 ++ mid') ++ c' :: new) !! length (h0 ++ mid) = Some c').
    { intros. apply list_lookup_middle. rewrite !length_app. lia. }
    assert (Hext : forall new J v,
               Store.repr h0 J v -> Store.repr ((h0 ++ mid') ++ new) J v).
    { intros. rewrite <- app_assoc. by apply repr_app. }
    destruct (is_array oJ) eqn:Ha.
    + destruct oJ as [[| | | |es|]|]; try done. simpl in Hr.
      apply repr_array in Hr as (l & vs & -> & Hl & Hall).
      assert (Has : Store.as_array (h0 ++ mid) (Store.VRef l) = Some vs).
      { simpl. by rewrite (lookup_app_l_Some _ _ _ _ Hl). }
      rewrite (store_update_cons_array _ _ _ _ _ _ Has), update_cons_array.
      pose proof (Forall2_length _ _ _ Hall) as Hlen'. rewrite <- Hlen'.
      destruct (guarded_index first (length es)) as [index|] eqn:Hg.
      * apply guarded_index_lt in Hg as Hlt.
        destruct (lookup_lt_is_Some_2 es index Hlt) as [e He].
        destruct (Forall2_lookup_l _ _ _ _ _ Hall He) as (v0 & Hv0 & Hrep).
        rewrite He, Hv0. simpl default.
        destruct (IH (Some e) v0 Vj V h0 (mid ++ [Store.CArr vs])
                    (mid' ++ [Store.CArr
                                (<[index := update_result rest V
                                              (h0 ++ mid ++ [Store.CArr vs])]> vs)]))
          as (new2 & E & R); [|done|done|].
        { rewrite !length_app. simpl. lia. }
        rewrite !app_assoc in E. rewrite E.
        rewrite <- (app_assoc (h0 ++ mid)). simpl app.
        rewrite store_write_elem_middle.
        eexists. split; [done|].
        apply repr_array. eexists _, _. split; [done|]. split; [apply Hmid|].
        apply Forall2_insert.
        -- eapply Forall2_impl; [exact Hall|]. intros. by apply Hext.
        -- revert R. rewrite <- ?app_assoc. simpl. rewrite <- ?app_assoc. done.
      * eexists. split; [done|].
        apply repr_array. eexists _, _. split; [done|]. split; [apply Hmid|].
        eapply Forall2_impl; [exact Hall|]. intros. by apply Hext.
    + destruct (repr_spread h0 mid oJ d Hr Ha) as [Has Hal].
      rewrite (store_update_cons_object _ _ _ _ _ Has),
        (update_cons_object _ _ _ _ Ha).
      pose proof (aligned_get _ (prop_key first) _ _ Hal) as Hget.
      assert (Hro : repr_opt h0 (prop_get (prop_key first) (spread oJ))
                      (default Store.VUndef
                         (prop_get (prop_key first)
                            (Store.spread (h0 ++ mid) d)))).
      { destruct (prop_get (prop_key first) (spread oJ)),
          (prop_get (prop_key first) (Store.spread (h0 ++ mid) d)); done. }
      destruct (IH _ _ Vj V h0
                  (mid ++ [Store.CObj (Store.spread (h0 ++ mid) d)])
                  (mid' ++ [Store.CObj
                              (prop_set (prop_key first)
                                 (update_result rest V
                                    (h0 ++ mid ++
                                     [Store.CObj (Store.spread (h0 ++ mid) d)]))
                                 (Store.spread (h0 ++ mid) d))])
                  ltac:(rewrite !length_app; simpl; lia) Hro HV)
        as (new2 & E & R).
      rewrite !app_assoc in E. rewrite E.
      rewrite <- (app_assoc (h0 ++ mid)). simpl app.
      rewrite store_write_prop_middle.
      eexists. split; [done|].
      apply repr_object. eexists _, _. split; [done|]. split; [apply Hmid|].
      apply aligned_set.
      * eapply aligned_impl; [exact Hal|]. intros. by apply Hext.
      * revert R. rewrite <- ?app_assoc. simpl. rewrite <- ?app_assoc. done.
Qed.

(** X27. The update on the store computes the pure update: when the store values
    [D] and [V] stand for the JSON values [Dj] and [Vj], the result stands
    for [updateJsonAtPath (Some Dj) P Vj] in the store after the call. *)
Theorem store_update_refines
  (h : list Store.cell) (D V : Store.val) (Dj Vj : Json) (P : list Segment) :
  Store.repr h Dj D ->
  Store.repr h Vj V ->
  Store.repr (Store.updateJsonAtPath D P V h).2
    (updateJsonAtPath (Some Dj) P Vj) (Store.updateJsonAtPath D P V h).1.
Proof.
  intros HD HV.
  destruct (store_update_refines_gen P (Some Dj) D Vj V h [] [] eq_refl HD HV)
    as (new & E & R).
  rewrite !app_nil_r in *. by rewrite E.
Qed.

(* ===================================================================== *)
(** * JSON.parse never fails for lack of fuel *)
(* ===================================================================== *)

Lemma skip_ws_length (s : jstring) : (length (skip_ws s) <= length s)%nat.
Proof.
  induction s as [|c s IH]; simpl; [done|].
  destruct (is_json_ws c); simpl; lia.
Qed.

Lemma after_char_length (c : Z) (s r : jstring) :
  after_char c s = Some r -> (length r < length s)%nat.
Proof.
  unfold after_char. pose proof (skip_ws_length s) as L.
  destruct (skip_ws s) as [|d r']; [done|].
  destruct (d =? c); [|done]. intros [= <-]. simpl in L. lia.
Qed.

Lemma span_digits_length (s : jstring) :
  (length (snd (span_digits s)) <= length s)%nat.
Proof.
  induction s as [|c s IH]; simpl; [done|].
  destruct (is_digit c); [|simpl; lia].
  destruct (span_digits s). simpl in *. lia.
Qed.

Lemma take_sign_length (s : jstring) :
  (length (snd (take_sign s)) <= length s)%nat.
Proof.
  destruct s as [|c r]; simpl; [done|].
  destruct (c =? 45); [simpl; lia|]. destruct (c =? 43); simpl; lia.
Qed.

Lemma take_minus_length (s : jstring) :
  (length (snd (take_minus s)) <= length s)%nat.
Proof.
  destruct s as [|c r]; simpl; [done|]. destruct (c =? 45); simpl; lia.
Qed.

Lemma cons_char_length (c : Z) (rest : option (jstring * jstring)) (n : nat) :
  (forall k r, rest = Some (k, r) -> (length r < n)%nat) ->
  forall k r, cons_char c rest = Some (k, r) -> (length r < n)%nat.
Proof.
  intros H k r. destruct rest as [[cs r']|]; [|done].
  intros [= _ <-]. by eapply H.
Qed.

Lemma parse_string_chars_length (n : nat) :
  forall s k r,
    (length s <= n)%nat ->
    parse_string_chars s = Some (k, r) -> (length r < length s)%nat.
Proof.
  induction n as [|n IH]; intros s k r Hn H.
  - destruct s; [done|]. simpl in Hn. lia.
  - destruct s as [|c s]; [done|]. simpl in Hn.
    cbn [parse_string_chars] in H.
    destruct (c =? 34); [injection H as _ <-; simpl; lia|].
    destruct (c =? 92).
    + destruct s as [|e r1]; [done|]. simpl in Hn.
      destruct (e =? 117).
      * destruct r1 as [|a [|b [|c' [|d r2]]]]; try done.
        destruct (value_in_base 16 0 [a; b; c'; d]); [|done].
        revert k r H. apply cons_char_length. intros k r H.
        apply IH in H; simpl in *; lia.
      * destruct (unescape e); [|done].
        revert k r H. apply cons_char_length. intros k r H.
        apply IH in H; simpl in *; lia.
    + destruct (c <? 32); [done|].
      revert k r H. apply cons_char_length. intros k r H.
      apply IH in H; simpl in *; lia.
Qed.

Lemma parse_json_number_length (s : jstring) (n : Number) (r : jstring) :
  parse_json_number s = Some (n, r) -> (length r <= length s)%nat.
Proof.
  unfold parse_json_number.
  pose proof (take_minus_length s) as L1.
  destruct (take_minus s) as [neg s1]. simpl in L1.
  pose proof (span_digits_length s1) as L2.
  destruct (span_digits s1) as [ip r1]. simpl in L2.
  destruct ip as [|c ip]; [done|]. destruct (leading_zero (c :: ip)); [done|].
  destruct (parse_fraction r1) as [[fp r2]|] eqn:Ef; [|done].
  assert (L3 : (length r2 <= length r1)%nat).
  { unfold parse_fraction in Ef. destruct r1 as [|d r1']; [by injection Ef as _ <-|].
    destruct (d =? 46); [|by injection Ef as _ <-].
    pose proof (span_digits_length r1') as L.
    destruct (span_digits r1') as [fp' r']. destruct fp'; [done|].
    injection Ef as _ <-. simpl in *. lia. }
  destruct (parse_json_exponent r2) as [[ex r3]|] eqn:Ee; [|done].
  assert (L4 : (length r3 <= length r2)%nat).
  { unfold parse_json_exponent in Ee. destruct r2 as [|d r2']; [by injection Ee as _ <-|].
    destruct ((d =? 101) || (d =? 69)); [|by injection Ee as _ <-].
    pose proof (take_sign_length r2') as La.
    destruct (take_sign r2') as [eneg r']. simpl in La.
    pose proof (span_digits_length r') as Lb.
    destruct (span_digits r') as [ed r'']. destruct ed; [done|].
    injection Ee as _ <-. simpl in *. lia. }
  intros [= _ <-]. lia.
Qed.

Lemma expect_length (lit : jstring) (v v' : Json) (s r : jstring) :
  expect lit v s = Some (v', r) -> (length r <= length s)%nat.
Proof.
  unfold expect. destruct (startsWith s lit); [|done].
  intros [= _ <-]. rewrite length_drop. lia.
Qed.

(** A parse leaves no more than it was given. *)
Lemma parse_length (fuel : nat) :
  (forall s v r, parse_value fuel s = Some (v, r) ->
     (length r <= length s)%nat)
  /\ (forall acc s v r, parse_elements fuel acc s = Some (v, r) ->
        (length r <= length s)%nat)
  /\ (forall acc s v r, parse_members fuel acc s = Some (v, r) ->
        (length r <= length s)%nat).
Proof.
  induction fuel as [|f (IHv & IHe & IHm)]; [done|].
  split; [|split].
  - intros s v r H. simpl in H. pose proof (skip_ws_length s) as L.
    destruct (skip_ws s) as [|c r0]; [done|]. simpl in L.
    repeat (match type of H with
            | (if ?b then expect _ _ _ else _) = _ =>
                destruct b; [apply expect_length in H; simpl in *; lia|]
            end).
    destruct (c =? 34).
    { destruct (parse_string_chars r0) as [[str r']|] eqn:E; [|done].
      injection H as _ <-.
      apply (parse_string_chars_length (length r0)) in E; lia. }
    destruct (c =? 91).
    { destruct (after_char 93 r0) as [r'|] eqn:E.
      - injection H as _ <-. apply after_char_length in E. lia.
      - apply IHe in H. lia. }
    destruct (c =? 123).
    { destruct (after_char 125 r0) as [r'|] eqn:E.
      - injection H as _ <-. apply after_char_length in E. lia.
      - apply IHm in H. lia. }
    destruct (parse_json_number (c :: r0)) as [[n r']|] eqn:E; [|done].
    injection H as _ <-. apply parse_json_number_length in E. simpl in E. lia.
  - intros acc s v r H. simpl in H.
    destruct (parse_value f s) as [[v0 r0]|] eqn:E; [|done].
    apply IHv in E.
    destruct (after_char 44 r0) as [r'|] eqn:E1.
    + apply after_char_length in E1. apply IHe in H. lia.
    + destruct (after_char 93 r0) as [r'|] eqn:E2; [|done].
      injection H as _ <-. apply after_char_length in E2. lia.
  - intros acc s v r H. simpl in H.
    destruct (after_char 34 s) as [r0|] eqn:E0; [|done].
    apply after_char_length in E0.
    destruct (parse_string_chars r0) as [[k r1]|] eqn:E1; [|done].
    apply (parse_string_chars_length (length r0)) in E1; [|lia].
    destruct (after_char 58 r1) as [r2|] eqn:E2; [|done].
    apply after_char_length in E2.
    destruct (parse_value f r2) as [[v0 r3]|] eqn:E3; [|done].
    apply IHv in E3.
    destruct (after_char 44 r3) as [r'|] eqn:E4.
    + apply after_char_length in E4. apply IHm in H. lia.
    + destruct (after_char 125 r3) as [r'|] eqn:E5; [|done].
      injection H as _ <-. apply after_char_length in E5. lia.
Qed.

(** One more unit of fuel changes nothing once there is twice the length of
    the text. *)
Lemma parse_fuel_step (fuel : nat) :
  (forall s, (2 * length s + 1 <= fuel)%nat ->
     parse_value (S fuel) s = parse_value fuel s)
  /\ (forall acc s, (2 * length s + 2 <= fuel)%nat ->
        parse_elements (S fuel) acc s = parse_elements fuel acc s)
  /\ (forall acc s, (2 * length s + 2 <= fuel)%nat ->
        parse_members (S fuel) acc s = parse_members fuel acc s).
Proof.
  induction fuel as [|f (IHv & IHe & IHm)]; [repeat split; intros; lia|].
  split; [|split].
  - intros s Hs.
    change (parse_value (S (S f)) s) with
      (match skip_ws s with
       | [] => None
       | c :: r =>
           if c =? 110 then expect (js "null") JNull (c :: r)
           else if c =? 116 then expect (js "true") (JBool true) (c :: r)
           else if c =? 102 then expect (js "false") (JBool false) (c :: r)
           else if c =? 34 then
             match parse_string_chars r with
             | Some (str, r') => Some (JStr str, r')
             | None => None
             end
           else if c =? 91 then
             match after_char 93 r with
             | Some r' => Some (JArr [], r')
             | None => parse_elements (S f) [] r
             end
           else if c =? 123 then
             match after_char 125 r with
             | Some r' => Some (JObj [], r')
             | None => parse_members (S f) [] r
             end
           else
             match parse_json_number (c :: r) with
             | Some (n, r') => Some (JNum n, r')
             | None => None
             end
       end).
    simpl parse_value. pose proof (skip_ws_length s) as L.
    destruct (skip_ws s) as [|c r]; [done|]. simpl in L.
    rewrite IHe, IHm by lia. done.
  - intros acc s Hs.
    change (parse_elements (S (S f)) acc s) with
      (match parse_value (S f) s with
       | Some (v, r) =>
           match after_char 44 r with
           | Some r' => parse_elements (S f) (acc ++ [v]) r'
           | None =>
               match after_char 93 r with
               | Some r' => Some (JArr (acc ++ [v]), r')
               | None => None
               end
           end
       | None => None
       end).
    rewrite IHv by lia. simpl parse_elements.
    destruct (parse_value f s) as [[v r]|] eqn:E; [|done].
    apply (proj1 (parse_length f)) in E.
    destruct (after_char 44 r) as [r'|] eqn:E1; [|done].
    apply after_char_length in E1. apply IHe. lia.
  - intros acc s Hs.
    change (parse_members (S (S f)) acc s) with
      (match after_char 34 s with
       | Some r0 =>
           match parse_string_chars r0 with
           | Some (k, r1) =>
               match after_char 58 r1 with
               | Some r2 =>
                   match parse_value (S f) r2 with
                   | Some (v, r3) =>
                       match after_char 44 r3 with
                       | Some r' => parse_members (S f) (prop_define k v acc) r'
                       | None =>
                           match after_char 125 r3 with
                           | Some r' => Some (JObj (prop_define k v acc), r')
                           | None => None
                           end
                       end
                   | None => None
                   end
               | None => None
               end
           | None => None
           end
       | None => None
       end).
    simpl parse_members.
    destruct (after_char 34 s) as [r0|] eqn:E0; [|done].
    apply after_char_length in E0.
    destruct (parse_string_chars r0) as [[k r1]|] eqn:E1; [|done].
    apply (parse_string_chars_length (length r0)) in E1; [|lia].
    destruct (after_char 58 r1) as [r2|] eqn:E2; [|done].
    apply after_char_length in E2.
    rewrite IHv by lia.
    destruct (parse_value f r2) as [[v r3]|] eqn:E3; [|done].
    apply (proj1 (parse_length f)) in E3.
    destruct (after_char 44 r3) as [r'|] eqn:E4; [|done].
    apply after_char_length in E4. apply IHm. lia.
Qed.

(** The fuel of [JSON_parse] is enough: any larger amount gives the same
    result. *)
Theorem parse_value_fuel_enough (s : jstring) (fuel : nat) :
  (2 * length s + 2 <= fuel)%nat ->
  parse_value fuel s = parse_value (2 * length s + 2) s.
Proof.
  intros H. induction H as [|m Hm IH]; [done|].
  rewrite <- IH. apply parse_fuel_step. lia.
Qed.

(* ===================================================================== *)
(** * The platform model on examples *)
(* ===================================================================== *)

Example trim_examples :
  trim (js "  a b  ") = js "a b"
  /\ trim (nbsp ++ js "x" ++ [10; 8232; 65279]) = js "x"
  /\ trim (js "   ") = [].
Proof. repeat split; reflexivity. Qed.

Example StringToNumber_examples :
  StringToNumber (js "5") = num_of_Z 5
  /\ StringToNumber (js " 12 ") = num_of_Z 12
  /\ StringToNumber (js "") = num_of_Z 0
  /\ StringToNumber (js "0x1A") = num_of_Z 26
  /\ StringToNumber (js "+.5e1") = num_of_Z 5
  /\ StringToNumber (js "-Infinity") = Inf true
  /\ StringToNumber (js "1e400") = Inf false
  /\ StringToNumber (js "9007199254740993") = num_of_Z 9007199254740992
  /\ StringToNumber (js "-0x10") = NaN
  /\ StringToNumber (js "1e") = NaN
  /\ StringToNumber (js "banana") = NaN.
Proof. repeat split; reflexivity. Qed.

Example Number_toString_examples :
  Number_toString (num_of_Z 5) = js "5"
  /\ Number_toString (num_of_Z (-12)) = js "-12"
  /\ Number_toString (StringToNumber (js "0.1")) = js "0.1"
  /\ Number_toString (StringToNumber (js "1e21")) = js "1e+21"
  /\ Number_toString (StringToNumber (js "123456789012345678901"))
     = js "123456789012345680000"
  /\ Number_toString (StringToNumber (js "0.0000001")) = js "1e-7"
  /\ Number_toString (StringToNumber (js "0.30000000000000004"))
     = js "0.30000000000000004"
  /\ Number_toString (StringToNumber (js "5e-324")) = js "5e-324"
  /\ Number_toString (StringToNumber (js "-0")) = js "0"
  /\ Number_toString NaN = js "NaN".
Proof. repeat split; vm_compute; reflexivity. Qed.

Example JSON_parse_examples :
  JSON_parse (jq " [1, 'a\nb', {'k': null}] ")
  = Some (JArr [JNum (num_of_Z 1); JStr [97; 10; 98];
                JObj [(js "k", JNull)]])
  /\ JSON_parse (jq "{'b':1,'1':2,'b':3}")
     = Some (JObj [(js "1", JNum (num_of_Z 2)); (js "b", JNum (num_of_Z 3))])
  /\ JSON_parse (jq "{'__proto__':1}")
     = Some (JObj [(js "__proto__", JNum (num_of_Z 1))])
  /\ JSON_parse (jq "'A\u00e9\ud83d'") = Some (JStr [65; 233; 55357])
  /\ JSON_parse (js "01") = None
  /\ JSON_parse (js "[1,]") = None
  /\ JSON_parse (js "+1") = None
  /\ JSON_parse (js ".5") = None
  /\ JSON_parse (nbsp ++ js "1") = None
  /\ JSON_parse (js "") = None.
Proof. repeat split; vm_compute; reflexivity. Qed.

Example JSON_stringify2_examples :
  JSON_stringify2 (JObj []) = js "{}"
  /\ JSON_stringify2 (JArr []) = js "[]"
  /\ JSON_stringify2 (JNum (Inf false)) = js "null"
  /\ JSON_stringify2 (JStr [97; 34; 10; 1]) = jq "'a\'\n\u0001'"
  /\ JSON_stringify2 doc_a12
     = js "{" ++ newline ++ jq "  'a': [" ++ newline ++ js "    1," ++ newline
         ++ js "    2" ++ newline ++ js "  ]" ++ newline ++ js "}".
Proof. repeat split; vm_compute; reflexivity. Qed.

(* ===================================================================== *)
(** * The scenarios of the specification *)
(* ===================================================================== *)

Example scenario_items :
  updateJsonAtPath (Some doc_items) [SKey (js "items"); SIdx 1]
    (JNum (num_of_Z 99))
  = JObj [(js "items", JArr [JNum (num_of_Z 1); JNum (num_of_Z 99);
                             JNum (num_of_Z 3)])].
Proof. reflexivity. Qed.

Example scenario_bounds :
  updateJsonAtPath (Some doc_a12) [SKey (js "a"); SIdx 5] (JNum (num_of_Z 7))
  = doc_a12.
Proof. reflexivity. Qed.

Example scenario_string_index :
  updateJsonAtPath (Some doc_a12) [SKey (js "a"); SKey (js "1")]
    (JNum (num_of_Z 7))
  = JObj [(js "a", JArr [JNum (num_of_Z 1); JNum (num_of_Z 7)])]
  /\ updateJsonAtPath (Some doc_a12) [SKey (js "a"); SKey (js "01")]
       (JNum (num_of_Z 7)) = doc_a12.
Proof. split; reflexivity. Qed.

Example scenario_normalize :
  normalizeNodeData [mkRow None (PStr (js "hello")) TString] = js "hello"
  /\ normalizeNodeData [mkRow None (PNum (num_of_Z 5)) TNumber] = js "5"
  /\ normalizeNodeData
       [mkRow (Some (js "name")) (PStr (js "x")) TString;
        mkRow (Some (js "kids")) (PStr (js "[2 items]")) TArray;
        mkRow None (PBool true) TBoolean;
        mkRow (Some (js "n")) (PNum (num_of_Z 1)) TNumber]
     = js "{" ++ newline ++ jq "  'name': 'x'," ++ newline ++ jq "  'n': 1"
         ++ newline ++ js "}".
Proof. repeat split; vm_compute; reflexivity. Qed.

(** A coercion that throws changes nothing but the toasts; a successful save
    stores the updated document, printed. *)
Lemma handleSave_throws (p : list Segment) (editedContent : jstring)
  (st : AppState) :
  coerce editedContent = Throws ->
  handleSave (Some p) editedContent st = toast_error ErrorInvalidJson st.
Proof. unfold handleSave. by intros ->. Qed.

Lemma handleSave_saves (p : list Segment) (editedContent : jstring)
  (st : AppState) (newValue currentJson : Json) :
  coerce editedContent = Value newValue ->
  JSON_parse (json st) = Some currentJson ->
  json (handleSave (Some p) editedContent st)
  = JSON_stringify2 (updateJsonAtPath (Some currentJson) p newValue).
Proof. unfold handleSave. by intros -> ->. Qed.

Example scenario_handleSave :
  handleSave (Some [SKey (js "items"); SIdx 1]) (js "99")
    (mkState (jq "{'items':[1,2,3]}") [] false [] true)
  = mkState (JSON_stringify2 (JObj [(js "items",
               JArr [JNum (num_of_Z 1); JNum (num_of_Z 99); JNum (num_of_Z 3)])]))
      (JSON_stringify2 (JObj [(js "items",
               JArr [JNum (num_of_Z 1); JNum (num_of_Z 99); JNum (num_of_Z 3)])]))
      true [SuccessUpdated] false.
Proof. vm_compute. reflexivity. Qed.

(* ===================================================================== *)
(** * normalizeNodeData: which rows are printed, and in which order *)
(* ===================================================================== *)


Lemma prop_has_keys {A : Type} (k : jstring) (o : list (jstring * A)) :
  prop_has k o = true <-> k ∈ map fst o.
Proof.
  unfold prop_has. induction o as [|[k' v] o IH]; simpl.
  - split; [done|]. by intros ?%elem_of_nil.
  - rewrite elem_of_cons. destruct (jstring_eqb k' k) eqn:E.
    + apply jstring_eqb_true in E. split; [by left|done].
    + apply jstring_eqb_false in E. rewrite IH. split; [by right|].
      intros [?|?]; [congruence|done].
Qed.

Lemma prop_replace_keys {A : Type} (k : jstring) (v : A) (o : list (jstring * A)) :
  map fst (prop_replace k v o) = map fst o.
Proof.
  induction o as [|[k' v'] o IH]; simpl; [done|].
  destruct (jstring_eqb k' k); simpl; by rewrite ?IH.
Qed.

Lemma prop_set_keys_plain {A : Type} (k : jstring) (v : A)
  (o : list (jstring * A)) :
  k <> proto_key -> array_index k = None ->
  map fst (prop_set k v o)
  = if decide (k ∈ map fst o) then map fst o else map fst o ++ [k].
Proof.
  intros Hp Hi. unfold prop_set, prop_add.
  destruct (decide (k ∈ map fst o)) as [Hin|Hin].
  - apply prop_has_keys in Hin. rewrite Hin. apply prop_replace_keys.
  - destruct (prop_has k o) eqn:E; [by apply prop_has_keys in E|].
    apply jstring_eqb_false in Hp. rewrite Hp, Hi.
    by rewrite map_app.
Qed.

(** With plain keys the object has the keys of the kept rows in the order
    of their first occurrence. *)
Lemma fold_add_row_keys (nodeRows : list NodeRow) :
  plain_keys nodeRows ->
  forall obj,
    proto_null obj = false ->
    map fst (own (fold_left add_row nodeRows obj))
    = fold_left add_key nodeRows (map fst (own obj)).
Proof.
  induction nodeRows as [|row rows IH]; intros Hplain obj Hobj; [done|].
  simpl.
  assert (Hstep : proto_null (add_row obj row) = false
                  /\ map fst (own (add_row obj row))
                     = add_key (map fst (own obj)) row).
  { rewrite add_row_kept. unfold add_key.
    destruct (key row) as [k|] eqn:Ek; [|done].
    destruct (kept row) eqn:Hk; [|done].
    destruct (Hplain row k ltac:(by left) Hk Ek) as [Hp Hi].
    unfold assign. rewrite Hobj. simpl.
    rewrite (prop_set_keys_plain _ _ _ Hp Hi).
    apply jstring_eqb_false in Hp. rewrite Hp, andb_false_r. simpl.
    split; [done|]. by destruct (decide (k ∈ map fst (own obj))). }
  destruct Hstep as [Hnull Hkeys]. rewrite IH; [by rewrite Hkeys| |done].
  intros r k Hr. apply Hplain. by right.
Qed.

Lemma rows_object_keys (nodeRows : list NodeRow) :
  plain_keys nodeRows ->
  map fst (rows_object nodeRows) = first_keys nodeRows.
Proof. intros H. unfold rows_object. by rewrite fold_add_row_keys. Qed.

(** Keys that are array indices come first, in ascending order, whatever
    the order of the rows. *)
Example normalize_index_keys_first :
  normalizeNodeData
    [mkRow (Some (js "b")) (PBool true) TBoolean;
     mkRow (Some (js "10")) (PBool true) TBoolean;
     mkRow (Some (js "2")) (PBool false) TBoolean]
  = js "{" ++ newline ++ jq "  '2': false," ++ newline
      ++ jq "  '10': true," ++ newline ++ jq "  'b': true" ++ newline ++ js "}".
Proof. vm_compute. reflexivity. Qed.

(* ===================================================================== *)
(** * More on own-property lists *)
(* ===================================================================== *)

Section MorePropertyLemmas.
Context {A : Type}.
Implicit Types (o : list (jstring * A)) (k : jstring) (v : A).

Lemma prop_has_get k o v : prop_get k o = Some v -> prop_has k o = true.
Proof. unfold prop_has. by intros ->. Qed.

Lemma prop_has_replace k k' v o :
  prop_has k' (prop_replace k v o) = prop_has k' o.
Proof.
  unfold prop_has. induction o as [|[k1 v1] o IH]; simpl; [done|].
  destruct (jstring_eqb k1 k) eqn:E; simpl.
  - by destruct (jstring_eqb k1 k').
  - destruct (jstring_eqb k1 k'); [done|]. apply IH.
Qed.

Lemma prop_replace_replace k a b o :
  prop_replace k b (prop_replace k a o) = prop_replace k b o.
Proof.
  induction o as [|[k1 v1] o IH]; simpl; [done|].
  destruct (jstring_eqb k1 k) eqn:E; simpl; rewrite E; [done|].
  by rewrite IH.
Qed.

Lemma prop_replace_absent k b o :
  prop_has k o = false -> prop_replace k b o = o.
Proof.
  unfold prop_has. induction o as [|[k1 v1] o IH]; simpl; [done|].
  destruct (jstring_eqb k1 k); [done|]. intros H. by rewrite IH.
Qed.

Lemma prop_replace_insert_index i k a b o :
  prop_has k o = false ->
  prop_replace k b (prop_insert_index i k a o) = prop_insert_index i k b o.
Proof.
  unfold prop_has. induction o as [|[k1 v1] o IH]; simpl.
  - by rewrite jstring_eqb_refl.
  - destruct (jstring_eqb k1 k) eqn:E; [done|]. intros H.
    destruct (array_index k1) as [j|]; [destruct (j <? i)|]; simpl;
      rewrite ?E, ?jstring_eqb_refl; try done.
    by rewrite IH.
Qed.

Lemma prop_replace_add k a b o :
  prop_has k o = false -> prop_replace k b (prop_add k a o) = prop_add k b o.
Proof.
  intros H. unfold prop_add. destruct (array_index k) as [i|].
  - by apply prop_replace_insert_index.
  - revert H. unfold prop_has.
    induction o as [|[k1 v1] o IH]; simpl.
    + by rewrite jstring_eqb_refl.
    + destruct (jstring_eqb k1 k); [done|]. intros H. by rewrite IH.
Qed.

(** The second of two assignments to a key is the one that counts. *)
Lemma prop_set_set k a b o : prop_set k b (prop_set k a o) = prop_set k b o.
Proof.
  unfold prop_set. destruct (prop_has k o) eqn:H.
  - rewrite prop_has_replace, H. apply prop_replace_replace.
  - destruct (jstring_eqb k proto_key) eqn:Hp; [by rewrite H|].
    rewrite (prop_has_get k _ a) by by apply prop_get_add_eq.
    by apply prop_replace_add.
Qed.

(** An assignment removes no key. *)
Lemma prop_has_set_mono k k' v o :
  prop_has k' o = true -> prop_has k' (prop_set k v o) = true.
Proof.
  intros H. destruct (decide (k = k')) as [->|Hne].
  - unfold prop_has. rewrite prop_get_set_eq; [done|by right].
  - unfold prop_has in *. by rewrite prop_get_set_ne.
Qed.
End MorePropertyLemmas.

(* ===================================================================== *)
(** * updateJsonAtPath: reading back, other locations, repeated updates *)
(* ===================================================================== *)

Lemma int_to_string_nonneg (i : Z) : 0 <= i -> int_to_string i = digits_of i.
Proof.
  intros H. unfold int_to_string. destruct (i <? 0) eqn:E; [|done].
  apply Z.ltb_lt in E. lia.
Qed.

(** The element a guarded write reaches, for the key of an integer. *)
Lemma guarded_index_key_int (first : Segment) (len index : nat) (j : Z) :
  guarded_index first len = Some index ->
  0 <= j ->
  prop_key first = int_to_string j <-> index = Z.to_nat j.
Proof.
  intros Hg Hj. rewrite (int_to_string_nonneg _ Hj).
  rewrite guarded_index_spec in Hg.
  destruct first as [i|k]; simpl in *.
  - destruct (0 <=? i) eqn:H0; [|done]. destruct (i <? _); [|done].
    injection Hg as <-. apply Z.leb_le in H0.
    rewrite (int_to_string_nonneg _ H0). split.
    + intros E. apply (f_equal digits_value) in E.
      rewrite !digits_of_value in E by done. by subst.
    + intros E. apply Z2Nat.inj in E; [by subst|done..].
  - destruct (array_index k) as [i|] eqn:Ek; [|done].
    destruct (i <? _); [|done]. injection Hg as <-.
    pose proof (array_index_nonneg _ _ Ek) as Hi. split.
    + intros ->. apply array_index_value in Ek.
      rewrite digits_of_value in Ek by done. by subst.
    + intros E. apply Z2Nat.inj in E; [|done..]. subst i.
      by apply array_index_digits_of.
Qed.

Lemma get_app (P Q : list Segment) :
  forall D,
    get D (P ++ Q)
    = match get D P with Some X => get X Q | None => None end.
Proof.
  induction P as [|seg P IH]; intros D; [done|].
  simpl. destruct D, seg; try done.
  - destruct (0 <=? i); [|done]. destruct (elems !! Z.to_nat i); [|done].
    apply IH.
  - destruct (prop_get k props); [|done]. apply IH.
Qed.

Lemma get_update_eq (P : list Segment) :
  forall D old V,
    get D P = Some old -> get (updateJsonAtPath (Some D) P V) P = Some V.
Proof.
  induction P as [|seg P IH]; intros D old V H; [done|].
  destruct D, seg; simpl in H; try discriminate H.
  - destruct (0 <=? i) eqn:H0; [|discriminate H].
    destruct (elems !! Z.to_nat i) as [child|] eqn:L; [|discriminate H].
    rewrite update_cons_array.
    apply Z.leb_le in H0. apply lookup_lt_Some in L as Hlt.
    rewrite guarded_index_in_range by lia. rewrite L. simpl.
    apply Z.leb_le in H0. rewrite H0.
    rewrite list_lookup_insert_eq by done. by eapply IH.
  - destruct (prop_get k props) as [child|] eqn:L; [|discriminate H].
    rewrite update_cons_object by done. simpl. rewrite L.
    rewrite prop_get_set_eq by (right; by eapply prop_has_get).
    by eapply IH.
Qed.

Lemma get_update_off_chain (P : list Segment) :
  forall D Q y V,
    Store.off_chain P Q ->
    get D Q = Some y ->
    get (updateJsonAtPath (Some D) P V) Q = Some y.
Proof.
  induction P as [|first rest IH]; intros D Q y V Hoff H; [done|].
  destruct Q as [|q Q']; [done|]. simpl in Hoff.
  destruct D, q; simpl in H; try discriminate H.
  - destruct (0 <=? i) eqn:H0; [|discriminate H].
    destruct (elems !! Z.to_nat i) as [child|] eqn:L; [|discriminate H].
    rewrite update_cons_array.
    destruct (guarded_index first (length elems)) as [index|] eqn:Hg.
    2:{ simpl. by rewrite H0, L. }
    apply Z.leb_le in H0.
    pose proof (guarded_index_key_int _ _ _ i Hg H0) as Hkey.
    simpl. apply Z.leb_le in H0. rewrite H0.
    destruct (decide (prop_key first = prop_key (SIdx i))) as [Heq|Hne].
    + apply Hkey in Heq. subst index.
      rewrite list_lookup_insert_eq by (by eapply lookup_lt_Some).
      rewrite L. by apply IH.
    + rewrite list_lookup_insert_ne by (intros E; apply Hne, Hkey, E).
      by rewrite L.
  - destruct (prop_get k props) as [child|] eqn:L; [|discriminate H].
    rewrite update_cons_object by done. simpl in *.
    destruct (decide (prop_key first = k)) as [Heq|Hne].
    + subst k. rewrite L.
      rewrite prop_get_set_eq by (right; by eapply prop_has_get).
      by apply IH.
    + rewrite prop_get_set_ne by done. by rewrite L.
Qed.

(** Of two updates at the same path the second is the one that counts,
    whatever the document and the path. *)
Lemma update_update (P : list Segment) :
  forall oJ V1 V2,
    updateJsonAtPath (Some (updateJsonAtPath oJ P V1)) P V2
    = updateJsonAtPath oJ P V2.
Proof.
  induction P as [|first rest IH]; intros oJ V1 V2; [by rewrite !update_nil|].
  destruct (is_array oJ) eqn:Ha.
  - destruct oJ as [[| | | |es|]|]; try done.
    rewrite !(update_cons_array es).
    destruct (guarded_index first (length es)) as [index|] eqn:Hg.
    + rewrite update_cons_array, length_insert, Hg.
      apply guarded_index_lt in Hg.
      rewrite list_lookup_insert_eq by done.
      destruct (lookup_lt_is_Some_2 es index Hg) as [e ->].
      by rewrite IH, list_insert_insert_eq.
    + by rewrite update_cons_array, Hg.
  - rewrite !(update_cons_object oJ) by done.
    rewrite update_cons_object by done. simpl spread.
    destruct (prop_has (prop_key first) (spread oJ)) eqn:Hh.
    + rewrite prop_get_set_eq by by right.
      by rewrite IH, prop_set_set.
    + destruct (decide (prop_key first = proto_key)) as [Hp|Hp].
      * rewrite Hp in *. rewrite !(prop_get_set_proto _ _ Hh).
        unfold prop_has in Hh.
        by destruct (prop_get proto_key (spread oJ)).
      * rewrite prop_get_set_eq by by left.
        unfold prop_has in Hh.
        destruct (prop_get (prop_key first) (spread oJ)); [done|].
        by rewrite IH, prop_set_set.
Qed.


(** X1. After an update at a valid location, the new value is what is found
    there. *)
Theorem update_then_get (D old V : Json) (P : list Segment) :
  get D P = Some old ->
  get (updateJsonAtPath (Some D) P V) P = Some V.
Proof. apply get_update_eq. Qed.

Lemma update_then_get_witness :
  get doc_ab [SKey (js "a"); SIdx 1] = Some (JNum (num_of_Z 2))
  /\ get (updateJsonAtPath (Some doc_ab) [SKey (js "a"); SIdx 1] JNull)
       [SKey (js "a"); SIdx 1] = Some JNull.
Proof.
  split; [reflexivity|].
  apply (update_then_get doc_ab (JNum (num_of_Z 2)) JNull
           [SKey (js "a"); SIdx 1]).
  reflexivity.
Defined.

(** X2. An update leaves every other location as it was: what is found in
    the document along a path that leaves the updated one is found, equal,
    along the same path in the result. *)
Theorem update_frames_other_locations
  (D y V : Json) (P Q : list Segment) :
  Store.off_chain P Q ->
  get D Q = Some y ->
  get (updateJsonAtPath (Some D) P V) Q = Some y.
Proof. apply get_update_off_chain. Qed.

Lemma update_frames_other_locations_witness :
  Store.off_chain [SKey (js "a"); SIdx 1] [SKey (js "b"); SKey (js "c")]
  /\ get doc_ab [SKey (js "b"); SKey (js "c")] = Some (JBool true)
  /\ get (updateJsonAtPath (Some doc_ab) [SKey (js "a"); SIdx 1] JNull)
       [SKey (js "b"); SKey (js "c")] = Some (JBool true).
Proof.
  split; [vm_compute; exact I|]. split; [reflexivity|].
  apply (update_frames_other_locations doc_ab (JBool true) JNull
           [SKey (js "a"); SIdx 1] [SKey (js "b"); SKey (js "c")]).
  - vm_compute. exact I.
  - reflexivity.
Defined.

(** X3. Of two updates at the same path only the second counts, for every
    document and every path, valid or not; so an update done twice is the
    update done once. *)
Theorem update_last_write_wins (D V1 V2 : Json) (P : list Segment) :
  updateJsonAtPath (Some (updateJsonAtPath (Some D) P V1)) P V2
  = updateJsonAtPath (Some D) P V2
  /\ updateJsonAtPath (Some (updateJsonAtPath (Some D) P V1)) P V1
     = updateJsonAtPath (Some D) P V1.
Proof. split; apply update_update. Qed.

(** X4. At the last segment a key that the mapping does not have yet is
    inserted: the new value is found there afterwards. Only the key
    [__proto__] is not inserted. *)
Theorem update_inserts_missing_key
  (D V : Json) (P : list Segment) (props : list (jstring * Json)) (k : jstring) :
  get D P = Some (JObj props) ->
  prop_has k props = false ->
  k <> proto_key ->
  get (updateJsonAtPath (Some D) (P ++ [SKey k]) V) (P ++ [SKey k]) = Some V
  /\ get (updateJsonAtPath (Some D) (P ++ [SKey k]) V) P
     = Some (JObj (prop_add k V props)).
Proof.
  intros Hget Hhas Hk.
  rewrite (update_app _ _ _ _ _ Hget).
  assert (E : updateJsonAtPath (Some (JObj props)) [SKey k] V
              = JObj (prop_add k V props)).
  { simpl. unfold prop_set. rewrite Hhas.
    apply jstring_eqb_false in Hk. by rewrite Hk. }
  rewrite E. split.
  - rewrite get_app, (get_update_eq _ _ _ _ Hget). simpl.
    by rewrite prop_get_add_eq.
  - by rewrite (get_update_eq _ _ _ _ Hget).
Qed.

Lemma update_inserts_missing_key_witness :
  get doc_ab [SKey (js "b")] = Some (JObj [(js "c", JBool true)])
  /\ prop_has (js "d") [(js "c", JBool true)] = false
  /\ js "d" <> proto_key
  /\ get (updateJsonAtPath (Some doc_ab) ([SKey (js "b")] ++ [SKey (js "d")]) JNull)
       ([SKey (js "b")] ++ [SKey (js "d")]) = Some JNull.
Proof.
  split; [reflexivity|]. split; [reflexivity|]. split; [discriminate|].
  apply (proj1 (update_inserts_missing_key doc_ab JNull [SKey (js "b")]
                  [(js "c", JBool true)] (js "d") eq_refl eq_refl
                  ltac:(discriminate))).
Defined.

(** X5. An update of a mapping along a non-empty path removes none of its
    keys, whatever the segments. (The empty path returns the new value in
    place of the mapping.) *)
Theorem update_keeps_keys
  (props : list (jstring * Json)) (first : Segment) (rest : list Segment)
  (V : Json) :
  exists props',
    updateJsonAtPath (Some (JObj props)) (first :: rest) V = JObj props'
    /\ forall k, prop_has k props = true -> prop_has k props' = true.
Proof.
  rewrite update_cons_object by done. eexists. split; [done|].
  intros k Hk. by apply prop_has_set_mono.
Qed.

(** X6. A path that goes through the key [__proto__] of a mapping that has
    no own property of that name adds, changes and removes no own property
    and no element anywhere: the result has the JSON content of the
    document and is printed as the same text. (What the assignment does
    change in the code is the prototype of the fresh copy, through the
    inherited setter; a prototype is no part of a JSON value.) *)
Theorem update_through_proto_is_noop
  (D V : Json) (P rest : list Segment) (props : list (jstring * Json)) :
  get D P = Some (JObj props) ->
  prop_has proto_key props = false ->
  updateJsonAtPath (Some D) (P ++ SKey proto_key :: rest) V = D
  /\ JSON_stringify2 (updateJsonAtPath (Some D) (P ++ SKey proto_key :: rest) V)
     = JSON_stringify2 D.
Proof.
  intros Hget Hhas.
  assert (E : updateJsonAtPath (Some D) (P ++ SKey proto_key :: rest) V = D).
  { rewrite (update_app _ _ _ _ _ Hget).
    rewrite update_cons_object by done. simpl.
    rewrite (prop_get_set_proto _ _ Hhas). by apply update_get_id. }
  by rewrite E.
Qed.

Lemma update_through_proto_is_noop_witness :
  get doc_ab [SKey (js "b")] = Some (JObj [(js "c", JBool true)])
  /\ prop_has proto_key [(js "c", JBool true)] = false
  /\ updateJsonAtPath (Some doc_ab)
       ([SKey (js "b")] ++ [SKey proto_key; SKey (js "polluted")]) (JBool true)
     = doc_ab.
Proof.
  split; [reflexivity|]. split; [reflexivity|].
  apply (update_through_proto_is_noop doc_ab (JBool true) [SKey (js "b")]
           [SKey (js "polluted")] [(js "c", JBool true)]); reflexivity.
Defined.

Lemma prop_replace_commute {A : Type} (k1 k2 : jstring) (a b : A)
  (o : list (jstring * A)) :
  k1 <> k2 ->
  prop_replace k1 a (prop_replace k2 b o)
  = prop_replace k2 b (prop_replace k1 a o).
Proof.
  intros Hne. induction o as [|[k v] o IH]; simpl; [done|].
  destruct (jstring_eqb k k2) eqn:E2, (jstring_eqb k k1) eqn:E1; simpl;
    rewrite ?E1, ?E2; try done.
  - apply jstring_eqb_true in E1, E2. congruence.
  - by rewrite IH.
Qed.

Lemma prop_set_present {A : Type} (k : jstring) (v : A) (o : list (jstring * A)) :
  prop_has k o = true -> prop_set k v o = prop_replace k v o.
Proof. unfold prop_set. by intros ->. Qed.

Lemma off_chain_sym (P : list Segment) :
  forall Q, Store.off_chain P Q -> Store.off_chain Q P.
Proof.
  induction P as [|p P IH]; intros [|q Q]; simpl; try done.
  destruct (decide (prop_key p = prop_key q)) as [E|E];
    destruct (decide (prop_key q = prop_key p)); try done; try congruence.
  apply IH.
Qed.

Lemma update_commute_gen (P : list Segment) :
  forall D Q x y V W,
    get D P = Some x ->
    get D Q = Some y ->
    Store.off_chain P Q ->
    updateJsonAtPath (Some (updateJsonAtPath (Some D) P V)) Q W
    = updateJsonAtPath (Some (updateJsonAtPath (Some D) Q W)) P V.
Proof.
  induction P as [|p P IH]; intros D Q x y V W HP HQ Hoff; [done|].
  destruct Q as [|q Q]; [done|].
  destruct D, p; simpl in HP; try discriminate HP;
    destruct q; simpl in HQ; try discriminate HQ.
  - destruct (0 <=? i) eqn:Hi; [|discriminate HP].
    destruct (elems !! Z.to_nat i) as [ei|] eqn:Li; [|discriminate HP].
    destruct (0 <=? i0) eqn:Hj; [|discriminate HQ].
    destruct (elems !! Z.to_nat i0) as [ej|] eqn:Lj; [|discriminate HQ].
    apply Z.leb_le in Hi, Hj.
    apply lookup_lt_Some in Li as Hli. apply lookup_lt_Some in Lj as Hlj.
    rewrite !(update_cons_array elems).
    rewrite !guarded_index_in_range by lia. rewrite Li, Lj.
    rewrite !update_cons_array, !length_insert.
    rewrite !guarded_index_in_range by lia.
    simpl in Hoff.
    destruct (decide (int_to_string i = int_to_string i0)) as [E|E].
    + assert (i = i0) as <-.
      { rewrite !int_to_string_nonneg in E by done.
        apply (f_equal digits_value) in E.
        by rewrite !digits_of_value in E. }
      rewrite !list_lookup_insert_eq by done.
      rewrite !list_insert_insert_eq.
      rewrite Li in Lj. injection Lj as <-.
      by rewrite (IH ei Q x y V W).
    + assert (Z.to_nat i <> Z.to_nat i0).
      { intros E'. apply Z2Nat.inj in E'; [|done..]. by subst. }
      rewrite !list_lookup_insert_ne, Li, Lj by done.
      f_equal. apply list_insert_insert_ne. congruence.
  - destruct (prop_get k props) as [ci|] eqn:Li; [|discriminate HP].
    destruct (prop_get k0 props) as [cj|] eqn:Lj; [|discriminate HQ].
    pose proof (prop_has_get _ _ _ Li) as Hhi.
    pose proof (prop_has_get _ _ _ Lj) as Hhj.
    rewrite !(update_cons_object (Some (JObj props))) by done.
    rewrite !update_cons_object by done. simpl in *.
    rewrite Li, Lj.
    destruct (decide (k = k0)) as [<-|E].
    + rewrite !prop_get_set_eq by by right.
      rewrite !prop_set_set.
      rewrite Li in Lj. injection Lj as <-.
      by rewrite (IH ci Q x y V W).
    + rewrite !prop_get_set_ne, Li, Lj by done.
      rewrite (prop_set_present k _ props Hhi), (prop_set_present k0 _ props Hhj).
      rewrite !prop_set_present by (by rewrite prop_has_replace).
      f_equal. apply prop_replace_commute. congruence.
Qed.

(** X7. Updates at two valid locations that lie apart commute. *)
Theorem update_commute
  (D x y V W : Json) (P Q : list Segment) :
  get D P = Some x ->
  get D Q = Some y ->
  Store.off_chain P Q ->
  updateJsonAtPath (Some (updateJsonAtPath (Some D) P V)) Q W
  = updateJsonAtPath (Some (updateJsonAtPath (Some D) Q W)) P V.
Proof. apply update_commute_gen. Qed.

Lemma update_commute_witness :
  get doc_ab [SKey (js "a"); SIdx 1] = Some (JNum (num_of_Z 2))
  /\ get doc_ab [SKey (js "a"); SIdx 0] = Some (JNum (num_of_Z 1))
  /\ Store.off_chain [SKey (js "a"); SIdx 1] [SKey (js "a"); SIdx 0]
  /\ updateJsonAtPath
       (Some (updateJsonAtPath (Some doc_ab) [SKey (js "a"); SIdx 1] JNull))
       [SKey (js "a"); SIdx 0] (JBool false)
     = updateJsonAtPath
         (Some (updateJsonAtPath (Some doc_ab) [SKey (js "a"); SIdx 0]
                  (JBool false)))
         [SKey (js "a"); SIdx 1] JNull.
Proof.
  split; [reflexivity|]. split; [reflexivity|].
  split; [vm_compute; exact I|].
  apply (update_commute doc_ab (JNum (num_of_Z 2)) (JNum (num_of_Z 1)) JNull
           (JBool false) [SKey (js "a"); SIdx 1] [SKey (js "a"); SIdx 0]).
  - reflexivity.
  - reflexivity.
  - vm_compute. exact I.
Defined.

(* ===================================================================== *)
(** * Integer segments and their decimal strings *)
(* ===================================================================== *)

Lemma digits_fuel_head (fuel : nat) :
  forall n, 1 <= n < 10 ^ Z.of_nat fuel ->
    exists c r, digits_fuel fuel n [] = c :: r /\ c <> 48.
Proof.
  induction fuel as [|fuel IH]; intros n Hn; [simpl in Hn; lia|].
  simpl. destruct (n <? 10) eqn:E.
  - apply Z.ltb_lt in E. eexists _, _. split; [done|].
    rewrite Z.mod_small by lia. lia.
  - apply Z.ltb_ge in E. rewrite digits_fuel_acc.
    rewrite Nat2Z.inj_succ, Z.pow_succ_r in Hn by lia.
    destruct (IH (n / 10)) as (c & r & -> & Hc).
    { split; [apply Z.div_le_lower_bound; lia|].
      apply Z.div_lt_upper_bound; lia. }
    by eexists _, _.
Qed.

Lemma digits_of_bound (n : Z) :
  0 <= n -> n < 10 ^ Z.of_nat (S (Z.to_nat (Z.log2 n))).
Proof.
  intros H. rewrite Nat2Z.inj_succ, Z2Nat.id by apply Z.log2_nonneg.
  destruct (Z.eq_dec n 0) as [->|Hne]; [done|].
  assert (n < 2 ^ Z.succ (Z.log2 n)) by (apply Z.log2_spec; lia).
  assert (2 ^ Z.succ (Z.log2 n) <= 10 ^ Z.succ (Z.log2 n)).
  { apply Z.pow_le_mono_l. lia. }
  lia.
Qed.

(** The decimal digits of an index are the array index that denotes it. *)
Lemma array_index_of_digits (i : Z) :
  0 <= i < 2 ^ 32 - 1 -> array_index (digits_of i) = Some i.
Proof.
  intros [H0 H1].
  pose proof (digits_of_all_digits i H0) as Hd.
  pose proof (digits_of_value i H0) as Hv.
  destruct (Z.eq_dec i 0) as [->|Hne]; [done|].
  destruct (digits_fuel_head _ i ltac:(split; [lia|by apply digits_of_bound]))
    as (c & r & E & Hc).
  fold (digits_of i) in E. rewrite E in *.
  unfold array_index. rewrite Hd, Hv.
  apply Z.eqb_neq in Hc. rewrite Hc. simpl.
  apply Z.ltb_lt in H1. by rewrite H1.
Qed.

(** X8. A number and the string of its decimal digits are the same
    segment to [updateJsonAtPath]: on a sequence both address the element
    of that index, on anything else both name the same key. *)
Theorem update_index_or_its_digits
  (D V : Json) (i : Z) (rest : list Segment) :
  0 <= i < 2 ^ 32 - 1 ->
  updateJsonAtPath (Some D) (SIdx i :: rest) V
  = updateJsonAtPath (Some D) (SKey (digits_of i) :: rest) V.
Proof.
  intros Hi. destruct (is_array (Some D)) eqn:Ha.
  - destruct D; try done. rewrite !update_cons_array.
    rewrite !guarded_index_spec. rewrite (array_index_of_digits _ Hi).
    destruct Hi as [H0 _]. apply Z.leb_le in H0. by rewrite H0.
  - rewrite !update_cons_object by done. simpl prop_key.
    by rewrite int_to_string_nonneg by lia.
Qed.

Lemma update_index_or_its_digits_witness :
  0 <= 1 < 2 ^ 32 - 1
  /\ updateJsonAtPath (Some (JArr [JNum (num_of_Z 1); JNum (num_of_Z 2)]))
       [SIdx 1] JNull
     = updateJsonAtPath (Some (JArr [JNum (num_of_Z 1); JNum (num_of_Z 2)]))
         [SKey (js "1")] JNull.
Proof.
  split; [lia|].
  apply (update_index_or_its_digits
           (JArr [JNum (num_of_Z 1); JNum (num_of_Z 2)]) JNull 1 []).
  lia.
Defined.

(* ===================================================================== *)
(** * Keys stay unique *)
(* ===================================================================== *)

Lemma prop_insert_index_keys {A : Type} (i : Z) (k : jstring) (v : A)
  (o : list (jstring * A)) :
  map fst (prop_insert_index i k v o) ≡ₚ k :: map fst o.
Proof.
  induction o as [|[k' v'] o IH]; simpl; [done|].
  destruct (array_index k') as [j|]; [destruct (j <? i)|]; simpl; try done.
  rewrite IH. apply Permutation_swap.
Qed.

Lemma prop_add_keys {A : Type} (k : jstring) (v : A) (o : list (jstring * A)) :
  map fst (prop_add k v o) ≡ₚ k :: map fst o.
Proof.
  unfold prop_add. destruct (array_index k).
  - apply prop_insert_index_keys.
  - rewrite map_app. simpl. symmetry. apply Permutation_cons_append.
Qed.

Lemma prop_set_NoDup {A : Type} (k : jstring) (v : A) (o : list (jstring * A)) :
  NoDup (map fst o) -> NoDup (map fst (prop_set k v o)).
Proof.
  intros H. unfold prop_set. destruct (prop_has k o) eqn:Hh.
  - by rewrite prop_replace_keys.
  - destruct (jstring_eqb k proto_key); [done|].
    rewrite prop_add_keys. apply NoDup_cons. split; [|done].
    intros Hin. apply prop_has_keys in Hin. congruence.
Qed.

Lemma prop_define_NoDup {A : Type} (k : jstring) (v : A) (o : list (jstring * A)) :
  NoDup (map fst o) -> NoDup (map fst (prop_define k v o)).
Proof.
  intros H. unfold prop_define. destruct (prop_has k o) eqn:Hh.
  - by rewrite prop_replace_keys.
  - rewrite prop_add_keys. apply NoDup_cons. split; [|done].
    intros Hin. apply prop_has_keys in Hin. congruence.
Qed.

Lemma fold_add_row_NoDup (nodeRows : list NodeRow) :
  forall obj,
    NoDup (map fst (own obj)) ->
    NoDup (map fst (own (fold_left add_row nodeRows obj))).
Proof.
  induction nodeRows as [|row rows IH]; intros obj H; [done|].
  simpl. apply IH. rewrite add_row_kept.
  destruct (key row); [|done]. destruct (kept row); [|done].
  unfold assign. destruct (proto_null obj); simpl.
  - by apply prop_define_NoDup.
  - by apply prop_set_NoDup.
Qed.

Lemma last_value_Some (k : jstring) (nodeRows : list NodeRow) :
  forall init v,
    last_value k nodeRows init = Some v ->
    init = Some v
    \/ exists row, row ∈ nodeRows /\ kept row = true /\ key row = Some k
                   /\ v = json_of_prim (value row).
Proof.
  induction nodeRows as [|row rows IH]; intros init v H; [by left|].
  rewrite last_value_cons in H. apply IH in H as [H|(r & Hr & H)].
  - destruct (kept row) eqn:Hk; [|by left].
    destruct (decide (key row = Some k)) as [Ek|]; [|by left].
    simpl in H. injection H as <-. right. exists row.
    split; [by left|done].
  - right. exists r. split; [by right|done].
Qed.

(** X9. In the object that [normalizeNodeData] prints every key occurs
    once, and its value is the value of the last row that is folded in
    under this key. *)
Theorem normalize_keys_unique_last_wins (nodeRows : list NodeRow) (k : jstring) :
  NoDup (map fst (rows_object nodeRows))
  /\ (k <> proto_key ->
      prop_get k (rows_object nodeRows) = last_value k nodeRows None).
Proof.
  split; [by apply fold_add_row_NoDup, NoDup_nil|]. apply rows_object_get.
Qed.

Lemma normalize_keys_unique_last_wins_witness :
  js "a" <> proto_key
  /\ prop_get (js "a")
       (rows_object [mkRow (Some (js "a")) (PBool true) TBoolean;
                     mkRow (Some (js "a")) PNull TNull])
     = Some JNull.
Proof.
  split; [discriminate|].
  apply (proj2 (normalize_keys_unique_last_wins
                  [mkRow (Some (js "a")) (PBool true) TBoolean;
                   mkRow (Some (js "a")) PNull TNull] (js "a"))).
  discriminate.
Defined.

(** X10. Every key of the printed object, [__proto__] included, is the key
    of a row that is neither of type array nor object, and its value is the
    value of such a row: rows of the two container types and rows without
    key never show. *)
Theorem normalize_keys_come_from_scalar_rows
  (nodeRows : list NodeRow) (k : jstring) (v : Json) :
  prop_get k (rows_object nodeRows) = Some v ->
  exists row,
    row ∈ nodeRows /\ key row = Some k /\ k <> []
    /\ type row <> TArray /\ type row <> TObject
    /\ v = json_of_prim (value row).
Proof.
  intros H.
  apply fold_add_row_from_row in H as [H|(row & Hin & Hkept & Hkey & ->)];
    [done|].
  exists row. unfold kept in Hkept. rewrite Hkey in Hkept.
  apply andb_true_iff in Hkept as [Ht Hk'].
  repeat split; try done.
  - by destruct k.
  - intros E. by rewrite E in Ht.
  - intros E. by rewrite E in Ht.
Qed.

Lemma normalize_keys_come_from_scalar_rows_witness :
  exists row,
    row ∈ [mkRow (Some (js "kids")) (PStr (js "[2 items]")) TArray;
           mkRow (Some (js "n")) (PNum (num_of_Z 1)) TNumber]
    /\ key row = Some (js "n") /\ js "n" <> []
    /\ type row <> TArray /\ type row <> TObject
    /\ JNum (num_of_Z 1) = json_of_prim (value row).
Proof.
  apply (normalize_keys_come_from_scalar_rows
           [mkRow (Some (js "kids")) (PStr (js "[2 items]")) TArray;
            mkRow (Some (js "n")) (PNum (num_of_Z 1)) TNumber]
           (js "n") (JNum (num_of_Z 1))).
  reflexivity.
Defined.

(** A row [__proto__] is lost while the object has its prototype; after a
    row [__proto__] with the value [null] has removed the prototype, the
    next one becomes a property. *)
Example normalize_proto_after_null :
  normalizeNodeData [mkRow (Some proto_key) (PStr (js "x")) TString;
                     mkRow (Some proto_key) (PStr (js "y")) TString]
  = js "{}"
  /\ normalizeNodeData [mkRow (Some proto_key) PNull TNull;
                        mkRow (Some proto_key) (PStr (js "x")) TString]
     = js "{" ++ newline ++ jq "  '__proto__': 'x'" ++ newline ++ js "}".
Proof. split; vm_compute; reflexivity. Qed.




(* ===================================================================== *)
(** * The value coercion: what the ladder can return *)
(* ===================================================================== *)


Lemma startsWith_dquote (t : jstring) :
  startsWith t dquote = true -> exists r, t = 34 :: r.
Proof.
  destruct t as [|c r]; [done|]. unfold dquote. cbn [startsWith].
  intros [H _]%andb_true_iff. apply Z.eqb_eq in H. subst. by eexists.
Qed.

(** A text that starts with a double quote parses to a String or not at
    all. *)
Lemma parse_value_quoted (fuel : nat) (r : jstring) (v : Json) (r' : jstring) :
  parse_value fuel (34 :: r) = Some (v, r') -> exists s, v = JStr s.
Proof.
  destruct fuel as [|f]; [done|]. cbn [parse_value skip_ws].
  change (is_json_ws 34) with false. cbv iota.
  change (34 =? 110) with false. change (34 =? 116) with false.
  change (34 =? 102) with false. change (34 =? 34) with true. cbv iota.
  destruct (parse_string_chars r) as [[str r0]|]; [|done].
  intros [= <- _]. by eexists.
Qed.

Lemma JSON_parse_quoted (t : jstring) (v : Json) :
  startsWith t dquote = true -> JSON_parse t = Some v -> exists s, v = JStr s.
Proof.
  intros [r ->]%startsWith_dquote. unfold JSON_parse.
  destruct (parse_value _ _) as [[v' r']|] eqn:E; [|done].
  destruct (skip_ws r'); [|done]. intros [= <-].
  by eapply parse_value_quoted.
Qed.

Lemma fallback_primitive (t : jstring) (v : Json) :
  fallback t = Value v -> is_primitive v = true.
Proof.
  unfold fallback.
  destruct (startsWith t dquote && endsWith t dquote) eqn:Hq.
  - apply andb_true_iff in Hq as [Hs _].
    destruct (JSON_parse t) as [v'|] eqn:Hp; [|done].
    intros [= <-]. by destruct (JSON_parse_quoted _ _ Hs Hp) as [s ->].
  - repeat (match goal with
            | |- (if ?b then _ else _) = _ -> _ => destruct b
            end; [by intros [= <-]|]).
    by intros [= <-].
Qed.

(** X12. A text that is not valid JSON is never coerced to an Array or an
    Object: the ladder only gives Strings, Numbers, Booleans and null. *)
Theorem coerce_invalid_json_is_primitive (text : jstring) (v : Json) :
  JSON_parse text = None ->
  coerce text = Value v ->
  is_primitive v = true.
Proof.
  intros Hp. rewrite (coerce_unparsed _ Hp). apply fallback_primitive.
Qed.

Lemma coerce_invalid_json_is_primitive_witness :
  JSON_parse (jq "{'a':1") = None
  /\ coerce (jq "{'a':1") = Value (JStr (jq "{'a':1"))
  /\ is_primitive (JStr (jq "{'a':1")) = true.
Proof.
  split; [reflexivity|]. split; [reflexivity|].
  apply (coerce_invalid_json_is_primitive (jq "{'a':1") (JStr (jq "{'a':1")));
    reflexivity.
Defined.

Lemma trimStart_nil (s : jstring) :
  trimStart s = [] -> forallb is_js_space s = true.
Proof.
  induction s as [|c s IH]; simpl; [done|].
  destruct (is_js_space c); [done|]. discriminate.
Qed.

Lemma trimStart_all_space (s : jstring) :
  forallb is_js_space s = true -> trimStart s = [].
Proof.
  induction s as [|c s IH]; simpl; [done|].
  destruct (is_js_space c); [done|]. discriminate.
Qed.

Lemma trimStart_suffix_spaces (s : jstring) :
  forallb is_js_space (trimStart s) = true -> forallb is_js_space s = true.
Proof.
  induction s as [|c s IH]; simpl; [done|].
  destruct (is_js_space c) eqn:E; [done|]. simpl. by rewrite E.
Qed.

Lemma trim_nil (s : jstring) : trim s = [] -> forallb is_js_space s = true.
Proof.
  unfold trim. intros H.
  apply (f_equal (@rev Z)) in H. rewrite rev_involutive in H. simpl in H.
  apply trimStart_nil in H. apply trimStart_suffix_spaces.
  rewrite forallb_forall in *. intros x Hx. apply H. by apply in_rev in Hx.
Qed.

Lemma skip_ws_head (s r : jstring) (c : Z) :
  skip_ws s = c :: r -> is_json_ws c = false /\ c ∈ s.
Proof.
  induction s as [|d s IH]; simpl; [done|].
  destruct (is_json_ws d) eqn:E.
  - intros H. destruct (IH H). split; [done|]. by right.
  - intros [= -> ->]. split; [done|]. by left.
Qed.

(** White space that JSON does not know starts no JSON value. *)
Lemma parse_value_js_space (fuel : nat) (c : Z) (r : jstring) :
  is_js_space c = true -> is_json_ws c = false ->
  parse_value fuel (c :: r) = None.
Proof.
  intros Hs Hw. destruct fuel as [|f]; [done|].
  cbn [parse_value skip_ws]. rewrite Hw.
  assert (Hne : forall d, is_js_space d = false -> (c =? d) = false).
  { intros d Hd. destruct (Z.eqb_spec c d) as [->|]; [congruence|done]. }
  rewrite !Hne by reflexivity.
  unfold parse_json_number, take_minus. rewrite Hne by reflexivity.
  simpl. assert (is_digit c = false) as ->; [|done].
  unfold is_digit. destruct (48 <=? c) eqn:E1, (c <=? 57) eqn:E2; try done.
  apply Z.leb_le in E1, E2.
  assert (c = 48 \/ c = 49 \/ c = 50 \/ c = 51 \/ c = 52 \/ c = 53 \/ c = 54
          \/ c = 55 \/ c = 56 \/ c = 57) as Hc by lia.
  repeat (destruct Hc as [->|Hc]; [discriminate Hs|]). subst. discriminate Hs.
Qed.

Lemma JSON_parse_blank (text : jstring) :
  forallb is_js_space text = true -> JSON_parse text = None.
Proof.
  intros H. unfold JSON_parse.
  assert (parse_value (2 * length text + 2) text = None) as ->; [|done].
  generalize (2 * length text + 2)%nat. intros fuel.
  destruct fuel as [|f]; [done|].
  destruct (skip_ws text) as [|c r] eqn:E.
  { cbn [parse_value]. by rewrite E. }
  destruct (skip_ws_head _ _ _ E) as [Hw Hin].
  assert (Hs : is_js_space c = true).
  { rewrite forallb_forall in H. apply H. by apply list_elem_of_In. }
  pose proof (parse_value_js_space (S f) c r Hs Hw) as Hp.
  cbn [parse_value] in *. rewrite E.
  cbn [skip_ws] in Hp. by rewrite Hw in Hp.
Qed.

(** X13. An empty edit, or one of white space only, is coerced to the empty
    String, not to the Number 0 that [Number("")] is. *)
Theorem coerce_blank_is_empty_string (text : jstring) :
  trim text = [] -> coerce text = Value (JStr []).
Proof.
  intros H. rewrite coerce_unparsed by by apply JSON_parse_blank, trim_nil.
  by rewrite H.
Qed.

Lemma coerce_blank_is_empty_string_witness :
  trim (js "  " ++ nbsp ++ [10]) = []
  /\ coerce (js "  " ++ nbsp ++ [10]) = Value (JStr [])
  /\ StringToNumber (js "  " ++ nbsp ++ [10]) = num_of_Z 0.
Proof.
  split; [reflexivity|]. split; [|reflexivity].
  apply (coerce_blank_is_empty_string (js "  " ++ nbsp ++ [10])).
  reflexivity.
Defined.

(* ===================================================================== *)
(** * The store: how much is copied, and what the caller keeps *)
(* ===================================================================== *)


Lemma store_update_allocs (path : list Segment) :
  forall json v h,
  exists new,
    Store.updateJsonAtPath json path v h = (update_result path v h, h ++ new)
    /\ (length new <= length path)%nat.
Proof.
  induction path as [|first rest IH]; intros json v h.
  - exists []. simpl. by rewrite app_nil_r.
  - destruct (Store.as_array h json) as [es|] eqn:Ha.
    + rewrite (store_update_cons_array _ _ _ _ _ _ Ha).
      destruct (guarded_index first (length es)) as [index|].
      2:{ eexists. split; [done|]. simpl. lia. }
      destruct (IH (default Store.VUndef (es !! index)) v
                  (h ++ [Store.CArr es])) as (new2 & -> & Hlen).
      rewrite <- app_assoc. simpl app. rewrite store_write_elem_middle.
      eexists. split; [done|]. simpl. lia.
    + rewrite (store_update_cons_object _ _ _ _ _ Ha).
      destruct (IH (default Store.VUndef
                      (prop_get (prop_key first) (Store.spread h json))) v
                  (h ++ [Store.CObj (Store.spread h json)]))
        as (new2 & -> & Hlen).
      rewrite <- app_assoc. simpl app. rewrite store_write_prop_middle.
      eexists. split; [done|]. simpl. lia.
Qed.

(** X14. The copy is shallow: an update allocates at most one container per
    segment of the path, whatever the size of the document, and for a
    non-empty path its result is the first of the new containers, which is
    none of the store before. *)
Theorem store_update_copies_one_per_segment
  (D V : Store.val) (P : list Segment) (h : list Store.cell) :
  exists new,
    Store.updateJsonAtPath D P V h = (update_result P V h, h ++ new)
    /\ (length new <= length P)%nat
    /\ h !! length h = None.
Proof.
  destruct (store_update_allocs P D V h) as (new & E & Hlen).
  exists new. split; [done|]. split; [done|].
  by apply lookup_ge_None.
Qed.

(** X15. The caller keeps the old document: a reference that stood for a
    JSON value before the call stands for the same value after it. *)
Theorem store_update_keeps_old_document
  (h : list Store.cell) (D V x : Store.val) (P : list Segment) (Xj : Json) :
  Store.repr h Xj x ->
  Store.repr (Store.updateJsonAtPath D P V h).2 Xj x.
Proof.
  intros H. destruct (store_update_extends D P V h) as [new ->].
  by apply repr_app.
Qed.

Lemma store_items_repr : Store.repr store_items doc_items_other (Store.VRef 1).
Proof.
  repeat (simpl; first [reflexivity | exact I | split | eexists]).
Defined.

Lemma store_update_keeps_old_document_witness :
  Store.repr store_items doc_items_other (Store.VRef 1)
  /\ Store.repr
       (Store.updateJsonAtPath (Store.VRef 1) [SKey (js "items"); SIdx 1]
          (Store.VNum (num_of_Z 99)) store_items).2
       doc_items_other (Store.VRef 1).
Proof.
  split; [exact store_items_repr|].
  apply (store_update_keeps_old_document store_items (Store.VRef 1)
           (Store.VNum (num_of_Z 99)) (Store.VRef 1)
           [SKey (js "items"); SIdx 1] doc_items_other).
  exact store_items_repr.
Defined.

Lemma store_update_refines_witness :
  Store.repr store_items doc_items_other (Store.VRef 1)
  /\ Store.repr store_items (JNum (num_of_Z 99)) (Store.VNum (num_of_Z 99))
  /\ Store.repr
       (Store.updateJsonAtPath (Store.VRef 1) [SKey (js "items"); SIdx 1]
          (Store.VNum (num_of_Z 99)) store_items).2
       (updateJsonAtPath (Some doc_items_other) [SKey (js "items"); SIdx 1]
          (JNum (num_of_Z 99)))
       (Store.updateJsonAtPath (Store.VRef 1) [SKey (js "items"); SIdx 1]
          (Store.VNum (num_of_Z 99)) store_items).1.
Proof.
  split; [exact store_items_repr|]. split; [reflexivity|].
  apply (store_update_refines store_items (Store.VRef 1)
           (Store.VNum (num_of_Z 99)) doc_items_other (JNum (num_of_Z 99))
           [SKey (js "items"); SIdx 1]).
  - exact store_items_repr.
  - reflexivity.
Defined.

(* ===================================================================== *)
(** * handleSave: one toast, and nothing else on an error *)
(* ===================================================================== *)

(** X16. Every call of [handleSave] shows exactly one toast. When it is an
    error, the store, the editor contents, the change flag and the editing
    flag are as before. When it is the success, the store and the editor
    hold the same text, the printed update of the stored document, the
    change flag is set and editing has ended. *)
Theorem handleSave_outcome
  (path : option (list Segment)) (editedContent : jstring) (st : AppState) :
  exists t,
    toasts (handleSave path editedContent st) = toasts st ++ [t]
    /\ match t with
       | SuccessUpdated =>
           exists p newValue currentJson,
             path = Some p /\ coerce editedContent = Value newValue
             /\ JSON_parse (json st) = Some currentJson
             /\ json (handleSave path editedContent st)
                = JSON_stringify2
                    (updateJsonAtPath (Some currentJson) p newValue)
             /\ contents (handleSave path editedContent st)
                = json (handleSave path editedContent st)
             /\ hasChanges (handleSave path editedContent st) = true
             /\ isEditing (handleSave path editedContent st) = false
       | _ =>
           json (handleSave path editedContent st) = json st
           /\ contents (handleSave path editedContent st) = contents st
           /\ hasChanges (handleSave path editedContent st) = hasChanges st
           /\ isEditing (handleSave path editedContent st) = isEditing st
       end.
Proof.
  unfold handleSave. destruct path as [p|]; [|by exists ErrorMissingPath].
  destruct (coerce editedContent) as [newValue|] eqn:Hc;
    [|by exists ErrorInvalidJson].
  destruct (JSON_parse (json st)) as [currentJson|] eqn:Hp;
    [|by exists ErrorInvalidJson].
  exists SuccessUpdated. split; [done|]. by exists p, newValue, currentJson.
Qed.

(* ===================================================================== *)
(** * The editing state: what is shown is what is edited *)
(* ===================================================================== *)

Lemma ui_steps_invariant (text : list NodeRow) (events : list ui_event) :
  forall m,
    (editing m = false -> editedContent m = normalizeNodeData text) ->
    editing (fold_left (ui_step (Some text)) events m) = false ->
    editedContent (fold_left (ui_step (Some text)) events m)
    = normalizeNodeData text.
Proof.
  induction events as [|e events IH]; intros m Hm; [done|].
  simpl. apply IH. destruct e; simpl; try done.
  destruct (editing m) eqn:E; simpl; [by rewrite E|]. intros _. by apply Hm.
Qed.

(** X17. While the modal stays open on a node, through any sequence of
    Edit, typing and Cancel, the text on display is [editedContent]: the
    text area opened by Edit always starts from the text that was on
    display, and Cancel brings back the state the modal opened with. *)
Theorem editor_shows_edited_content
  (text : list NodeRow) (events : list ui_event) (m0 : Editor) :
  shown (Some text)
    (fold_left (ui_step (Some text)) events (on_open (Some text) m0))
  = editedContent
      (fold_left (ui_step (Some text)) events (on_open (Some text) m0))
  /\ fold_left (ui_step (Some text)) (events ++ [ClickCancel])
       (on_open (Some text) m0)
     = on_open (Some text) m0.
Proof.
  split.
  - unfold shown.
    destruct (editing (fold_left _ events _)) eqn:E; [done|].
    symmetry. by apply ui_steps_invariant.
  - by rewrite fold_left_app.
Qed.

(* ===================================================================== *)
(** * Strings survive JSON.stringify and JSON.parse *)
(* ===================================================================== *)


Lemma hexval_hex_digit (d : Z) : 0 <= d < 16 -> hexval (hex_digit d) = Some d.
Proof.
  intros H.
  assert (d = 0 \/ d = 1 \/ d = 2 \/ d = 3 \/ d = 4 \/ d = 5 \/ d = 6 \/ d = 7
          \/ d = 8 \/ d = 9 \/ d = 10 \/ d = 11 \/ d = 12 \/ d = 13 \/ d = 14
          \/ d = 15) as Hd by lia.
  repeat (destruct Hd as [->|Hd]; [reflexivity|]). by subst.
Qed.

Lemma value_in_base_hex4 (c : Z) :
  0 <= c < 65536 ->
  value_in_base 16 0
    [hex_digit (c / 4096 mod 16); hex_digit (c / 256 mod 16);
     hex_digit (c / 16 mod 16); hex_digit (c mod 16)] = Some c.
Proof.
  intros H.
  assert (B : forall x, 0 <= x mod 16 < 16) by (intros; apply Z.mod_pos_bound; lia).
  cbn [value_in_base]. rewrite !hexval_hex_digit by apply B.
  assert (L : forall x, (x mod 16 <? 16) = true)
    by (intros; apply Z.ltb_lt, B).
  rewrite !L. f_equal.
  pose proof (Z.div_mod c 16 ltac:(lia)).
  pose proof (Z.div_mod (c / 16) 16 ltac:(lia)).
  pose proof (Z.div_mod (c / 256) 16 ltac:(lia)).
  assert (c / 16 / 16 = c / 256) by (rewrite Z.div_div by lia; done).
  assert (c / 256 / 16 = c / 4096) by (rewrite Z.div_div by lia; done).
  assert (0 <= c / 4096 < 16).
  { split; [apply Z.div_pos; lia|apply Z.div_lt_upper_bound; lia]. }
  rewrite (Z.mod_small (c / 4096) 16) by done. lia.
Qed.

Lemma parse_string_escape (e u : Z) (t : jstring) :
  unescape e = Some u ->
  parse_string_chars (92 :: e :: t) = cons_char u (parse_string_chars t).
Proof.
  intros H. cbn [parse_string_chars].
  change (92 =? 34) with false. change (92 =? 92) with true. cbv iota.
  destruct (e =? 117) eqn:E.
  { apply Z.eqb_eq in E. subst. discriminate H. }
  by rewrite H.
Qed.

Lemma parse_string_unicode (c : Z) (t : jstring) :
  0 <= c < 65536 ->
  parse_string_chars (unicode_escape c ++ t)
  = cons_char c (parse_string_chars t).
Proof.
  intros H. unfold unicode_escape.
  change (js "\u") with [92; 117]. cbn [app parse_string_chars].
  change (92 =? 34) with false. change (92 =? 92) with true.
  change (117 =? 117) with true. cbv iota.
  by rewrite value_in_base_hex4.
Qed.

Lemma parse_string_plain (c : Z) (t : jstring) :
  c <> 34 -> c <> 92 -> 32 <= c ->
  parse_string_chars (c :: t) = cons_char c (parse_string_chars t).
Proof.
  intros H1 H2 H3. cbn [parse_string_chars].
  apply Z.eqb_neq in H1, H2. rewrite H1, H2.
  destruct (c <? 32) eqn:E; [apply Z.ltb_lt in E; lia|done].
Qed.

Lemma quote_chars_parse (n : nat) :
  forall s rest,
    (length s <= n)%nat ->
    code_units s ->
    parse_string_chars (quote_chars s ++ 34 :: rest) = Some (s, rest).
Proof.
  induction n as [|n IH]; intros s rest Hn Hs.
  - destruct s; [|simpl in Hn; lia]. simpl.
    cbn [parse_string_chars]. done.
  - destruct s as [|c r]; [by cbn [quote_chars app parse_string_chars]|].
    simpl in Hn. inversion Hs as [|? ? Hc Hr]; subst.
    assert (IHr : parse_string_chars (quote_chars r ++ 34 :: rest)
                  = Some (r, rest)) by (apply IH; [lia|done]).
    cbn [quote_chars].
    destruct (c =? 8) eqn:E8.
    { apply Z.eqb_eq in E8. subst. change (js "\b") with [92; 98].
      cbn [app]. by rewrite (parse_string_escape 98 8), IHr. }
    destruct (c =? 9) eqn:E9.
    { apply Z.eqb_eq in E9. subst. change (js "\t") with [92; 116].
      cbn [app]. by rewrite (parse_string_escape 116 9), IHr. }
    destruct (c =? 10) eqn:E10.
    { apply Z.eqb_eq in E10. subst. change (js "\n") with [92; 110].
      cbn [app]. by rewrite (parse_string_escape 110 10), IHr. }
    destruct (c =? 12) eqn:E12.
    { apply Z.eqb_eq in E12. subst. change (js "\f") with [92; 102].
      cbn [app]. by rewrite (parse_string_escape 102 12), IHr. }
    destruct (c =? 13) eqn:E13.
    { apply Z.eqb_eq in E13. subst. change (js "\r") with [92; 114].
      cbn [app]. by rewrite (parse_string_escape 114 13), IHr. }
    destruct (c =? 34) eqn:E34.
    { apply Z.eqb_eq in E34. subst.
      cbn [app]. by rewrite (parse_string_escape 34 34), IHr. }
    destruct (c =? 92) eqn:E92.
    { apply Z.eqb_eq in E92. subst.
      cbn [app]. by rewrite (parse_string_escape 92 92), IHr. }
    apply Z.eqb_neq in E34, E92.
    destruct (c <? 32) eqn:E32.
    { rewrite <- app_assoc, parse_string_unicode by done. by rewrite IHr. }
    apply Z.ltb_ge in E32.
    destruct (is_high_surrogate c) eqn:Eh.
    { destruct r as [|d r'].
      - rewrite parse_string_unicode by done.
        cbn [parse_string_chars]. done.
      - destruct (is_low_surrogate d) eqn:El.
        + simpl in Hn. inversion Hr as [|? ? Hd Hr']; subst.
          cbn [app]. rewrite parse_string_plain by done.
          unfold is_low_surrogate in El.
          apply andb_true_iff in El as [El _]. apply Z.leb_le in El.
          rewrite parse_string_plain by lia.
          rewrite IH by (done || lia). done.
        + rewrite <- app_assoc, parse_string_unicode by done. by rewrite IHr. }
    destruct (is_low_surrogate c).
    { rewrite <- app_assoc, parse_string_unicode by done. by rewrite IHr. }
    cbn [app]. rewrite parse_string_plain by done. by rewrite IHr.
Qed.

(** X18. A String survives printing and parsing: [JSON.parse] of
    [JSON.stringify] of a string is that string, whatever code units it
    holds (quotes, backslashes, control characters, lone surrogates). *)
Theorem string_stringify_parse (s : jstring) :
  code_units s ->
  JSON_parse (JSON_stringify2 (JStr s)) = Some (JStr s).
Proof.
  intros Hs. unfold JSON_parse, JSON_stringify2, serialize, quote_json.
  rewrite Nat.add_comm. cbn [Nat.add app parse_value skip_ws].
  change (is_json_ws 34) with false. cbv iota.
  change (34 =? 110) with false. change (34 =? 116) with false.
  change (34 =? 102) with false. change (34 =? 34) with true. cbv iota.
  by rewrite (quote_chars_parse (length s)).
Qed.

Lemma string_stringify_parse_witness :
  code_units [34; 92; 10; 1; 55357; 97]
  /\ JSON_parse (JSON_stringify2 (JStr [34; 92; 10; 1; 55357; 97]))
     = Some (JStr [34; 92; 10; 1; 55357; 97]).
Proof.
  split; [repeat constructor; lia|].
  apply (string_stringify_parse [34; 92; 10; 1; 55357; 97]).
  repeat constructor; lia.
Defined.

(* ===================================================================== *)
(** * Documents survive JSON.stringify and JSON.parse *)
(* ===================================================================== *)


Lemma tail_ok_not_digit (rest : jstring) (c : Z) (r : jstring) :
  tail_ok rest -> rest = c :: r ->
  is_digit c = false /\ c <> 46 /\ c <> 101 /\ c <> 69 /\ c <> 45 /\ c <> 43.
Proof. intros H ->. simpl in H. destruct H as [->| ->]; repeat split; done. Qed.

Lemma span_digits_app (a rest : jstring) :
  tail_ok rest ->
  span_digits (a ++ rest)
  = (fst (span_digits a), snd (span_digits a) ++ rest).
Proof.
  intros H. induction a as [|c a IH]; simpl.
  - destruct rest as [|c r]; [done|].
    destruct (tail_ok_not_digit _ _ _ H eq_refl) as [Hd _].
    simpl. by rewrite Hd.
  - destruct (is_digit c); [|done]. rewrite IH.
    by destruct (span_digits a).
Qed.

Lemma take_sign_app (a rest : jstring) :
  tail_ok rest ->
  take_sign (a ++ rest) = (fst (take_sign a), snd (take_sign a) ++ rest).
Proof.
  intros H. destruct a as [|c a]; simpl.
  - destruct rest as [|c r]; [done|].
    destruct (tail_ok_not_digit _ _ _ H eq_refl) as (_ & _ & _ & _ & H1 & H2).
    simpl. apply Z.eqb_neq in H1, H2. by rewrite H1, H2.
  - destruct (c =? 45); [done|]. by destruct (c =? 43).
Qed.

Lemma parse_fraction_app (a rest fp r : jstring) :
  tail_ok rest ->
  parse_fraction a = Some (fp, r) ->
  parse_fraction (a ++ rest) = Some (fp, r ++ rest).
Proof.
  intros H. destruct a as [|c a]; simpl.
  - intros [= <- <-]. destruct rest as [|c r]; [done|].
    destruct (tail_ok_not_digit _ _ _ H eq_refl) as (_ & H1 & _).
    simpl. apply Z.eqb_neq in H1. by rewrite H1.
  - destruct (c =? 46); [|by intros [= <- <-]].
    rewrite span_digits_app by done.
    destruct (span_digits a) as [fp' r']. simpl.
    destruct fp'; [done|]. by intros [= <- <-].
Qed.

Lemma parse_json_exponent_app (a rest r : jstring) (ex : Z) :
  tail_ok rest ->
  parse_json_exponent a = Some (ex, r) ->
  parse_json_exponent (a ++ rest) = Some (ex, r ++ rest).
Proof.
  intros H. destruct a as [|c a]; simpl.
  - intros [= <- <-]. destruct rest as [|c r]; [done|].
    destruct (tail_ok_not_digit _ _ _ H eq_refl) as (_ & _ & H1 & H2 & _).
    simpl. apply Z.eqb_neq in H1, H2. by rewrite H1, H2.
  - destruct ((c =? 101) || (c =? 69)); [|by intros [= <- <-]].
    rewrite take_sign_app by done.
    destruct (take_sign a) as [eneg r']. simpl.
    rewrite span_digits_app by done.
    destruct (span_digits r') as [ed r'']. simpl.
    destruct ed; [done|]. by intros [= <- <-].
Qed.

(** A number literal reads the same when something that cannot continue
    it follows. *)
Lemma parse_json_number_app (t rest : jstring) (n : Number) :
  tail_ok rest ->
  parse_json_number t = Some (n, []) ->
  parse_json_number (t ++ rest) = Some (n, rest).
Proof.
  intros H. unfold parse_json_number.
  assert (Hm : take_minus (t ++ rest)
               = (fst (take_minus t), snd (take_minus t) ++ rest)
               \/ t = []).
  { destruct t as [|c t]; [by right|]. left. simpl. by destruct (c =? 45). }
  destruct Hm as [Hm| ->]; [|done].
  rewrite Hm. destruct (take_minus t) as [neg s1]. simpl.
  rewrite span_digits_app by done.
  destruct (span_digits s1) as [ip r1]. simpl.
  destruct ip as [|c ip]; [done|].
  destruct (leading_zero (c :: ip)); [done|].
  destruct (parse_fraction r1) as [[fp r2]|] eqn:Ef; [|done].
  rewrite (parse_fraction_app _ _ _ _ H Ef).
  destruct (parse_json_exponent r2) as [[ex r3]|] eqn:Ee; [|done].
  rewrite (parse_json_exponent_app _ _ _ _ H Ee).
  by intros [= <- ->].
Qed.

(** A number literal starts with a minus sign or a digit. *)
Lemma parse_json_number_head (t : jstring) (n : Number) (r : jstring) :
  parse_json_number t = Some (n, r) ->
  exists c t', t = c :: t' /\ (c = 45 \/ is_digit c = true).
Proof.
  unfold parse_json_number. destruct t as [|c t']; [done|].
  intros H. exists c, t'. split; [done|].
  simpl in H. destruct (c =? 45) eqn:E; [left; by apply Z.eqb_eq|].
  right. simpl in H. destruct (is_digit c); [done|]. simpl in H. done.
Qed.

Lemma skip_ws_app_ws (w s : jstring) :
  forallb is_json_ws w = true -> skip_ws (w ++ s) = skip_ws s.
Proof.
  induction w as [|c w IH]; simpl; [done|].
  intros [Hc Hw]%andb_true_iff. rewrite Hc. by apply IH.
Qed.

Lemma skip_ws_id (c : Z) (s : jstring) :
  is_json_ws c = false -> skip_ws (c :: s) = c :: s.
Proof. simpl. by intros ->. Qed.

Lemma parse_value_skip (fuel : nat) (w s : jstring) :
  forallb is_json_ws w = true ->
  parse_value fuel (w ++ s) = parse_value fuel s.
Proof.
  intros H. destruct fuel as [|f]; [done|].
  cbn [parse_value]. by rewrite skip_ws_app_ws.
Qed.

Lemma after_char_skip (c : Z) (w s : jstring) :
  forallb is_json_ws w = true -> after_char c (w ++ s) = after_char c s.
Proof. intros H. unfold after_char. by rewrite skip_ws_app_ws. Qed.

Lemma after_char_hit (c : Z) (s : jstring) :
  is_json_ws c = false -> after_char c (c :: s) = Some s.
Proof.
  intros H. unfold after_char. rewrite skip_ws_id by done.
  by rewrite Z.eqb_refl.
Qed.

Lemma after_char_miss (c d : Z) (s : jstring) :
  is_json_ws d = false -> d <> c -> after_char c (d :: s) = None.
Proof.
  intros H Hne. unfold after_char. rewrite skip_ws_id by done.
  apply Z.eqb_neq in Hne. by rewrite Hne.
Qed.

Lemma key_before_irrefl (k : jstring) : ~ key_before k k.
Proof. unfold key_before. destruct (array_index k); [lia|congruence]. Qed.

Lemma StronglySorted_app_before {A : Type} (R : A -> A -> Prop)
  (l1 l2 : list A) (x : A) :
  StronglySorted R (l1 ++ x :: l2) -> Forall (fun y => R y x) l1.
Proof.
  induction l1 as [|a l1 IH]; simpl; intros H; [constructor|].
  apply StronglySorted_inv in H as [H1 H2]. constructor; [|by apply IH].
  rewrite Forall_forall in H2. apply H2. apply elem_of_app. right. by left.
Qed.

Lemma prop_insert_index_last {A : Type} (i : Z) (k : jstring) (v : A)
  (o : list (jstring * A)) :
  array_index k = Some i ->
  Forall (fun k' => key_before k' k) (map fst o) ->
  prop_insert_index i k v o = o ++ [(k, v)].
Proof.
  intros Hk. induction o as [|[k' v'] o IH]; simpl; intros H; [done|].
  inversion H as [|? ? Hb Ho]; subst. unfold key_before in Hb.
  rewrite Hk in Hb. destruct (array_index k') as [j|]; [|done].
  apply Z.ltb_lt in Hb. rewrite Hb. by rewrite IH.
Qed.

(** Defining a key that comes after all the keys there puts it last. *)
Lemma prop_define_last {A : Type} (k : jstring) (v : A) (o : list (jstring * A)) :
  Forall (fun k' => key_before k' k) (map fst o) ->
  prop_define k v o = o ++ [(k, v)].
Proof.
  intros H. unfold prop_define.
  destruct (prop_has k o) eqn:Hh.
  { apply prop_has_keys in Hh. rewrite Forall_forall in H.
    by destruct (key_before_irrefl k); apply H. }
  unfold prop_add. destruct (array_index k) as [i|] eqn:Hk; [|done].
  by apply prop_insert_index_last.
Qed.

Lemma own_order_define {A : Type} (acc ms : list (jstring * A)) (k : jstring)
  (v : A) :
  own_order (acc ++ (k, v) :: ms) -> prop_define k v acc = acc ++ [(k, v)].
Proof.
  unfold own_order. rewrite map_app. simpl. intros H.
  apply prop_define_last. by eapply StronglySorted_app_before.
Qed.

Lemma wf_json_array (elems : list Json) :
  wf_json (JArr elems) <-> Forall wf_json elems.
Proof.
  simpl. induction elems as [|e es IH]; split; try done.
  - intros [H1 H2]. constructor; [done|]. by apply IH.
  - inversion 1; subst. split; [done|]. by apply IH.
Qed.

Lemma wf_json_object (props : list (jstring * Json)) :
  wf_json (JObj props) <->
  own_order props
  /\ Forall (fun p => code_units (fst p) /\ wf_json (snd p)) props.
Proof.
  simpl. apply and_iff_compat_l.
  induction props as [|p ps IH]; split; try done.
  - intros [H1 H2]. constructor; [done|]. by apply IH.
  - inversion 1; subst. split; [done|]. by apply IH.
Qed.

(** ** The printed text *)

Lemma serialize_array_app (indent rest : jstring) (e : Json) (es : list Json) :
  serialize indent (JArr (e :: es)) ++ rest
  = 91 :: 10 :: (indent ++ gap2)
      ++ join (44 :: 10 :: indent ++ gap2)
           (map (serialize (indent ++ gap2)) (e :: es))
      ++ 10 :: indent ++ 93 :: rest.
Proof.
  cbn [serialize]. change (js "[") with [91]. change (js "]") with [93].
  change (js ",") with [44]. unfold newline.
  rewrite <- !app_assoc. reflexivity.
Qed.

Lemma serialize_object_app (indent rest : jstring) (p : jstring * Json)
  (ps : list (jstring * Json)) :
  serialize indent (JObj (p :: ps)) ++ rest
  = 123 :: 10 :: (indent ++ gap2)
      ++ join (44 :: 10 :: indent ++ gap2)
           (map (fun p => quote_json (fst p) ++ 58 :: 32
                            :: serialize (indent ++ gap2) (snd p))
              (p :: ps))
      ++ 10 :: indent ++ 125 :: rest.
Proof.
  cbn [serialize]. change (js "{") with [123]. change (js "}") with [125].
  change (js ",") with [44]. change (js ": ") with [58; 32]. unfold newline.
  rewrite <- !app_assoc. reflexivity.
Qed.

Lemma is_digit_range (c : Z) : is_digit c = true -> 48 <= c <= 57.
Proof. unfold is_digit. lia. Qed.

(** The first character of a printed value: no white space, and none of
    the closing bracket, the closing brace and the comma. *)
Lemma serialize_head (indent : jstring) (v : Json) :
  wf_json v ->
  exists c r,
    serialize indent v = c :: r
    /\ is_json_ws c = false /\ c <> 93 /\ c <> 125 /\ c <> 44.
Proof.
  intros H. destruct v as [|[]|n|s|[|e es]|[|p ps]];
    try (eexists _, _; split; [reflexivity|]; by repeat split).
  destruct H as [Hp Hf]. cbn [serialize]. rewrite Hf.
  destruct (parse_json_number_head _ _ _ Hp) as (c & t' & -> & Hc).
  exists c, t'. split; [done|].
  destruct Hc as [->|Hc]; [by repeat split|].
  apply is_digit_range in Hc. unfold is_json_ws.
  repeat split; lia.
Qed.

(** ** Reading the printed text *)


Lemma ws_inner (indent : jstring) :
  forallb is_json_ws indent = true ->
  forallb is_json_ws (10 :: indent ++ gap2) = true.
Proof. intros H. simpl. rewrite forallb_app, H. done. Qed.

Lemma ws_outer (indent : jstring) :
  forallb is_json_ws indent = true ->
  forallb is_json_ws (10 :: indent) = true.
Proof. intros H. simpl. done. Qed.

Lemma after_char_skip_line (c : Z) (indent s : jstring) :
  forallb is_json_ws indent = true ->
  after_char c (10 :: indent ++ s) = after_char c s.
Proof.
  intros H. change (10 :: indent ++ s) with ((10 :: indent) ++ s).
  by apply after_char_skip.
Qed.

Lemma parse_value_skip_space (fuel : nat) (s : jstring) :
  parse_value fuel (32 :: s) = parse_value fuel s.
Proof. by apply (parse_value_skip fuel [32]). Qed.

Lemma parse_elements_back (indent rest : jstring) (es : list Json) :
  forallb is_json_ws indent = true ->
  tail_ok rest ->
  Forall (parses_back (indent ++ gap2)) es ->
  es <> [] ->
  forall acc,
  exists f0, forall f,
      (f0 <= f)%nat ->
      parse_elements f acc
        ((10 :: indent ++ gap2)
           ++ join (44 :: 10 :: indent ++ gap2)
                (map (serialize (indent ++ gap2)) es)
           ++ 10 :: indent ++ 93 :: rest)
      = Some (JArr (acc ++ es), rest).
Proof.
  intros Hws Hrest Hall. induction Hall as [|e es He Hes IH]; [done|].
  intros _ acc. destruct es as [|e2 es].
  - destruct (He (10 :: indent ++ 93 :: rest)) as [f0 Hf0]; [by left|].
    exists (S f0). intros [|f] Hf; [lia|].
    cbn [parse_elements map join].
    rewrite parse_value_skip by by apply ws_inner.
    rewrite Hf0 by lia.
    rewrite (after_char_skip_line 44) by done.
    rewrite after_char_miss by done.
    rewrite (after_char_skip_line 93) by done.
    by rewrite after_char_hit.
  - destruct (IH ltac:(done) (acc ++ [e])) as [f1 Hf1].
    set (more := join (44 :: 10 :: indent ++ gap2)
                   (map (serialize (indent ++ gap2)) (e2 :: es))) in *.
    destruct (He (44 :: (10 :: indent ++ gap2)
                    ++ more ++ 10 :: indent ++ 93 :: rest))
      as [f0 Hf0]; [by right|].
    exists (S (max f0 f1)). intros [|f] Hf; [lia|].
    cbn [parse_elements].
    change (join (44 :: 10 :: indent ++ gap2)
              (map (serialize (indent ++ gap2)) (e :: e2 :: es)))
      with (serialize (indent ++ gap2) e
              ++ (44 :: 10 :: indent ++ gap2) ++ more).
    rewrite parse_value_skip by by apply ws_inner.
    rewrite <- !app_assoc.
    change ((44 :: 10 :: indent ++ gap2) ++ more ++ 10 :: indent ++ 93 :: rest)
      with (44 :: (10 :: indent ++ gap2) ++ more ++ 10 :: indent ++ 93 :: rest).
    rewrite Hf0 by lia. rewrite after_char_hit by done.
    rewrite Hf1 by lia. by rewrite <- app_assoc.
Qed.

Lemma parse_members_back (indent rest : jstring)
  (ms : list (jstring * Json)) :
  forallb is_json_ws indent = true ->
  tail_ok rest ->
  Forall (fun p => code_units (fst p) /\ parses_back (indent ++ gap2) (snd p))
    ms ->
  ms <> [] ->
  forall acc,
  own_order (acc ++ ms) ->
  exists f0, forall f,
      (f0 <= f)%nat ->
      parse_members f acc
        ((10 :: indent ++ gap2)
           ++ join (44 :: 10 :: indent ++ gap2)
                (map (fun p => quote_json (fst p) ++ 58 :: 32
                                 :: serialize (indent ++ gap2) (snd p)) ms)
           ++ 10 :: indent ++ 125 :: rest)
      = Some (JObj (acc ++ ms), rest).
Proof.
  intros Hws Hrest Hall. induction Hall as [|[k v] ms [Hk Hv] Hms IH]; [done|].
  intros _ acc Hord. simpl in Hk, Hv.
  pose proof (own_order_define _ _ _ _ Hord) as Hdef.
  assert (Hmember : forall R,
             (10 :: indent ++ gap2)
               ++ (quote_json k ++ 58 :: 32 :: serialize (indent ++ gap2) v) ++ R
             = (10 :: indent ++ gap2)
                 ++ 34 :: quote_chars k
                 ++ 34 :: 58 :: 32 :: serialize (indent ++ gap2) v ++ R).
  { intros R. unfold quote_json. rewrite <- !app_assoc. reflexivity. }
  destruct ms as [|m2 ms].
  - destruct (Hv (10 :: indent ++ 125 :: rest)) as [f0 Hf0]; [by left|].
    exists (S f0). intros [|f] Hf; [lia|].
    cbn [parse_members map join fst snd]. rewrite Hmember.
    rewrite after_char_skip by by apply ws_inner.
    rewrite after_char_hit by done.
    rewrite (quote_chars_parse (length k)) by done.
    rewrite after_char_hit by done.
    rewrite parse_value_skip_space.
    rewrite Hf0 by lia.
    rewrite (after_char_skip_line 44) by done.
    rewrite after_char_miss by done.
    rewrite (after_char_skip_line 125) by done.
    rewrite after_char_hit by done. by rewrite Hdef.
  - destruct (IH ltac:(done) (acc ++ [(k, v)])) as [f1 Hf1].
    { by rewrite <- app_assoc. }
    set (member := fun p : jstring * Json =>
                     quote_json (fst p) ++ 58 :: 32
                       :: serialize (indent ++ gap2) (snd p)) in *.
    set (more := join (44 :: 10 :: indent ++ gap2) (map member (m2 :: ms))) in *.
    destruct (Hv (44 :: (10 :: indent ++ gap2)
                    ++ more ++ 10 :: indent ++ 125 :: rest))
      as [f0 Hf0]; [by right|].
    exists (S (max f0 f1)). intros [|f] Hf; [lia|].
    cbn [parse_members].
    change (join (44 :: 10 :: indent ++ gap2) (map member ((k, v) :: m2 :: ms)))
      with ((quote_json k ++ 58 :: 32 :: serialize (indent ++ gap2) v)
              ++ (44 :: 10 :: indent ++ gap2) ++ more).
    rewrite <- (app_assoc (quote_json k ++ _)). rewrite Hmember.
    rewrite after_char_skip by by apply ws_inner.
    rewrite after_char_hit by done.
    rewrite (quote_chars_parse (length k)) by done.
    rewrite after_char_hit by done.
    rewrite parse_value_skip_space.
    rewrite <- !app_assoc.
    change ((44 :: 10 :: indent ++ gap2) ++ more ++ 10 :: indent ++ 125 :: rest)
      with (44 :: (10 :: indent ++ gap2) ++ more ++ 10 :: indent ++ 125 :: rest).
    rewrite Hf0 by lia. rewrite after_char_hit by done.
    rewrite Hdef, Hf1 by lia. by rewrite <- app_assoc.
Qed.

Lemma startsWith_app (p rest : jstring) : startsWith (p ++ rest) p = true.
Proof.
  induction p as [|c p IH]; simpl; [by destruct rest|].
  by rewrite Z.eqb_refl.
Qed.

Lemma expect_app (lit : jstring) (v : Json) (rest : jstring) :
  expect lit v (lit ++ rest) = Some (v, rest).
Proof. unfold expect. by rewrite startsWith_app, drop_app_length. Qed.

Lemma parse_value_null (f : nat) (rest : jstring) :
  parse_value (S f) (js "null" ++ rest) = Some (JNull, rest).
Proof.
  change (js "null" ++ rest) with (110 :: [117; 108; 108] ++ rest).
  cbn [parse_value]. rewrite skip_ws_id by done.
  exact (expect_app (js "null") JNull rest).
Qed.

Lemma parse_value_true (f : nat) (rest : jstring) :
  parse_value (S f) (js "true" ++ rest) = Some (JBool true, rest).
Proof.
  change (js "true" ++ rest) with (116 :: [114; 117; 101] ++ rest).
  cbn [parse_value]. rewrite skip_ws_id by done.
  exact (expect_app (js "true") (JBool true) rest).
Qed.

Lemma parse_value_false (f : nat) (rest : jstring) :
  parse_value (S f) (js "false" ++ rest) = Some (JBool false, rest).
Proof.
  change (js "false" ++ rest) with (102 :: [97; 108; 115; 101] ++ rest).
  cbn [parse_value]. rewrite skip_ws_id by done.
  exact (expect_app (js "false") (JBool false) rest).
Qed.

Lemma parse_value_number (f : nat) (t rest : jstring) (n : Number) :
  tail_ok rest ->
  parse_json_number t = Some (n, []) ->
  parse_value (S f) (t ++ rest) = Some (JNum n, rest).
Proof.
  intros Hrest Hp.
  pose proof (parse_json_number_app _ _ _ Hrest Hp) as Happ.
  destruct (parse_json_number_head _ _ _ Hp) as (c & t' & -> & Hc).
  change ((c :: t') ++ rest) with (c :: t' ++ rest) in *.
  assert (Hr : c = 45 \/ 48 <= c <= 57).
  { destruct Hc as [?|Hc]; [by left|right; by apply is_digit_range]. }
  cbn [parse_value]. rewrite skip_ws_id by (unfold is_json_ws; lia).
  assert (Hne : forall d, d <> 45 -> ~ 48 <= d <= 57 -> (c =? d) = false).
  { intros d H1 H2. apply Z.eqb_neq. lia. }
  rewrite !Hne by lia. by rewrite Happ.
Qed.

Lemma parse_value_string (f : nat) (s rest : jstring) :
  code_units s ->
  parse_value (S f) (quote_json s ++ rest) = Some (JStr s, rest).
Proof.
  intros Hs. unfold quote_json. rewrite <- !app_assoc.
  change ([34] ++ quote_chars s ++ [34] ++ rest)
    with (34 :: quote_chars s ++ 34 :: rest).
  cbn [parse_value]. rewrite skip_ws_id by done.
  change (34 =? 110) with false. change (34 =? 116) with false.
  change (34 =? 102) with false. change (34 =? 34) with true. cbv iota.
  by rewrite (quote_chars_parse (length s)).
Qed.

Lemma serialize_parses_back (v : Json) :
  wf_json v ->
  forall indent, forallb is_json_ws indent = true -> parses_back indent v.
Proof.
  induction v as [|b|n|s|elems IH|props IH] using Json_nested_ind;
    intros Hwf indent Hws rest Hrest.
  - exists 1%nat. intros [|f] Hf; [lia|]. apply parse_value_null.
  - exists 1%nat. intros [|f] Hf; [lia|].
    destruct b; [apply parse_value_true|apply parse_value_false].
  - destruct Hwf as [Hp Hfin]. exists 1%nat. intros [|f] Hf; [lia|].
    cbn [serialize]. rewrite Hfin. by apply parse_value_number.
  - exists 1%nat. intros [|f] Hf; [lia|]. by apply parse_value_string.
  - apply wf_json_array in Hwf. destruct elems as [|e es].
    { exists 1%nat. intros [|f] Hf; [lia|].
      change (serialize indent (JArr []) ++ rest) with (91 :: 93 :: rest).
      cbn [parse_value]. rewrite skip_ws_id by done.
      change (91 =? 110) with false. change (91 =? 116) with false.
      change (91 =? 102) with false. change (91 =? 34) with false.
      change (91 =? 91) with true. cbv iota.
      by rewrite after_char_hit. }
    assert (Hall : Forall (parses_back (indent ++ gap2)) (e :: es)).
    { rewrite Forall_forall in *. intros x Hx.
      apply IH; [done|by apply Hwf|]. by rewrite forallb_app, Hws. }
    destruct (parse_elements_back indent rest (e :: es) Hws Hrest Hall
                ltac:(done) []) as [f0 Hf0].
    exists (S f0). intros [|f] Hf; [lia|].
    rewrite serialize_array_app. cbn [parse_value].
    rewrite skip_ws_id by done.
    change (91 =? 110) with false. change (91 =? 116) with false.
    change (91 =? 102) with false. change (91 =? 34) with false.
    change (91 =? 91) with true. cbv iota.
    inversion Hwf as [|? ? He _]; subst.
    destruct (serialize_head (indent ++ gap2) e He)
      as (c & r & Ec & Hc & Hc93 & _).
    assert (after_char 93
              (10 :: (indent ++ gap2)
                 ++ join (44 :: 10 :: indent ++ gap2)
                      (map (serialize (indent ++ gap2)) (e :: es))
                 ++ 10 :: indent ++ 93 :: rest) = None) as ->.
    { rewrite after_char_skip_line by by rewrite forallb_app, Hws.
      destruct es; cbn [map join]; rewrite Ec; cbn [app];
        by apply after_char_miss. }
    exact (Hf0 f ltac:(lia)).
  - apply wf_json_object in Hwf as [Hord Hwf]. destruct props as [|p ps].
    { exists 1%nat. intros [|f] Hf; [lia|].
      change (serialize indent (JObj []) ++ rest) with (123 :: 125 :: rest).
      cbn [parse_value]. rewrite skip_ws_id by done.
      change (123 =? 110) with false. change (123 =? 116) with false.
      change (123 =? 102) with false. change (123 =? 34) with false.
      change (123 =? 91) with false. change (123 =? 123) with true. cbv iota.
      by rewrite after_char_hit. }
    assert (Hall : Forall (fun p => code_units (fst p)
                                    /\ parses_back (indent ++ gap2) (snd p))
                     (p :: ps)).
    { rewrite Forall_forall in *. intros x Hx.
      destruct (Hwf x Hx) as [Hk Hv]. split; [done|].
      apply IH; [done|done|]. by rewrite forallb_app, Hws. }
    destruct (parse_members_back indent rest (p :: ps) Hws Hrest Hall
                ltac:(done) [] Hord) as [f0 Hf0].
    exists (S f0). intros [|f] Hf; [lia|].
    rewrite serialize_object_app. cbn [parse_value].
    rewrite skip_ws_id by done.
    change (123 =? 110) with false. change (123 =? 116) with false.
    change (123 =? 102) with false. change (123 =? 34) with false.
    change (123 =? 91) with false. change (123 =? 123) with true. cbv iota.
    assert (after_char 125
              (10 :: (indent ++ gap2)
                 ++ join (44 :: 10 :: indent ++ gap2)
                      (map (fun p => quote_json (fst p) ++ 58 :: 32
                                       :: serialize (indent ++ gap2) (snd p))
                         (p :: ps))
                 ++ 10 :: indent ++ 125 :: rest) = None) as ->.
    { rewrite after_char_skip_line by by rewrite forallb_app, Hws.
      destruct ps; cbn [map join]; unfold quote_json; cbn [app];
        by apply after_char_miss. }
    exact (Hf0 f ltac:(lia)).
Qed.

(** What [JSON.stringify] prints of a well-formed value, [JSON.parse] reads
    back. *)
Lemma JSON_parse_stringify (v : Json) :
  wf_json v -> JSON_parse (JSON_stringify2 v) = Some v.
Proof.
  intros Hwf.
  destruct (serialize_parses_back v Hwf [] eq_refl [] I) as [f0 Hf0].
  rewrite app_nil_r in Hf0. unfold JSON_parse, JSON_stringify2.
  rewrite <- (parse_value_fuel_enough _
                (max f0 (2 * length (serialize [] v) + 2))) by lia.
  by rewrite Hf0 by lia.
Qed.

(** X19. A well-formed document survives printing and parsing:
    [JSON.parse(JSON.stringify(v, null, 2))] is [v]. *)
Theorem stringify_parse (v : Json) :
  wf_json v -> JSON_parse (JSON_stringify2 v) = Some v.
Proof. apply JSON_parse_stringify. Qed.

Lemma code_units_check (s : jstring) :
  forallb (fun c => (0 <=? c) && (c <? 65536)) s = true -> code_units s.
Proof.
  intros H. rewrite forallb_forall in H. apply Forall_forall.
  intros c Hc%list_elem_of_In%H. lia.
Qed.

(** Well-formedness of a concrete document, by evaluation. *)
Ltac wf_tac :=
  repeat match goal with
         | |- context [fst (_, _)] => cbn [fst snd]
         | |- context [snd (_, _)] => cbn [fst snd]
         | |- wf_json (JObj _) => apply wf_json_object; split
         | |- wf_json (JArr _) => apply wf_json_array
         | |- wf_json (JNum _) => split; vm_compute; reflexivity
         | |- wf_json (JStr _) => apply code_units_check; vm_compute; reflexivity
         | |- wf_json JNull => exact I
         | |- wf_json (JBool _) => exact I
         | |- True => exact I
         | |- seg_ok (SIdx _) => exact I
         | |- seg_ok (SKey _) => apply code_units_check; vm_compute; reflexivity
         | |- row_ok _ => unfold row_ok; cbn [key value json_of_prim]; split
         | |- code_units _ => apply code_units_check; vm_compute; reflexivity
         | |- own_order _ => unfold own_order; cbn [map fst]
         | |- StronglySorted _ _ => constructor
         | |- Forall _ _ => constructor
         | |- key_before _ _ => vm_compute; congruence
         | |- _ /\ _ => split
         end.

Lemma doc_ab_wf : wf_json doc_ab.
Proof. unfold doc_ab. wf_tac. Qed.

Lemma stringify_parse_witness :
  wf_json doc_ab /\ JSON_parse (JSON_stringify2 doc_ab) = Some doc_ab.
Proof.
  split; [exact doc_ab_wf|exact (stringify_parse doc_ab doc_ab_wf)].
Defined.

Lemma array_index_bound (k : jstring) (i : Z) :
  array_index k = Some i -> 0 <= i < 2 ^ 32 - 1.
Proof.
  intros H. split; [by eapply array_index_nonneg|].
  unfold array_index in H. destruct k as [|c r]; [done|].
  destruct (forallb is_digit (c :: r)); [|done].
  destruct (negb (c =? 48) || (length r =? 0)%nat); [|done].
  simpl in H. destruct (_ <? _) eqn:E; [|done].
  apply Z.ltb_lt in E. by injection H as <-.
Qed.

Lemma array_index_inj (k1 k2 : jstring) (i : Z) :
  array_index k1 = Some i -> array_index k2 = Some i -> k1 = k2.
Proof.
  intros H1%array_index_digits_of H2%array_index_digits_of. congruence.
Qed.

(** Keys after a key that is no array index are no array indices. *)
Lemma own_order_after_name (k : jstring) (ks : list jstring) :
  array_index k = None ->
  Forall (key_before k) ks ->
  Forall (fun k' => array_index k' = None) ks.
Proof.
  intros Hk H. eapply Forall_impl; [exact H|]. intros k'.
  unfold key_before. rewrite Hk. by destruct (array_index k').
Qed.

Lemma prop_insert_index_order {A : Type} (i : Z) (k : jstring) (v : A)
  (o : list (jstring * A)) :
  array_index k = Some i ->
  k ∉ map fst o ->
  own_order o -> own_order (prop_insert_index i k v o).
Proof.
  unfold own_order. intros Hk.
  induction o as [|[k' v'] o IH]; simpl; intros Hin Ho.
  { repeat constructor. }
  apply StronglySorted_inv in Ho as [Ho Hall].
  apply not_elem_of_cons in Hin as [Hne Hin].
  destruct (array_index k') as [j|] eqn:Hk'.
  - destruct (j <? i) eqn:E.
    + simpl. constructor; [by apply IH|].
      apply Forall_forall. intros x Hx.
      rewrite prop_insert_index_keys in Hx.
      apply elem_of_cons in Hx as [->|Hx].
      * unfold key_before. rewrite Hk', Hk. lia.
      * rewrite Forall_forall in Hall. by apply Hall.
    + simpl. constructor; [by constructor|].
      assert (Hij : i < j).
      { apply Z.ltb_ge in E. destruct (Z.eq_dec i j) as [->|]; [|lia].
        destruct Hne. by eapply array_index_inj. }
      constructor.
      * unfold key_before. by rewrite Hk, Hk'.
      * eapply Forall_impl; [exact Hall|]. intros x. unfold key_before.
        rewrite Hk, Hk'. destruct (array_index x); [lia|done].
  - simpl. constructor; [by constructor|].
    constructor; [unfold key_before; by rewrite Hk, Hk'|].
    eapply Forall_impl; [exact (own_order_after_name _ _ Hk' Hall)|].
    intros x Hx. unfold key_before. by rewrite Hk, Hx.
Qed.

Lemma StronglySorted_snoc {A : Type} (R : A -> A -> Prop) (l : list A) (x : A) :
  StronglySorted R l -> Forall (fun y => R y x) l ->
  StronglySorted R (l ++ [x]).
Proof.
  induction l as [|a l IH]; simpl; intros Hs Hall.
  { repeat constructor. }
  apply StronglySorted_inv in Hs as [Hs Ha].
  inversion Hall; subst. constructor; [by apply IH|].
  apply Forall_app. split; [done|]. by constructor.
Qed.

Lemma prop_add_order {A : Type} (k : jstring) (v : A) (o : list (jstring * A)) :
  k ∉ map fst o -> own_order o -> own_order (prop_add k v o).
Proof.
  intros Hin Ho. unfold prop_add.
  destruct (array_index k) as [i|] eqn:Hk; [by apply prop_insert_index_order|].
  unfold own_order. rewrite map_app. apply StronglySorted_snoc; [done|].
  apply Forall_forall. intros x Hx. unfold key_before. cbn [fst].
  rewrite Hk. destruct (array_index x); [done|]. by intros ->.
Qed.

Lemma prop_set_order {A : Type} (k : jstring) (v : A) (o : list (jstring * A)) :
  own_order o -> own_order (prop_set k v o).
Proof.
  intros Ho. unfold prop_set. destruct (prop_has k o) eqn:Hh.
  - unfold own_order. by rewrite prop_replace_keys.
  - destruct (jstring_eqb k proto_key); [done|].
    apply prop_add_order; [|done]. rewrite <- prop_has_keys. by rewrite Hh.
Qed.

Lemma prop_replace_Forall {A : Type} (K : jstring -> Prop) (W : A -> Prop)
  (k : jstring) (v : A) (o : list (jstring * A)) :
  Forall (fun p => K (fst p) /\ W (snd p)) o -> W v ->
  Forall (fun p => K (fst p) /\ W (snd p)) (prop_replace k v o).
Proof.
  intros Ho Hv. induction Ho as [|[k' v'] o [Hk Hw] Ho IH]; simpl; [done|].
  destruct (jstring_eqb k' k); constructor; done.
Qed.

Lemma prop_insert_index_Forall {A : Type} (Q : jstring * A -> Prop) (i : Z)
  (k : jstring) (v : A) (o : list (jstring * A)) :
  Forall Q o -> Q (k, v) -> Forall Q (prop_insert_index i k v o).
Proof.
  intros Ho Hv. induction Ho as [|[k' v'] o Hp Ho IH]; simpl.
  { by constructor. }
  destruct (array_index k') as [j|]; [destruct (j <? i)|];
    repeat constructor; done.
Qed.

Lemma prop_set_Forall {A : Type} (K : jstring -> Prop) (W : A -> Prop)
  (k : jstring) (v : A) (o : list (jstring * A)) :
  Forall (fun p => K (fst p) /\ W (snd p)) o -> K k -> W v ->
  Forall (fun p => K (fst p) /\ W (snd p)) (prop_set k v o).
Proof.
  intros Ho Hk Hv. unfold prop_set.
  destruct (prop_has k o); [by apply prop_replace_Forall|].
  destruct (jstring_eqb k proto_key); [done|].
  unfold prop_add. destruct (array_index k).
  - by apply prop_insert_index_Forall.
  - apply Forall_app. split; [done|]. by constructor.
Qed.

Lemma prop_get_Forall {A : Type} (Q : jstring * A -> Prop) (k : jstring)
  (v : A) (o : list (jstring * A)) :
  Forall Q o -> prop_get k o = Some v -> exists k', Q (k', v).
Proof.
  induction 1 as [|[k' v'] o Hp Ho IH]; simpl; [done|].
  destruct (jstring_eqb k' k); [|done]. intros [= <-]. by exists k'.
Qed.

Lemma code_units_digits (n : Z) : 0 <= n -> code_units (digits_of n).
Proof.
  intros H. pose proof (digits_of_all_digits n H) as Hd.
  unfold code_units. rewrite forallb_forall in Hd.
  apply Forall_forall. intros c Hc%list_elem_of_In%Hd%is_digit_range. lia.
Qed.

Lemma code_units_int (i : Z) : code_units (int_to_string i).
Proof.
  unfold int_to_string. destruct (i <? 0) eqn:E.
  - constructor; [lia|]. apply code_units_digits. lia.
  - apply code_units_digits. lia.
Qed.

Lemma key_before_digits (i j : Z) :
  0 <= i < j -> key_before (digits_of i) (digits_of j).
Proof.
  intros Hij. unfold key_before.
  destruct (array_index (digits_of i)) as [a|] eqn:Ha;
    destruct (array_index (digits_of j)) as [b|] eqn:Hb; try done.
  - apply array_index_value in Ha, Hb.
    rewrite digits_of_value in Ha, Hb by lia. lia.
  - apply array_index_bound in Hb as Hb'. apply array_index_value in Hb.
    rewrite digits_of_value in Hb by lia. subst b.
    rewrite array_index_of_digits in Ha by lia. done.
  - intros E. apply (f_equal digits_value) in E.
    rewrite !digits_of_value in E by lia. lia.
Qed.

Lemma spread_string_order (s : jstring) (n : nat) :
  StronglySorted key_before
    (map fst (imap (fun i c => (digits_of (Z.of_nat (n + i)), JStr [c])) s)).
Proof.
  revert n. induction s as [|c s IH]; intros n; simpl; [constructor|].
  constructor.
  - rewrite (imap_ext _ (fun i c => (digits_of (Z.of_nat (S n + i)), JStr [c])));
      [apply IH|].
    intros i x _. simpl. do 3 f_equal. lia.
  - apply Forall_forall. intros k Hk.
    apply list_elem_of_fmap in Hk as ([k' v'] & -> & Hk).
    apply elem_of_lookup_imap in Hk as (i & x & E & _).
    injection E as -> ->. simpl. apply key_before_digits. lia.
Qed.

Lemma spread_wf (json : option Json) :
  wf_opt json ->
  own_order (spread json)
  /\ Forall (fun p => code_units (fst p) /\ wf_json (snd p)) (spread json).
Proof.
  destruct json as [[| | |s| |props]|]; simpl; intros H;
    try (split; [constructor|constructor]).
  - split.
    + apply (spread_string_order s 0).
    + apply Forall_forall. intros [k v] Hk.
      apply elem_of_lookup_imap in Hk as (i & x & E & Hx).
      injection E as -> ->. split; [apply code_units_digits; lia|].
      simpl. constructor; [|constructor].
      unfold code_units in H. rewrite Forall_forall in H.
      apply H. by eapply list_elem_of_lookup_2.
  - by apply (wf_json_object props).
Qed.

(** Updating keeps a document well formed, whatever the path. *)
Lemma update_wf (P : list Segment) :
  forall json V,
    wf_opt json -> wf_json V -> Forall seg_ok P ->
    wf_json (updateJsonAtPath json P V).
Proof.
  induction P as [|first rest IH]; intros json V Hj HV HP.
  { by rewrite update_nil. }
  inversion HP as [|? ? Hfirst Hrest]; subst.
  destruct (is_array json) eqn:Ha.
  - destruct json as [[| | | |es|]|]; try done.
    rewrite update_cons_array. simpl in Hj. apply wf_json_array in Hj.
    destruct (guarded_index first (length es)) as [index|];
      [|by apply wf_json_array].
    apply wf_json_array. apply Forall_insert; [done|].
    apply IH; [|done|done].
    destruct (es !! index) as [e|] eqn:L; [|done]. simpl.
    rewrite Forall_forall in Hj. apply Hj. by eapply list_elem_of_lookup_2.
  - rewrite update_cons_object by done.
    destruct (spread_wf json Hj) as [Ho Hall].
    apply wf_json_object. split; [by apply prop_set_order|].
    apply (prop_set_Forall code_units wf_json); [done| |].
    + destruct first; [apply code_units_int|done].
    + apply IH; [|done|done].
      destruct (prop_get (prop_key first) (spread json)) as [c|] eqn:G; [|done].
      destruct (prop_get_Forall _ _ _ _ Hall G) as [k' [_ Hc]]. done.
Qed.

(** X20. An update keeps a document well formed: its strings and keys are
    made of code units, the keys of every mapping are in the order of own
    property keys, each once, and its numbers print back; whatever the path,
    valid or not. *)
Theorem update_keeps_wf (D V : Json) (P : list Segment) :
  wf_json D -> wf_json V -> Forall seg_ok P ->
  wf_json (updateJsonAtPath (Some D) P V).
Proof. intros HD HV HP. by apply update_wf. Qed.

Lemma update_keeps_wf_witness :
  wf_json (updateJsonAtPath (Some doc_ab) [SKey (js "b"); SKey (js "7")]
             (JStr (js "x"))).
Proof.
  apply (update_keeps_wf doc_ab (JStr (js "x")) [SKey (js "b"); SKey (js "7")]).
  - exact doc_ab_wf.
  - wf_tac.
  - wf_tac.
Defined.

Lemma handleSave_success (P : list Segment) (text : jstring) (st : AppState)
  (D V : Json) :
  JSON_parse (json st) = Some D -> coerce text = Value V ->
  handleSave (Some P) text st
  = mkState (JSON_stringify2 (updateJsonAtPath (Some D) P V))
      (JSON_stringify2 (updateJsonAtPath (Some D) P V)) true
      (toasts st ++ [SuccessUpdated]) false.
Proof. intros HD HV. unfold handleSave. by rewrite HV, HD. Qed.

(** X21. What a successful save stores is a text that reads back as the
    updated document: the next [JSON.parse(getJson())] yields
    [updateJsonAtPath(currentJson, path, newValue)]. *)
Theorem save_then_reload (P : list Segment) (text : jstring) (st : AppState)
  (D V : Json) :
  JSON_parse (json st) = Some D -> wf_json D ->
  coerce text = Value V -> wf_json V ->
  Forall seg_ok P ->
  JSON_parse (json (handleSave (Some P) text st))
  = Some (updateJsonAtPath (Some D) P V).
Proof.
  intros HD HwD HV HwV HP. rewrite (handleSave_success P text st D V) by done.
  simpl. apply JSON_parse_stringify. by apply update_wf.
Qed.

(** X22. When the stored document and the new value are well formed (code
    units in strings and keys, keys in own-property order, numbers that
    print back), saving the same text at the same path a second time stores
    the same text again: the second save changes nothing but the toasts. *)
Theorem save_twice (P : list Segment) (text : jstring) (st : AppState)
  (D V : Json) :
  JSON_parse (json st) = Some D -> wf_json D ->
  coerce text = Value V -> wf_json V ->
  Forall seg_ok P ->
  let st1 := handleSave (Some P) text st in
  let st2 := handleSave (Some P) text st1 in
  json st2 = json st1 /\ contents st2 = contents st1
  /\ hasChanges st2 = hasChanges st1 /\ isEditing st2 = isEditing st1
  /\ toasts st2 = toasts st1 ++ [SuccessUpdated].
Proof.
  intros HD HwD HV HwV HP st1 st2.
  assert (H1 : JSON_parse (json st1) = Some (updateJsonAtPath (Some D) P V)).
  { subst st1. rewrite (handleSave_success P text st D V) by done.
    simpl. apply JSON_parse_stringify. by apply update_wf. }
  subst st2. rewrite (handleSave_success P text st1 _ V H1 HV).
  rewrite update_update. subst st1.
  by rewrite (handleSave_success P text st D V).
Qed.

Lemma prop_define_order {A : Type} (k : jstring) (v : A)
  (o : list (jstring * A)) :
  own_order o -> own_order (prop_define k v o).
Proof.
  intros Ho. unfold prop_define. destruct (prop_has k o) eqn:Hh.
  - unfold own_order. by rewrite prop_replace_keys.
  - apply prop_add_order; [|done]. rewrite <- prop_has_keys. by rewrite Hh.
Qed.

Lemma prop_define_Forall {A : Type} (K : jstring -> Prop) (W : A -> Prop)
  (k : jstring) (v : A) (o : list (jstring * A)) :
  Forall (fun p => K (fst p) /\ W (snd p)) o -> K k -> W v ->
  Forall (fun p => K (fst p) /\ W (snd p)) (prop_define k v o).
Proof.
  intros Ho Hk Hv. unfold prop_define.
  destruct (prop_has k o); [by apply prop_replace_Forall|].
  unfold prop_add. destruct (array_index k).
  - by apply prop_insert_index_Forall.
  - apply Forall_app. split; [done|]. by constructor.
Qed.

Lemma assign_wf (k : jstring) (v : Json) (obj : RowObject) :
  code_units k -> wf_json v ->
  own_order (own obj) ->
  Forall (fun p => code_units (fst p) /\ wf_json (snd p)) (own obj) ->
  own_order (own (assign k v obj))
  /\ Forall (fun p => code_units (fst p) /\ wf_json (snd p))
       (own (assign k v obj)).
Proof.
  intros Hk Hv Ho Hall. unfold assign. destruct (proto_null obj); simpl.
  - split; [by apply prop_define_order|].
    by apply (prop_define_Forall code_units wf_json).
  - split; [by apply prop_set_order|].
    by apply (prop_set_Forall code_units wf_json).
Qed.

Lemma rows_object_wf (rows : list NodeRow) :
  forall obj,
    Forall row_ok rows ->
    own_order (own obj) ->
    Forall (fun p => code_units (fst p) /\ wf_json (snd p)) (own obj) ->
    own_order (own (fold_left add_row rows obj))
    /\ Forall (fun p => code_units (fst p) /\ wf_json (snd p))
         (own (fold_left add_row rows obj)).
Proof.
  induction rows as [|r rows IH]; intros obj Hrows Ho Hall; [done|].
  inversion Hrows as [|? ? [Hk Hv] Hrows']; subst. simpl.
  assert (Hstep : own_order (own (add_row obj r))
                  /\ Forall (fun p => code_units (fst p) /\ wf_json (snd p))
                       (own (add_row obj r))).
  { rewrite add_row_kept. destruct (key r) as [k|]; [|done].
    destruct (kept r); [|done]. by apply assign_wf. }
  destruct Hstep. by apply IH.
Qed.

Lemma normalize_object (rows : list NodeRow) :
  match rows with [r] => key_truthy (key r) = true | _ => True end ->
  normalizeNodeData rows = JSON_stringify2 (JObj (rows_object rows)).
Proof.
  destruct rows as [|r [|r' rows]]; [done| |done].
  unfold normalizeNodeData. simpl. by intros ->.
Qed.

(** X23. Of a node that is not a single unkeyed row, and whose rows have
    keys made of code units and values that print back (a Number finite and
    not the negative zero), the text the modal shows reads back, by the
    coercion of [handleSave], as the mapping of the node's scalar rows. *)
Theorem normalize_then_coerce (rows : list NodeRow) :
  Forall row_ok rows ->
  match rows with [r] => key_truthy (key r) = true | _ => True end ->
  coerce (normalizeNodeData rows) = Value (JObj (rows_object rows)).
Proof.
  intros Hrows Hshape. rewrite normalize_object by done.
  unfold coerce. rewrite JSON_parse_stringify; [done|].
  apply wf_json_object. unfold rows_object.
  apply rows_object_wf; [done|constructor|constructor].
Qed.

(** X24. Of a node that is a single unkeyed row whose value is [null], a
    Boolean or a Number that prints back (finite and not the negative
    zero), the text the modal shows reads back as that value. *)
Theorem normalize_then_coerce_scalar (r : NodeRow) :
  key_truthy (key r) = false ->
  wf_json (json_of_prim (value r)) ->
  (forall s, value r <> PStr s) ->
  coerce (normalizeNodeData [r]) = Value (json_of_prim (value r)).
Proof.
  intros Hk Hw Hs. unfold normalizeNodeData. simpl. rewrite Hk. simpl.
  destruct (value r) as [|[]|n|s]; try reflexivity.
  - simpl in Hw. destruct Hw as [Hp Hfin].
    change (template (PNum n)) with (Number_toString n).
    replace (Number_toString n) with (JSON_stringify2 (JNum n))
      by (unfold JSON_stringify2; simpl; by rewrite Hfin).
    unfold coerce. by rewrite JSON_parse_stringify.
  - by destruct (Hs s).
Qed.

Lemma save_then_reload_witness :
  JSON_parse (json (handleSave (Some [SKey (js "a"); SIdx 1]) (js "null") st_ab))
  = Some (updateJsonAtPath (Some doc_ab) [SKey (js "a"); SIdx 1] JNull).
Proof.
  apply (save_then_reload [SKey (js "a"); SIdx 1] (js "null") st_ab doc_ab JNull).
  - vm_compute; reflexivity.
  - exact doc_ab_wf.
  - vm_compute; reflexivity.
  - exact I.
  - wf_tac.
Defined.

Lemma save_twice_witness :
  json (handleSave (Some [SKey (js "b")]) (js "7")
          (handleSave (Some [SKey (js "b")]) (js "7") st_ab))
  = json (handleSave (Some [SKey (js "b")]) (js "7") st_ab).
Proof.
  apply (save_twice [SKey (js "b")] (js "7") st_ab doc_ab (JNum (num_of_Z 7))).
  - vm_compute; reflexivity.
  - exact doc_ab_wf.
  - vm_compute; reflexivity.
  - split; vm_compute; reflexivity.
  - wf_tac.
Defined.

Lemma normalize_then_coerce_witness :
  coerce (normalizeNodeData rows_a_b)
  = Value (JObj [(js "a", JNum (num_of_Z 1))]).
Proof.
  apply (normalize_then_coerce rows_a_b).
  - unfold rows_a_b. wf_tac.
  - exact I.
Defined.

Lemma normalize_then_coerce_scalar_witness :
  coerce (normalizeNodeData [mkRow None (PBool true) TBoolean])
  = Value (JBool true).
Proof.
  apply (normalize_then_coerce_scalar (mkRow None (PBool true) TBoolean)).
  - reflexivity.
  - exact I.
  - intros s. discriminate.
Defined.

(** Splitting at the first occurrence of a character. *)
Lemma split_at_first (c : Z) (a a' r r' : jstring) :
  c ∉ a -> c ∉ a' -> a ++ c :: r = a' ++ c :: r' -> a = a' /\ r = r'.
Proof.
  revert a'. induction a as [|x a IH]; intros [|x' a'] Ha Ha' E; simpl in E.
  - by injection E as ->.
  - injection E as <- _. by apply not_elem_of_cons in Ha' as [? _].
  - injection E as -> _. by apply not_elem_of_cons in Ha as [? _].
  - injection E as -> E.
    apply not_elem_of_cons in Ha as [_ Ha].
    apply not_elem_of_cons in Ha' as [_ Ha'].
    destruct (IH a' Ha Ha' E) as [-> ->]. done.
Qed.

Lemma int_to_string_chars (i : Z) :
  Forall (fun c => c = 45 \/ 48 <= c <= 57) (int_to_string i).
Proof.
  assert (H : forall n, 0 <= n ->
            Forall (fun c => c = 45 \/ 48 <= c <= 57) (digits_of n)).
  { intros n Hn. pose proof (digits_of_all_digits n Hn) as Hd.
    rewrite forallb_forall in Hd. apply Forall_forall.
    intros c Hc%list_elem_of_In%Hd%is_digit_range. by right. }
  unfold int_to_string. destruct (i <? 0) eqn:E.
  - constructor; [by left|]. apply H. lia.
  - apply H. lia.
Qed.

Lemma int_to_string_inj (i j : Z) : int_to_string i = int_to_string j -> i = j.
Proof.
  assert (Hhead : forall n r, 0 <= n -> digits_of n <> 45 :: r).
  { intros n r Hn E. pose proof (digits_of_all_digits n Hn) as Hd.
    rewrite E in Hd. simpl in Hd. done. }
  unfold int_to_string.
  destruct (i <? 0) eqn:Ei; destruct (j <? 0) eqn:Ej; intros E.
  - injection E as E. apply (f_equal digits_value) in E.
    rewrite !digits_of_value in E by lia. lia.
  - symmetry in E. apply Hhead in E; [done|lia].
  - apply Hhead in E; [done|lia].
  - apply (f_equal digits_value) in E.
    rewrite !digits_of_value in E by lia. done.
Qed.

Lemma bracket_inj (s t : Segment) (r1 r2 : jstring) :
  plain_seg s -> plain_seg t ->
  bracket s ++ r1 = bracket t ++ r2 -> s = t /\ r1 = r2.
Proof.
  intros Hs Ht. unfold bracket. rewrite <- !app_assoc.
  change (js "[") with [91]. change (js "]") with [93]. simpl.
  intros [= E].
  assert (Hno : forall i, (93 ∉ int_to_string i) /\ (34 ∉ int_to_string i)).
  { intros i. pose proof (int_to_string_chars i) as H.
    rewrite Forall_forall in H. split; intros Hin%H; lia. }
  destruct s as [i|k], t as [j|k']; simpl in E.
  - apply split_at_first in E as [E ->]; [|apply Hno..].
    by apply int_to_string_inj in E as ->.
  - destruct (Hno i) as [_ H34]. destruct (int_to_string i) as [|c r].
    + simpl in E. done.
    + simpl in E. injection E as -> _. destruct H34. by left.
  - destruct (Hno j) as [_ H34]. destruct (int_to_string j) as [|c r].
    + simpl in E. done.
    + simpl in E. injection E as <- _. destruct H34. by left.
  - unfold dquote in E. simpl in E. injection E as E.
    rewrite <- !app_assoc in E. simpl in E.
    apply split_at_first in E as [-> E]; [|done..].
    by injection E as ->.
Qed.

Lemma brackets_inj (p : list Segment) :
  forall q, Forall plain_seg p -> Forall plain_seg q ->
    brackets p = brackets q -> p = q.
Proof.
  induction p as [|s p IH]; intros [|t q] Hp Hq E; [done|done|done|].
  inversion Hp; inversion Hq; subst.
  change (bracket s ++ brackets p = bracket t ++ brackets q) in E.
  apply bracket_inj in E as [-> E]; [|done..]. f_equal. by apply IH.
Qed.

(** X25. Paths whose keys hold no double quote are told apart by their
    display: two of them that print alike are the same path. *)
Theorem jsonPathToString_tells_plain_paths_apart (p q : list Segment) :
  Forall plain_seg p -> Forall plain_seg q ->
  jsonPathToString (Some p) = jsonPathToString (Some q) -> p = q.
Proof.
  intros Hp Hq. rewrite !jsonPathToString_brackets. intros E.
  apply app_inv_head in E. by apply brackets_inj.
Qed.

Lemma jsonPathToString_tells_plain_paths_apart_witness :
  [SKey (js "a"); SIdx 0] = [SKey (js "a"); SIdx 0].
Proof.
  apply (jsonPathToString_tells_plain_paths_apart
           [SKey (js "a"); SIdx 0] [SKey (js "a"); SIdx 0]).
  - repeat constructor. vm_compute. intros H.
    apply list_elem_of_singleton in H. done.
  - repeat constructor. vm_compute. intros H.
    apply list_elem_of_singleton in H. done.
  - reflexivity.
Defined.

(** X26. With a double quote in a key the display is ambiguous: the one
    key [a"]["b] prints like the two keys [a] and [b], wherever in a path. *)
Theorem jsonPathToString_ambiguous (pre post : list Segment) (a b : jstring) :
  jsonPathToString (Some (pre ++ SKey (a ++ jq "']['" ++ b) :: post))
  = jsonPathToString (Some (pre ++ SKey a :: SKey b :: post))
  /\ pre ++ SKey (a ++ jq "']['" ++ b) :: post
     <> pre ++ SKey a :: SKey b :: post.
Proof.
  split.
  - rewrite !jsonPathToString_brackets, !brackets_app. do 2 f_equal.
    change (brackets (SKey (a ++ jq "']['" ++ b) :: post))
      with (bracket (SKey (a ++ jq "']['" ++ b)) ++ brackets post).
    change (brackets (SKey a :: SKey b :: post))
      with (bracket (SKey a) ++ bracket (SKey b) ++ brackets post).
    unfold bracket, segment_text, dquote.
    change (jq "']['") with [34; 93; 91; 34]. change (js "[") with [91].
    change (js "]") with [93].
    rewrite <- ?app_assoc. simpl. rewrite <- ?app_assoc. simpl. done.
  - intros E. apply app_inv_head in E. injection E as E1 E2.
    apply (f_equal (@length Segment)) in E2. simpl in E2. lia.
Qed.

(* ===================================================================== *)
(** * Number segments *)
(* ===================================================================== *)

Lemma count_up_spec (fuel : nat) :
  forall p q n, 0 < q -> p < q * 10 ^ Z.of_nat fuel ->
    exists d, 0 <= d <= Z.of_nat fuel
      /\ count_up (S fuel) p q n = n + d
      /\ p < q * 10 ^ d
      /\ (0 < d -> q * 10 ^ (d - 1) <= p).
Proof.
  induction fuel as [|f IH]; intros p q n Hq Hp.
  - exists 0. change (Z.of_nat 0) with 0 in *. rewrite Z.pow_0_r in *.
    cbn [count_up]. replace (p <? q) with true by lia.
    repeat split; lia.
  - change (count_up (S (S f)) p q n)
      with (if p <? q then n else count_up (S f) p (q * 10) (n + 1)).
    destruct (Z.ltb_spec p q) as [Hlt|Hge].
    + exists 0. rewrite Z.pow_0_r. repeat split; lia.
    + rewrite Nat2Z.inj_succ, Z.pow_succ_r in Hp by lia.
      destruct (IH p (q * 10) (n + 1)) as (d & Hd & E & Hlt & Hlow);
        [lia|lia|].
      exists (d + 1). rewrite E.
      assert (E10 : 10 ^ (d + 1) = 10 * 10 ^ d).
      { rewrite Z.pow_add_r by lia. lia. }
      split; [lia|]. split; [lia|]. split; [rewrite E10; lia|].
      intros _. replace (d + 1 - 1) with d by lia.
      destruct (Z.eq_dec d 0) as [->|Hd0]; [rewrite Z.pow_0_r; lia|].
      specialize (Hlow ltac:(lia)).
      replace d with (d - 1 + 1) at 1 by lia.
      rewrite Z.pow_add_r by lia. lia.
Qed.

(** The decimal exponent of a positive integer [i], given as [i * q / q]:
    the number of its digits. *)
Lemma decimal_exponent_integer (i q : Z) :
  0 < i < 2 ^ 53 -> 0 < q ->
  exists n, decimal_exponent (i * q) q = n
    /\ 1 <= n <= 16 /\ 10 ^ (n - 1) <= i < 10 ^ n.
Proof.
  intros [Hi0 Hi1] Hq. unfold decimal_exponent.
  replace (q <=? i * q) with true by nia.
  assert (H16 : 2 ^ 53 < 10 ^ 16) by reflexivity.
  assert (H399 : 10 ^ 16 <= 10 ^ 399) by (apply Z.pow_le_mono_r; lia).
  destruct (count_up_spec 399 (i * q) q 0 Hq) as (d & Hd & E & Hlt & Hlow).
  { change (Z.of_nat 399) with 399. nia. }
  change (S 399) with 400%nat in E. rewrite E. exists d.
  assert (Hd1 : 0 < d).
  { destruct (Z.eq_dec d 0) as [->|]; [|lia]. rewrite Z.pow_0_r in Hlt. nia. }
  specialize (Hlow Hd1).
  assert (Hi : 10 ^ (d - 1) <= i < 10 ^ d).
  { assert (0 < 10 ^ d) by (apply Z.pow_pos_nonneg; lia).
    assert (0 < 10 ^ (d - 1)) by (apply Z.pow_pos_nonneg; lia).
    split; nia. }
  split; [lia|]. split; [|done]. split; [lia|].
  destruct (Z.le_gt_cases d 16) as [|Hbig]; [done|].
  assert (10 ^ 16 <= 10 ^ (d - 1)) by (apply Z.pow_le_mono_r; lia). lia.
Qed.

(** From [2^53] on the exponent of the rounded integer is positive. *)
Lemma round64_large (neg : bool) (a : Z) :
  2 ^ 53 <= a ->
  match round64 neg a 1 with
  | Fin _ _ e => 1 <= e
  | _ => True
  end.
Proof.
  intros Ha.
  assert (Hl : 53 <= Z.log2 a) by (apply Z.log2_le_pow2; lia).
  destruct (Z.log2_spec a ltac:(lia)) as [Hlo Hhi].
  unfold round64. replace (a =? 0) with false by lia.
  change (Z.log2 1) with 0. set (l := Z.log2 a) in *.
  replace (l - 0 - 52) with (l - 52) by lia.
  replace (l - 52 <? 0) with false by lia. cbv iota.
  replace (52 + (l - 52)) with l by lia. rewrite Z.mul_1_l.
  replace (a <? 2 ^ l) with false by lia.
  replace (Z.max (l - 52) (-1074)) with (l - 52) by lia.
  replace (l - 52 <? 0) with false by lia. cbv iota zeta.
  destruct (_ || _); destruct (_ =? 2 ^ 53); destruct (971 <? _) eqn:E;
    try done; lia.
Qed.

(** Below [2^53] different integers are different Numbers. *)
Lemma round64_inj_small (i a : Z) :
  0 < i < 2 ^ 53 -> 0 <= a ->
  round64 false a 1 = round64 false i 1 -> a = i.
Proof.
  intros Hi Ha E. rewrite (round64_small false i Hi) in E.
  assert (Hli : Z.log2 i < 53) by (apply Z.log2_lt_pow2; lia).
  destruct (Z.eq_dec a 0) as [->|Ha0].
  { change (round64 false 0 1) with (Fin false 0 (-1074)) in E.
    injection E as E1 E2. lia. }
  destruct (Z.lt_ge_cases a (2 ^ 53)) as [Hsmall|Hlarge].
  - rewrite (round64_small false a) in E by lia.
    injection E as E1 E2.
    assert (El : Z.log2 a = Z.log2 i) by lia. rewrite El in E1.
    assert (0 < 2 ^ (52 - Z.log2 i)) by (apply Z.pow_pos_nonneg; lia).
    nia.
  - pose proof (round64_large false a Hlarge) as H. rewrite E in H. lia.
Qed.

(** Among the decimals of [k] digits next to a positive integer [i] below
    [2^53], only [i] itself converts back to [i]. *)
Lemma shortest_at_integer (i q n k : Z) :
  0 < i < 2 ^ 53 -> 0 < q -> 1 <= k <= n -> i < 10 ^ n ->
  shortest_at (round64 false i 1) (i * q) q n k
  = if decide (i mod 10 ^ (n - k) = 0)
    then Some (n, i / 10 ^ (n - k)) else None.
Proof.
  intros Hi Hq Hk Hn. unfold shortest_at. cbv zeta.
  replace (n - k <? 0) with false by lia. cbv iota.
  unfold num_of_decimal. replace (n - k <? 0) with false by lia. cbv iota.
  set (T := 10 ^ (n - k)).
  assert (HT : 0 < T) by (apply Z.pow_pos_nonneg; lia).
  replace (i * q / (q * T)) with (i / T)
    by (rewrite (Z.mul_comm i q); symmetry; apply Z.div_mul_cancel_l; lia).
  pose proof (Z.div_mod i T ltac:(lia)) as Hdm.
  pose proof (Z.mod_pos_bound i T HT) as Hmod.
  set (lo := i / T) in *.
  assert (Hlo : 0 <= lo) by (apply Z.div_pos; lia).
  assert (Hhi : (lo + 1) * T <> i) by nia.
  destruct (decide (round64 false ((lo + 1) * T) 1 = round64 false i 1))
    as [E|_].
  { apply round64_inj_small in E; [done|done|nia]. }
  destruct (decide (i mod T = 0)) as [E0|E0].
  - assert (Elo : lo * T = i) by nia. rewrite Elo.
    destruct (decide (round64 false i 1 = round64 false i 1)); [|done].
    assert (lo < 10 ^ k).
    { assert (E : 10 ^ n = 10 ^ k * T).
      { unfold T. rewrite <- Z.pow_add_r by lia. f_equal. lia. }
      assert (0 < 10 ^ k) by (apply Z.pow_pos_nonneg; lia). nia. }
    replace (lo =? 10 ^ k) with false by lia. done.
  - destruct (decide (round64 false (lo * T) 1 = round64 false i 1))
      as [E|_]; [|done].
    apply round64_inj_small in E; [|done|nia]. nia.
Qed.

Lemma shortest_from_integer (i q n : Z) (fuel : nat) :
  0 < i < 2 ^ 53 -> 0 < q -> i < 10 ^ n ->
  forall k, 1 <= k <= n -> n - k < Z.of_nat fuel ->
    exists k' s, k <= k' <= n /\ 0 < s /\ s * 10 ^ (n - k') = i
      /\ shortest_from fuel (round64 false i 1) (i * q) q n k = (n, k', s).
Proof.
  intros Hi Hq Hn. induction fuel as [|f IH]; intros k Hk Hf; [lia|].
  cbn [shortest_from]. rewrite shortest_at_integer by done.
  assert (HT : 0 < 10 ^ (n - k)) by (apply Z.pow_pos_nonneg; lia).
  pose proof (Z.div_mod i (10 ^ (n - k)) ltac:(lia)) as Hdm.
  destruct (decide (i mod 10 ^ (n - k) = 0)) as [E0|E0].
  - exists k, (i / 10 ^ (n - k)). split; [lia|]. split; [nia|].
    split; [nia|done].
  - assert (k <> n).
    { intros ->. rewrite Z.sub_diag, Z.pow_0_r, Z.mod_1_r in E0. done. }
    destruct (IH (k + 1)) as (k' & s & Hk' & Hs & Es & E); [lia|lia|].
    exists k', s. split; [lia|done].
Qed.

Lemma digits_value_app_zeros (a : jstring) (t : nat) :
  digits_value (a ++ repeat 48 t) = digits_value a * 10 ^ Z.of_nat t.
Proof.
  induction t as [|t IH].
  - simpl. rewrite app_nil_r. change (Z.of_nat 0) with 0.
    by rewrite Z.pow_0_r, Z.mul_1_r.
  - change (repeat 48 (S t)) with (48 :: repeat 48 t).
    rewrite repeat_cons, app_assoc, digits_value_snoc, IH.
    rewrite Nat2Z.inj_succ, Z.pow_succ_r by lia. lia.
Qed.

(** The digits of [s * 10^t] are those of [s] followed by [t] zeros. *)
Lemma digits_of_mul_pow10 (s t : Z) :
  0 < s -> 0 <= t -> digits_of (s * 10 ^ t) = digits_of s ++ zeros t.
Proof.
  intros Hs Ht. unfold zeros.
  assert (HT : 0 < 10 ^ t) by (apply Z.pow_pos_nonneg; lia).
  assert (Hv : digits_value (digits_of s ++ repeat 48 (Z.to_nat t))
               = s * 10 ^ t).
  { rewrite digits_value_app_zeros, digits_of_value by lia.
    by rewrite Z2Nat.id by lia. }
  rewrite <- Hv at 1. unfold digits_of at 1.
  destruct (digits_fuel_head _ s
              ltac:(split; [lia|apply digits_of_bound; lia]))
    as (c & r & E & Hc).
  fold (digits_of s) in E.
  apply digits_fuel_canonical.
  - lia.
  - rewrite E. done.
  - rewrite forallb_app, digits_of_all_digits by lia. simpl.
    apply forallb_forall. by intros x ->%repeat_spec.
  - rewrite E. simpl. destruct (r ++ repeat 48 (Z.to_nat t)); done.
  - rewrite Hv. apply digits_of_bound. nia.
Qed.

(** Number::toString of a non-zero integer below [2^53] in absolute value:
    a minus sign when negative, then all its decimal digits. *)
Lemma Number_toString_round64 (neg : bool) (a : Z) :
  0 < a < 2 ^ 53 ->
  Number_toString (round64 neg a 1)
  = (if neg then js "-" else []) ++ digits_of a.
Proof.
  intros Ha. rewrite (round64_small neg a Ha).
  assert (Hl : 0 <= Z.log2 a < 53).
  { split; [apply Z.log2_nonneg|apply Z.log2_lt_pow2; lia]. }
  set (l := Z.log2 a) in *. set (Q := 2 ^ (52 - l)).
  assert (HQ : 0 < Q) by (apply Z.pow_pos_nonneg; lia).
  unfold Number_toString. replace (a * Q =? 0) with false by nia.
  assert ((if l - 52 <? 0 then a * Q else a * Q * 2 ^ (l - 52)) = a * Q) as ->.
  { destruct (Z.ltb_spec (l - 52) 0); [done|].
    replace (l - 52) with 0 by lia. by rewrite Z.pow_0_r, Z.mul_1_r. }
  assert ((if l - 52 <? 0 then 2 ^ (- (l - 52)) else 1) = Q) as ->.
  { unfold Q. destruct (Z.ltb_spec (l - 52) 0).
    - f_equal. lia.
    - replace (52 - l) with 0 by lia. by rewrite Z.pow_0_r. }
  replace (Fin false (a * Q) (l - 52)) with (round64 false a 1)
    by apply (round64_small false a Ha).
  destruct (decimal_exponent_integer a Q Ha HQ) as (n & -> & Hn16 & Hn).
  destruct (shortest_from_integer a Q n 17 Ha HQ ltac:(lia) 1
              ltac:(lia) ltac:(simpl; lia))
    as (k & s & Hk & Hs & Es & ->).
  cbv iota beta zeta.
  replace ((k <=? n) && (n <=? 21)) with true by lia. cbv iota.
  f_equal. rewrite <- digits_of_mul_pow10 by lia. by rewrite Es.
Qed.

(** Number::toString of an integer below [2^53] in absolute value: the
    digits that [int_to_string] gives. *)
Lemma Number_toString_integer (i : Z) :
  - 2 ^ 53 < i < 2 ^ 53 -> Number_toString (num_of_Z i) = int_to_string i.
Proof.
  intros Hi. unfold num_of_Z, int_to_string.
  destruct (Z.ltb_spec i 0) as [Hneg|Hpos].
  - rewrite Z.abs_neq by lia. by rewrite Number_toString_round64 by lia.
  - rewrite Z.abs_eq by lia. destruct (Z.eq_dec i 0) as [->|Hne]; [done|].
    by rewrite Number_toString_round64 by lia.
Qed.

(** From [10^21] on Number::toString prints an exponent, and already from
    [2^53] on it does not print every digit of the integer. *)
Example Number_toString_large :
  Number_toString (num_of_Z (10 ^ 21)) = js "1e+21"
  /\ Number_toString (num_of_Z (2 ^ 60)) = js "1152921504606847000"
  /\ int_to_string (2 ^ 60) = js "1152921504606846976".
Proof. repeat split; vm_compute; reflexivity. Qed.

(** The property key of an integer segment below [2^53] in absolute value
    is what Number::toString prints. *)
Lemma prop_key_number (i : Z) :
  - 2 ^ 53 < i < 2 ^ 53 -> prop_key (SIdx i) = Number_toString (num_of_Z i).
Proof. intros H. symmetry. by apply Number_toString_integer. Qed.





